(** * Jenkins chatbot AI agent: the tool-calling runtime

    A shallow embedding of the resilience layer of [ai-agent/app/services]:

    - [recovery_manager.py]   : the per-key circuit breaker and the recorded
                                history of [RecoveryManager];
    - [performance_manager.py]: [IntelligentCache], [ConnectionPool] and, of
                                [PerformanceManager], [cached_operation] and
                                [with_connection_pool];
    - [mcp_universal_client.py]: parameter validation, server selection,
                                retrying execution, capability discovery and
                                the health check of [UniversalMCPClient];
    - [tool_registry.py]      : server scoring, tool selection, fallback
                                execution and performance tracking of
                                [ToolRegistry].

    Conventions.  Python [float]s (timestamps of [time.time()], rates, scores,
    latencies) are rationals [Q] compared with [Qle_bool]; Python [int]s are
    [Z]; a [dict] keyed by strings whose order is irrelevant is a
    [gmap string _]; a [dict] or [OrderedDict] whose order matters is a list;
    an exception is a constructor of the result type.  Every [async] method
    runs under the object's lock, so it is a function from the state before to
    the state after; the instant read by [time.time()] during one call is the
    argument [now]. *)

From Stdlib Require Import ZArith QArith Qround String Ascii List Lia Bool.
From Stdlib Require Import DecimalString DecimalPos Lqa.
From stdpp Require Import base option list gmap strings.
Import ListNotations.

#[local] Open Scope string_scope.
#[local] Open Scope Z_scope.

(** ** Rational comparisons as the code writes them *)

(** [x < y] on floats. *)
Definition Qltb (x y : Q) : bool := negb (Qle_bool y x).

Definition Qmax (x y : Q) : Q := if Qle_bool x y then y else x.

(** ** recovery_manager.py: the circuit breaker kept per [circuit_key] *)

Module RecoveryManager.

(** The three values the ["state"] entry takes: ["closed"], ["open"],
    ["half-open"]. *)
Inductive BreakerState := closed | open | half_open.

Definition BreakerState_eqb (a b : BreakerState) : bool :=
  match a, b with
  | closed, closed | open, open | half_open, half_open => true
  | _, _ => false
  end.

(** One value of [self.circuit_breakers]; [opened_at] is [None] or a
    timestamp. *)
Record CircuitState := mkCircuitState {
  failure_count : Z;
  success_count : Z;
  state : BreakerState;
  opened_at : option Q;
  timeout : Q
}.

(** The entry [_update_circuit_breaker] creates for an unseen key. *)
Definition fresh_circuit : CircuitState :=
  {| failure_count := 0; success_count := 0; state := closed;
     opened_at := None; timeout := 300 |}.

Inductive RecoveryStrategy :=
| RETRY_SAME | RETRY_WITH_FALLBACK | MODIFY_PARAMETERS | CHANGE_APPROACH
| REQUEST_USER_INPUT | GRACEFUL_DEGRADATION | ABANDON_GOAL.

(** The fields of [RecoveryAction] the breaker reads or writes. *)
Record RecoveryAction := mkRecoveryAction {
  strategy : RecoveryStrategy;
  description : string;
  estimated_success_rate : Q
}.

(** Outcome of a method that may hit [float - None]. *)
Inductive outcome (A : Type) :=
| Returns (a : A)
| RaisesTypeError.
Arguments Returns {A} a.
Arguments RaisesTypeError {A}.

(** [_is_circuit_breaker_open]: the answer and the breakers afterwards. *)
Definition _is_circuit_breaker_open (now : Q) (circuit_key : string)
    (circuit_breakers : gmap string CircuitState)
  : outcome (bool * gmap string CircuitState) :=
  match circuit_breakers !! circuit_key with
  | None => Returns (false, circuit_breakers)
  | Some circuit_state =>
      if negb (BreakerState_eqb (state circuit_state) open)
      then Returns (false, circuit_breakers)
      else
        match opened_at circuit_state with
        | None => RaisesTypeError
        | Some t0 =>
            if Qltb (timeout circuit_state) (now - t0)
            then Returns (false,
                   <[circuit_key :=
                       {| failure_count := failure_count circuit_state;
                          success_count := success_count circuit_state;
                          state := half_open;
                          opened_at := opened_at circuit_state;
                          timeout := timeout circuit_state |}]>
                     circuit_breakers)
            else Returns (true, circuit_breakers)
        end
  end.

(** The body of [_update_circuit_breaker] on the entry of the key. *)
Definition update_entry (now : Q) (rate : Q) (cs : CircuitState)
  : CircuitState :=
  if Qltb rate 0.3 then
    let n := failure_count cs + 1 in
    if (5 <=? n) && BreakerState_eqb (state cs) closed
    then {| failure_count := n; success_count := success_count cs;
            state := open; opened_at := Some now; timeout := timeout cs |}
    else {| failure_count := n; success_count := success_count cs;
            state := state cs; opened_at := opened_at cs;
            timeout := timeout cs |}
  else if Qltb 0.7 rate then
    let n := success_count cs + 1 in
    if 3 <=? n
    then {| failure_count := 0; success_count := n; state := closed;
            opened_at := None; timeout := timeout cs |}
    else {| failure_count := failure_count cs; success_count := n;
            state := state cs; opened_at := opened_at cs;
            timeout := timeout cs |}
  else cs.

(** [_update_circuit_breaker]: the entry is created when the key is new,
    then updated in place. *)
Definition _update_circuit_breaker (now : Q) (circuit_key : string)
    (recovery_action : RecoveryAction)
    (circuit_breakers : gmap string CircuitState)
  : gmap string CircuitState :=
  let circuit_state :=
    match circuit_breakers !! circuit_key with
    | Some cs => cs
    | None => fresh_circuit
    end in
  <[circuit_key :=
      update_entry now (estimated_success_rate recovery_action) circuit_state]>
    circuit_breakers.

Definition degraded_action : RecoveryAction :=
  {| strategy := GRACEFUL_DEGRADATION;
     description := "Circuit breaker active - using alternative approach";
     estimated_success_rate := 0.8 |}.

(** The part of [handle_failure] that touches the breaker.  [generated] is
    the action [_generate_recovery_action] produces for the failure. *)
Definition handle_failure (now : Q) (circuit_key : string)
    (generated : RecoveryAction)
    (circuit_breakers : gmap string CircuitState)
  : outcome (RecoveryAction * gmap string CircuitState) :=
  match _is_circuit_breaker_open now circuit_key circuit_breakers with
  | RaisesTypeError => RaisesTypeError
  | Returns (true, cbs) => Returns (degraded_action, cbs)
  | Returns (false, cbs) =>
      Returns (generated,
               _update_circuit_breaker now circuit_key generated cbs)
  end.

(** The entry a key stands for: its own, or the closed one its first update
    creates. *)
Definition entry_of (k : string) (cbs : gmap string CircuitState) : CircuitState :=
  match cbs !! k with Some cs => cs | None => fresh_circuit end.

(** [circuit_state["state"] = "half-open"]. *)
Definition set_half_open (cs : CircuitState) : CircuitState :=
  {| failure_count := failure_count cs; success_count := success_count cs;
     state := half_open; opened_at := opened_at cs; timeout := timeout cs |}.

(** [handle_failure] called once per listed instant, each time with the
    generated action [a]: the strategies returned, latest first, and the
    breakers at the end. *)
Fixpoint handle_failures (times : list Q) (circuit_key : string)
    (a : RecoveryAction) (acc : list RecoveryStrategy)
    (cbs : gmap string CircuitState)
  : outcome (list RecoveryStrategy * gmap string CircuitState) :=
  match times with
  | [] => Returns (acc, cbs)
  | now :: rest =>
      match handle_failure now circuit_key a cbs with
      | Returns (r, cbs') =>
          handle_failures rest circuit_key a (strategy r :: acc) cbs'
      | RaisesTypeError => RaisesTypeError
      end
  end.

(** The action of an abandoned retry: its estimated success rate is 0. *)
Definition abandon : RecoveryAction :=
  {| strategy := ABANDON_GOAL; description := "Maximum retries (3) exceeded";
     estimated_success_rate := 0 |}.

(** The two methods that write [self.circuit_breakers], as calls. *)
Inductive breaker_call :=
| Check (now : Q) (circuit_key : string)
| Update (now : Q) (circuit_key : string) (recovery_action : RecoveryAction).

(** The breakers after the calls, in any interleaving; [RaisesTypeError]
    when a check raises. *)
Fixpoint after_breaker_calls (calls : list breaker_call)
    (circuit_breakers : gmap string CircuitState)
  : outcome (gmap string CircuitState) :=
  match calls with
  | [] => Returns circuit_breakers
  | Check now circuit_key :: rest =>
      match _is_circuit_breaker_open now circuit_key circuit_breakers with
      | Returns (_, circuit_breakers') =>
          after_breaker_calls rest circuit_breakers'
      | RaisesTypeError => RaisesTypeError
      end
  | Update now circuit_key recovery_action :: rest =>
      after_breaker_calls rest
        (_update_circuit_breaker now circuit_key recovery_action
           circuit_breakers)
  end.

(** What holds of every entry the two methods write: the timeout is the
    300 s it was created with, the counts are not negative, and a breaker
    that is not closed has counted five failures and carries the instant it
    opened. *)
Definition sound_entry (cs : CircuitState) : Prop :=
  timeout cs = 300%Q /\ 0 <= failure_count cs /\ 0 <= success_count cs
  /\ (state cs ≠ closed ->
      5 <= failure_count cs /\ exists t0, opened_at cs = Some t0).

(** One entry of a list of [self.recovery_history]; [record_strategy]
    stands for [recovery_action.strategy.value]. *)
Record RecoveryRecord := mkRecoveryRecord {
  timestamp : Q;
  record_error : string;
  record_strategy : RecoveryStrategy;
  estimated_success : Q;
  attempt_count : Z
}.

(** [_record_recovery_attempt]: [failure_type] is
    [failure_context.failure_type.value], [tool_name], [error] and
    [attempts] the step's tool, the error and the attempt count of the
    failure context, [now] the instant of the call. *)
Definition _record_recovery_attempt (now : Q) (failure_type tool_name : string)
    (error : string) (attempts : Z) (recovery_action : RecoveryAction)
    (recovery_history : gmap string (list RecoveryRecord))
  : gmap string (list RecoveryRecord) :=
  let record_key := failure_type +:+ ":" +:+ tool_name in
  let record :=
    {| timestamp := now; record_error := error;
       record_strategy := strategy recovery_action;
       estimated_success := estimated_success_rate recovery_action;
       attempt_count := attempts |} in
  let history :=
    (match recovery_history !! record_key with
     | Some l => l
     | None => []
     end ++ [record])%list in
  <[record_key :=
      if (100 <? length history)%nat
      then drop (length history - 100) history
      else history]> recovery_history.

(** One recorded attempt: the arguments of [_record_recovery_attempt]. *)
Record attempt := mkAttempt {
  at_instant : Q;
  of_failure_type : string;
  of_tool : string;
  of_error : string;
  of_attempts : Z;
  of_action : RecoveryAction
}.

Definition record_of (a : attempt) : RecoveryRecord :=
  {| timestamp := at_instant a; record_error := of_error a;
     record_strategy := strategy (of_action a);
     estimated_success := estimated_success_rate (of_action a);
     attempt_count := of_attempts a |}.

Definition key_of (a : attempt) : string :=
  of_failure_type a +:+ ":" +:+ of_tool a.

(** The history after the attempts were recorded in turn. *)
Definition record_all (attempts : list attempt)
    (recovery_history : gmap string (list RecoveryRecord))
  : gmap string (list RecoveryRecord) :=
  foldl (λ h a,
           _record_recovery_attempt (at_instant a) (of_failure_type a)
             (of_tool a) (of_error a) (of_attempts a) (of_action a) h)
        recovery_history attempts.

End RecoveryManager.


(** ** Python values *)

(** The values that travel as tool parameters and cache payloads.  [VOther]
    stands for a container or any other object and carries the text
    [str(value)] gives for it. *)
Inductive PyVal :=
| VNone
| VBool (b : bool)
| VInt (z : Z)
| VFloat (q : Q)
| VStr (s : string)
| VOther (repr : string).

(** [value is None]. *)
Definition is_None (v : PyVal) : bool :=
  match v with VNone => true | _ => false end.

(** ** performance_manager.py: [IntelligentCache] *)

(** [len(json.dumps(value, default=str).encode('utf-8'))], or 1024 when the
    value does not serialise: the byte size [set] charges for a value. *)
Class Serializer := { payload_size : PyVal -> N }.

Module Cache.

Record CacheItem := mkCacheItem {
  key : string;
  value : PyVal;
  created_at : Q;
  expires_at : option Q;
  access_count : Z;
  last_accessed : Q;
  size_bytes : Z
}.

(** The property [is_expired], read at instant [now]. *)
Definition is_expired (now : Q) (it : CacheItem) : bool :=
  match expires_at it with
  | None => false
  | Some e => Qltb e now
  end.

Definition touch (now : Q) (it : CacheItem) : CacheItem :=
  {| key := key it; value := value it; created_at := created_at it;
     expires_at := expires_at it; access_count := access_count it + 1;
     last_accessed := now; size_bytes := size_bytes it |}.

(** [cache] is the dict of items; [access_order] lists the keys of the
    [OrderedDict], least recently used first. *)
Record IntelligentCache := mkCache {
  max_size : Z;
  default_ttl : Q;
  cache : gmap string CacheItem;
  access_order : list string;
  _size_bytes : Z;
  _max_size_bytes : Z
}.

(** [IntelligentCache(max_size, default_ttl)]. *)
Definition new_cache (max_size : Z) (default_ttl : Q) : IntelligentCache :=
  {| max_size := max_size; default_ttl := default_ttl; cache := ∅;
     access_order := []; _size_bytes := 0;
     _max_size_bytes := 100 * 1024 * 1024 |}.

(** [OrderedDict.pop(key, None)]. *)
Definition od_pop (k : string) (l : list string) : list string :=
  filter (λ k', k' ≠ k) l.

(** [OrderedDict.__setitem__(key, True)]: a new key goes last, a present key
    keeps its place. *)
Definition od_set (k : string) (l : list string) : list string :=
  if decide (k ∈ l) then l else l ++ [k].

(** [OrderedDict.move_to_end(key)] for a present key. *)
Definition od_move_to_end (k : string) (l : list string) : list string :=
  od_pop k l ++ [k].

Definition _remove_item (k : string) (c : IntelligentCache) : IntelligentCache :=
  match cache c !! k with
  | Some cache_item =>
      {| max_size := max_size c; default_ttl := default_ttl c;
         cache := delete k (cache c);
         access_order := od_pop k (access_order c);
         _size_bytes := _size_bytes c - size_bytes cache_item;
         _max_size_bytes := _max_size_bytes c |}
  | None => c
  end.

Definition _evict_lru (c : IntelligentCache) : bool * IntelligentCache :=
  match access_order c with
  | [] => (false, c)
  | lru_key :: _ => (true, _remove_item lru_key c)
  end.

(** Results of the cache methods: a value, [KeyError] out of
    [move_to_end], or a loop that has not finished when the fuel ran out. *)
Inductive result (A : Type) :=
| Ret (a : A)
| RaisesKeyError
| OutOfFuel.
Arguments Ret {A} a.
Arguments RaisesKeyError {A}.
Arguments OutOfFuel {A}.

(** [get]: [VNone] is the miss. *)
Definition get (now : Q) (k : string) (c : IntelligentCache)
  : result (PyVal * IntelligentCache) :=
  match cache c !! k with
  | None => Ret (VNone, c)
  | Some cache_item =>
      if is_expired now cache_item then Ret (VNone, _remove_item k c)
      else if decide (k ∈ access_order c) then
        Ret (value cache_item,
             {| max_size := max_size c; default_ttl := default_ttl c;
                cache := <[k := touch now cache_item]> (cache c);
                access_order := od_move_to_end k (access_order c);
                _size_bytes := _size_bytes c;
                _max_size_bytes := _max_size_bytes c |})
      else RaisesKeyError
  end.

(** The [while] loop of [set]: evict until there is room for [size] more
    bytes and one more item.  [Some (false, _)] is the [return False] out of
    the loop, [None] an iteration count beyond [fuel]. *)
Fixpoint make_room (fuel : nat) (size : Z) (c : IntelligentCache)
  : option (bool * IntelligentCache) :=
  if (max_size c <=? Z.of_nat (base.size (cache c)))
     || (_max_size_bytes c <? _size_bytes c + size)
  then
    match fuel with
    | O => None
    | S fuel' =>
        match _evict_lru c with
        | (false, c') => Some (false, c')
        | (true, c') => make_room fuel' size c'
        end
    end
  else Some (true, c).

(** [set], with as much fuel as the loop can use on a cache whose
    [access_order] lists its keys. *)
Definition set `{Serializer} (now : Q) (k : string) (v : PyVal)
    (ttl : option Q) (c : IntelligentCache)
  : result (bool * IntelligentCache) :=
  let ttl := match ttl with Some t => t | None => default_ttl c end in
  let size := Z.of_N (payload_size v) in
  match make_room (S (length (access_order c))) size c with
  | None => OutOfFuel
  | Some (false, c') => Ret (false, c')
  | Some (true, c1) =>
      let c2 := _remove_item k c1 in
      let cache_item :=
        {| key := k; value := v; created_at := now;
           expires_at := if Qltb 0 ttl then Some (now + ttl)%Q else None;
           access_count := 0; last_accessed := now; size_bytes := size |} in
      Ret (true,
           {| max_size := max_size c2; default_ttl := default_ttl c2;
              cache := <[k := cache_item]> (cache c2);
              access_order := od_set k (access_order c2);
              _size_bytes := _size_bytes c2 + size;
              _max_size_bytes := _max_size_bytes c2 |})
  end.

Definition delete_ (k : string) (c : IntelligentCache)
  : bool * IntelligentCache :=
  match cache c !! k with
  | Some _ => (true, _remove_item k c)
  | None => (false, c)
  end.

Definition clear (c : IntelligentCache) : IntelligentCache :=
  {| max_size := max_size c; default_ttl := default_ttl c; cache := ∅;
     access_order := []; _size_bytes := 0;
     _max_size_bytes := _max_size_bytes c |}.

(** One round of [_cleanup_loop]: the expired keys are collected, then
    removed. *)
Definition cleanup (now : Q) (c : IntelligentCache) : IntelligentCache :=
  let expired_keys :=
    (filter (λ kv, is_expired now kv.2 = true) (map_to_list (cache c))).*1 in
  foldl (λ c' k', _remove_item k' c') c expired_keys.

(** The bytes the items of a map were charged. *)
Definition total_bytes (m : gmap string CacheItem) : Z :=
  map_fold (λ _ it acc, size_bytes it + acc) 0 m.

(** The two structures of the cache agree: [access_order] lists the keys of
    [cache], each once; [_size_bytes] is the sum of the sizes charged; no
    size is negative. *)
Record wf (c : IntelligentCache) : Prop := mkWf {
  wf_nodup : NoDup (access_order c);
  wf_keys : forall k, k ∈ access_order c <-> is_Some (cache c !! k);
  wf_bytes : _size_bytes c = total_bytes (cache c);
  wf_sizes : forall k it, cache c !! k = Some it -> 0 <= size_bytes it
}.

(** The cache holds no more than its item cap and its byte budget. *)
Definition within_limits (c : IntelligentCache) : Prop :=
  Z.of_nat (size (cache c)) <= max_size c
  /\ total_bytes (cache c) <= _max_size_bytes c.

(** The calls a client of the cache can make, and the timer. *)
Inductive call :=
| Get (now : Q) (k : string)
| Set_ (now : Q) (k : string) (v : PyVal) (ttl : option Q)
| Delete (k : string)
| Clear
| Cleanup (now : Q).

(** The cache after one call; [None] when the call raises or does not
    return. *)
Definition after_call `{Serializer} (op : call) (c : IntelligentCache)
  : option IntelligentCache :=
  match op with
  | Get now k =>
      match get now k c with Ret (_, c') => Some c' | _ => None end
  | Set_ now k v ttl =>
      match set now k v ttl c with Ret (_, c') => Some c' | _ => None end
  | Delete k => Some (snd (delete_ k c))
  | Clear => Some (clear c)
  | Cleanup now => Some (cleanup now c)
  end.

Fixpoint after_calls `{Serializer} (ops : list call) (c : IntelligentCache)
  : option IntelligentCache :=
  match ops with
  | [] => Some c
  | op :: rest =>
      match after_call op c with
      | Some c' => after_calls rest c'
      | None => None
      end
  end.






(** The item [set] stores. *)
Definition stored_item `{Serializer} (now : Q) (k : string) (v : PyVal) (ttl : Q) : CacheItem :=
  {| key := k; value := v; created_at := now;
     expires_at := if Qltb 0 ttl then Some (now + ttl)%Q else None;
     access_count := 0; last_accessed := now;
     size_bytes := Z.of_N (payload_size v) |}.

Definition ttl_or_default (ttl : option Q) (c : IntelligentCache) : Q :=
  match ttl with Some t => t | None => default_ttl c end.

(** What the eviction loop of [set] leaves: the keys of a prefix of the
    access order are gone, whatever their expiry, and the rest is as it
    was. *)
Record room_made (size : Z) (c : IntelligentCache) (b : bool)
    (c' : IntelligentCache) (n : nat) : Prop := mkRoomMade {
  rm_wf : wf c';
  rm_order : access_order c' = drop n (access_order c);
  rm_kept : forall k, k ∈ access_order c' -> cache c' !! k = cache c !! k;
  rm_max_size : max_size c' = max_size c;
  rm_ttl : default_ttl c' = default_ttl c;
  rm_max_bytes : _max_size_bytes c' = _max_size_bytes c;
  rm_count : (base.size (cache c') <= base.size (cache c))%nat;
  rm_bytes : total_bytes (cache c') <= total_bytes (cache c);
  rm_room : b = true ->
            Z.of_nat (base.size (cache c')) < max_size c
            /\ _size_bytes c' + size <= _max_size_bytes c;
  rm_no_room : b = false ->
               access_order c' = []
               /\ (max_size c <= 0 \/ _max_size_bytes c < size)
}.

(** [set] always returns on a well-formed cache.  It first makes room
    ([c1], after [n] evictions from the front of the access order); when it
    returns [True] the new item is stored and [k] is the most recently used
    key. *)
Record set_done `{Serializer} (now : Q) (k : string) (v : PyVal) (ttl : option Q)
    (c : IntelligentCache) (b : bool) (c' : IntelligentCache) : Prop := mkSetDone {
  sd_wf : wf c';
  sd_limits : within_limits c -> within_limits c';
  sd_fits : b = true -> within_limits c';
  sd_max_size : max_size c' = max_size c;
  sd_ttl : default_ttl c' = default_ttl c;
  sd_max_bytes : _max_size_bytes c' = _max_size_bytes c;
  sd_evicted : exists c1 n,
    make_room (S (length (access_order c))) (Z.of_N (payload_size v)) c
    = Some (b, c1)
    /\ room_made (Z.of_N (payload_size v)) c b c1 n
    /\ (b = false -> c' = c1)
    /\ (b = true ->
        cache c' = <[k := stored_item now k v (ttl_or_default ttl c)]> (cache c1)
        /\ access_order c' = (od_pop k (access_order c1) ++ [k])%list)
}.

(** The cache after a hit on [k]. *)
Definition touched (now : Q) (k : string) (it : CacheItem) (c : IntelligentCache)
  : IntelligentCache :=
  {| max_size := max_size c; default_ttl := default_ttl c;
     cache := <[k := touch now it]> (cache c);
     access_order := od_move_to_end k (access_order c);
     _size_bytes := _size_bytes c; _max_size_bytes := _max_size_bytes c |}.

(** What every call preserves. *)
Definition preserved (c c' : IntelligentCache) : Prop :=
  wf c' /\ (within_limits c -> within_limits c')
  /\ max_size c' = max_size c /\ _max_size_bytes c' = _max_size_bytes c.

(** The dict [get_stats] returns; the entries ["max_size"], ["size_bytes"]
    and ["max_size_bytes"] carry the prefix [stats_]. *)
Record CacheStats := mkStats {
  total_items : Z;
  stats_max_size : Z;
  stats_size_bytes : Z;
  stats_max_size_bytes : Z;
  utilization_percent : Q;
  memory_utilization_percent : Q
}.

(** [get_stats()]; [None] is the [ZeroDivisionError] of a division by a
    [max_size] or a [_max_size_bytes] of zero. *)
Definition get_stats (c : IntelligentCache) : option CacheStats :=
  if (max_size c =? 0) || (_max_size_bytes c =? 0) then None
  else
    Some {| total_items := Z.of_nat (base.size (cache c));
            stats_max_size := max_size c;
            stats_size_bytes := _size_bytes c;
            stats_max_size_bytes := _max_size_bytes c;
            utilization_percent :=
              (inject_Z (Z.of_nat (base.size (cache c))) / inject_Z (max_size c))
              * 100;
            memory_utilization_percent :=
              (inject_Z (_size_bytes c) / inject_Z (_max_size_bytes c)) * 100 |}.

(** The items a round of [_cleanup_loop] at instant [now] leaves. *)
Definition unexpired (now : Q) (c : IntelligentCache) (k : string) : bool :=
  match cache c !! k with
  | Some it => negb (is_expired now it)
  | None => false
  end.


End Cache.


(** ** performance_manager.py: [PerformanceManager.cached_operation] *)

Module PerformanceManager.

(** [PerformanceMetrics], without its duration fields. *)
Record PerformanceMetrics := mkMetrics {
  operation_name : string;
  total_calls : Z;
  cache_hits : Z;
  cache_misses : Z;
  error_count : Z
}.

(** [metrics] is a [defaultdict(PerformanceMetrics)]: reading the entry of
    a name it does not hold calls [PerformanceMetrics()], which raises
    [TypeError] for want of [operation_name], and stores nothing.
    [operations_run] counts the times an [operation] was awaited: it is not a
    field of the class, it records the calls made. *)
Record PerformanceManager := mkPM {
  cache : Cache.IntelligentCache;
  metrics : gmap string PerformanceMetrics;
  operations_run : nat
}.

(** [PerformanceManager()]. *)
Definition new_manager : PerformanceManager :=
  {| cache := Cache.new_cache 1000 300; metrics := ∅; operations_run := 0 |}.

(** What awaiting [operation()] gives. *)
Inductive OperationResult :=
| OpReturns (v : PyVal)
| OpRaises (e : string).

(** What [cached_operation] gives its caller: a value, the exception of
    the operation, the [TypeError] of the metrics, or a cache call that did
    not return. *)
Inductive outcome :=
| Returned (v : PyVal)
| Raised (e : string)
| RaisedTypeError
| CacheFailed.

Definition with_metrics (name : string) (m : PerformanceMetrics)
    (c : Cache.IntelligentCache) (runs : nat) (pm : PerformanceManager)
  : PerformanceManager :=
  {| cache := c; metrics := <[name := m]> (metrics pm); operations_run := runs |}.

(** [cached_operation(key, operation, ttl, cache_key_prefix)]: [op_name] is
    [operation.__name__], [run] what [operation()] gives if it is awaited,
    [t_get] and [t_set] the instants of the cache read and of the cache
    write.  Both [_record_cache_hit] and [_record_cache_miss] start by
    reading [self.metrics[op_name]]. *)
Definition cached_operation `{Serializer} (t_get t_set : Q) (key : string)
    (op_name : string) (run : OperationResult) (ttl : option Q)
    (cache_key_prefix : string) (pm : PerformanceManager)
  : outcome * PerformanceManager :=
  let cache_key := cache_key_prefix +:+ ":" +:+ key in
  match Cache.get t_get cache_key (cache pm) with
  | Cache.Ret (cached_result, c1) =>
      match metrics pm !! op_name with
      | None =>
          (RaisedTypeError,
           {| cache := c1; metrics := metrics pm;
              operations_run := operations_run pm |})
      | Some m =>
          if negb (is_None cached_result) then
            (Returned cached_result,
             with_metrics op_name
               {| operation_name := operation_name m;
                  total_calls := total_calls m; cache_hits := cache_hits m + 1;
                  cache_misses := cache_misses m;
                  error_count := error_count m |}
               c1 (operations_run pm) pm)
          else
            let m1 :=
              {| operation_name := operation_name m;
                 total_calls := total_calls m; cache_hits := cache_hits m;
                 cache_misses := cache_misses m + 1;
                 error_count := error_count m |} in
            match run with
            | OpReturns result =>
                match Cache.set t_set cache_key result ttl c1 with
                | Cache.Ret (_, c2) =>
                    (Returned result,
                     with_metrics op_name
                       {| operation_name := operation_name m1;
                          total_calls := total_calls m1 + 1;
                          cache_hits := cache_hits m1;
                          cache_misses := cache_misses m1;
                          error_count := error_count m1 |}
                       c2 (S (operations_run pm)) pm)
                | _ => (CacheFailed,
                        with_metrics op_name m1 c1 (S (operations_run pm)) pm)
                end
            | OpRaises e =>
                (Raised e,
                 with_metrics op_name
                   {| operation_name := operation_name m1;
                      total_calls := total_calls m1 + 1;
                      cache_hits := cache_hits m1;
                      cache_misses := cache_misses m1;
                      error_count := error_count m1 + 1 |}
                   c1 (S (operations_run pm)) pm)
            end
      end
  | _ => (CacheFailed, pm)
  end.

(** The arguments of one call of [cached_operation] and what its
    environment gives: the instants of the cache read and of the cache
    write, and what awaiting the operation gives. *)
Record cached_call := mkCachedCall {
  call_t_get : Q;
  call_t_set : Q;
  call_key : string;
  call_op_name : string;
  call_run : OperationResult;
  call_ttl : option Q;
  call_prefix : string
}.

(** Calls of [cached_operation] one after the other, whatever their
    arguments: the outcomes, latest first, and the manager at the end. *)
Fixpoint cached_operations `{Serializer} (calls : list cached_call)
    (acc : list outcome) (pm : PerformanceManager)
  : list outcome * PerformanceManager :=
  match calls with
  | [] => (acc, pm)
  | call :: rest =>
      let (r, pm') :=
        cached_operation (call_t_get call) (call_t_set call) (call_key call)
          (call_op_name call) (call_run call) (call_ttl call)
          (call_prefix call) pm in
      cached_operations rest (r :: acc) pm'
  end.

End PerformanceManager.

(** ** performance_manager.py: [ConnectionPool] *)

Module Pool.

(** Connections are opaque objects: a number names each one.  [_pool] is the
    list of idle connections, appended to and popped from at its end. *)
Record ConnectionPool := mkPool {
  max_connections : Z;
  _pool : list nat;
  _used_connections : gset nat;
  _closed : bool;
  factory_set : bool
}.

Definition new_pool (max_connections : Z) : ConnectionPool :=
  {| max_connections := max_connections; _pool := [];
     _used_connections := ∅; _closed := false; factory_set := false |}.

Definition set_connection_factory (p : ConnectionPool) : ConnectionPool :=
  {| max_connections := max_connections p; _pool := _pool p;
     _used_connections := _used_connections p; _closed := _closed p;
     factory_set := true |}.

Inductive outcome :=
| Connection (c : nat)
| RuntimeError (msg : string)
| FactoryRaised.

(** [list.pop()]: the last element and the rest. *)
Definition list_pop (l : list nat) : option (nat * list nat) :=
  match reverse l with
  | [] => None
  | c :: r => Some (c, reverse r)
  end.

(** [acquire]; [fresh] is what awaiting the factory gives within the
    timeout, [None] when it raises or times out. *)
Definition acquire (fresh : option nat) (p : ConnectionPool)
  : outcome * ConnectionPool :=
  if _closed p then (RuntimeError "Connection pool is closed", p)
  else
    match list_pop (_pool p) with
    | Some (connection, rest) =>
        (Connection connection,
         {| max_connections := max_connections p; _pool := rest;
            _used_connections := _used_connections p ∪ {[connection]};
            _closed := _closed p; factory_set := factory_set p |})
    | None =>
        if Z.of_nat (size (_used_connections p)) <? max_connections p then
          if negb (factory_set p)
          then (RuntimeError "Connection factory not set", p)
          else
            match fresh with
            | None => (FactoryRaised, p)
            | Some connection =>
                (Connection connection,
                 {| max_connections := max_connections p; _pool := _pool p;
                    _used_connections := _used_connections p ∪ {[connection]};
                    _closed := _closed p; factory_set := factory_set p |})
            end
        else (RuntimeError "Connection pool exhausted", p)
    end.

(** [release]; closing an excess connection changes no field of the pool. *)
Definition release (connection : nat) (p : ConnectionPool) : ConnectionPool :=
  if decide (connection ∈ _used_connections p) then
    {| max_connections := max_connections p;
       _pool :=
         if negb (_closed p)
            && (Z.of_nat (length (_pool p)) <? max_connections p)
         then _pool p ++ [connection] else _pool p;
       _used_connections := _used_connections p ∖ {[connection]};
       _closed := _closed p; factory_set := factory_set p |}
  else p.

Definition close (p : ConnectionPool) : ConnectionPool :=
  {| max_connections := max_connections p; _pool := [];
     _used_connections := ∅; _closed := true; factory_set := factory_set p |}.

(** The calls a client of the pool can make. *)
Inductive call :=
| SetFactory
| Acquire (fresh : option nat)
| Release (connection : nat)
| Close.

Definition after_call (op : call) (p : ConnectionPool) : ConnectionPool :=
  match op with
  | SetFactory => set_connection_factory p
  | Acquire fresh => snd (acquire fresh p)
  | Release connection => release connection p
  | Close => close p
  end.

Definition after_calls (ops : list call) (p : ConnectionPool) : ConnectionPool :=
  foldl (λ p' op, after_call op p') p ops.

(** Connections idle in the pool, and connections handed out and not yet
    released. *)
Definition idle (p : ConnectionPool) : Z := Z.of_nat (length (_pool p)).
Definition in_use (p : ConnectionPool) : Z :=
  Z.of_nat (size (_used_connections p)).

(** The bound every call preserves. *)
Definition bounded (p : ConnectionPool) : Prop :=
  idle p + in_use p <= max_connections p.

(** Idle connections are listed once each and none of them is in use; the
    pool holds no more connections than its cap, and none at all when the
    cap is not positive. *)
Record tidy (p : ConnectionPool) : Prop := mkTidy {
  tidy_nodup : NoDup (_pool p);
  tidy_apart : forall c, c ∈ _pool p -> c ∉ _used_connections p;
  tidy_bound : idle p + in_use p <= Z.max 0 (max_connections p)
}.

End Pool.

(** ** performance_manager.py: [PerformanceManager.with_connection_pool] *)

Module PoolManager.

(** What the call gives its caller: what [operation(connection)] returned
    or raised, or the exception out of [pool.acquire()], raised before the
    operation is started. *)
Inductive outcome :=
| Ran (r : PerformanceManager.OperationResult)
| AcquireRuntimeError (msg : string)
| AcquireFactoryRaised.

(** [with_connection_pool(server_url, operation, **pool_kwargs)] on
    [self.connection_pools].  [max_connections] is the entry of that name in
    [pool_kwargs], if any; [fresh] is what the factory of the pool gives if
    it is awaited; [operation] does not use the pools itself.  The
    connection is released in the [finally] clause, whether the operation
    returned or raised. *)
Definition with_connection_pool (server_url : string)
    (max_connections : option Z) (fresh : option nat)
    (operation : nat -> PerformanceManager.OperationResult)
    (connection_pools : gmap string Pool.ConnectionPool)
  : outcome * gmap string Pool.ConnectionPool :=
  let pool :=
    match connection_pools !! server_url with
    | Some pool => pool
    | None =>
        Pool.new_pool
          (match max_connections with Some m => m | None => 10 end)
    end in
  match Pool.acquire fresh pool with
  | (Pool.Connection connection, pool1) =>
      (Ran (operation connection),
       <[server_url := Pool.release connection pool1]> connection_pools)
  | (Pool.RuntimeError msg, pool1) =>
      (AcquireRuntimeError msg, <[server_url := pool1]> connection_pools)
  | (Pool.FactoryRaised, pool1) =>
      (AcquireFactoryRaised, <[server_url := pool1]> connection_pools)
  end.

End PoolManager.


(** ** Python strings and insertion-ordered dicts *)

Module Py.

Definition is_ascii_digit (a : ascii) : bool :=
  let n := nat_of_ascii a in (48 <=? n)%nat && (n <=? 57)%nat.

Fixpoint all_digits (s : string) : bool :=
  match s with
  | EmptyString => true
  | String a s' => is_ascii_digit a && all_digits s'
  end.

(** [str.isdigit()] on a string of ASCII characters. *)
Definition isdigit (s : string) : bool :=
  match s with
  | EmptyString => false
  | _ => all_digits s
  end.

Fixpoint int_of_digits (acc : Z) (s : string) : Z :=
  match s with
  | EmptyString => acc
  | String a s' => int_of_digits (10 * acc + (Z.of_nat (nat_of_ascii a) - 48)) s'
  end.

(** [int(s)] for a string of decimal digits. *)
Definition int_of_str (s : string) : Z := int_of_digits 0 s.

Definition lower_ascii (a : ascii) : ascii :=
  let n := nat_of_ascii a in
  if (65 <=? n)%nat && (n <=? 90)%nat then ascii_of_nat (n + 32) else a.

(** [str.lower()] on a string of ASCII characters. *)
Fixpoint lower (s : string) : string :=
  match s with
  | EmptyString => EmptyString
  | String a s' => String (lower_ascii a) (lower s')
  end.

(** [str(z)] for an int. *)
Definition str_of_int (z : Z) : string := NilZero.string_of_int (Z.to_int z).

(** [x in l] for a list of strings. *)
Definition str_in (x : string) (l : list string) : bool :=
  existsb (String.eqb x) l.

(** ["; ".join(l)] and the like. *)
Fixpoint join (sep : string) (l : list string) : string :=
  match l with
  | [] => ""
  | [x] => x
  | x :: rest => x +:+ sep +:+ join sep rest
  end.

(** A [dict] with string keys as the list of its items in insertion order. *)
Definition dict (V : Type) : Type := list (string * V).

Fixpoint dict_get {V} (k : string) (d : dict V) : option V :=
  match d with
  | [] => None
  | (k', v) :: rest => if String.eqb k k' then Some v else dict_get k rest
  end.

(** [k in d]. *)
Definition dict_mem {V} (k : string) (d : dict V) : bool :=
  match dict_get k d with Some _ => true | None => false end.

(** [d[k] = v]: a present key keeps its place, a new key goes last. *)
Fixpoint dict_set {V} (k : string) (v : V) (d : dict V) : dict V :=
  match d with
  | [] => [(k, v)]
  | (k', v') :: rest =>
      if String.eqb k k' then (k, v) :: rest else (k', v') :: dict_set k v rest
  end.

End Py.

(** The builtins whose text format is not spelled out here: [float(s)] on a
    string ([None] when it raises [ValueError]) and [str(x)] on a float. *)
Class Builtins := {
  float_of_str : string -> option Q;
  str_of_float : Q -> string
}.

(** [str(value)]. *)
Definition py_str `{Builtins} (v : PyVal) : string :=
  match v with
  | VNone => "None"
  | VBool true => "True"
  | VBool false => "False"
  | VInt z => Py.str_of_int z
  | VFloat q => str_of_float q
  | VStr s => s
  | VOther repr => repr
  end.


(** [list.sort(key=..., reverse=True)] followed by a read of the first
    element: a stable sort into descending order, so that of several greatest
    elements the one that came first stays first.  [lt a b] is [key a < key b]. *)
Module Sorting.

Fixpoint insert_desc {A} (lt : A -> A -> bool) (x : A) (l : list A) : list A :=
  match l with
  | [] => [x]
  | y :: rest => if lt x y then y :: insert_desc lt x rest else x :: y :: rest
  end.

Definition sort_desc {A} (lt : A -> A -> bool) (l : list A) : list A :=
  foldr (insert_desc lt) [] l.

End Sorting.

(** ** mcp_universal_client.py: [UniversalMCPClient] *)

Module MCPClient.

Inductive TransportType := HTTP | WEBSOCKET | SSE | STDIO | UNIX_SOCKET.

(** [str(transport)] inside an f-string. *)
Definition transport_str (t : TransportType) : string :=
  match t with
  | HTTP => "TransportType.HTTP"
  | WEBSOCKET => "TransportType.WEBSOCKET"
  | SSE => "TransportType.SSE"
  | STDIO => "TransportType.STDIO"
  | UNIX_SOCKET => "TransportType.UNIX_SOCKET"
  end.

Definition is_http (t : TransportType) : bool :=
  match t with HTTP => true | _ => false end.

(** [headers] and [auth_token] are not read by the methods below. *)
Record MCPServerConfig := mkServer {
  name : string;
  url : string;
  transport : TransportType;
  priority : Z;
  timeout : Z;
  retry_count : Z;
  enabled : bool
}.

(** One value of [StandardizedSchema.parameters]: [type_] is
    [param_def.get("type")]. *)
Record ParamDef := mkParamDef {
  type_ : option string;
  param_description : option string
}.

Record StandardizedSchema := mkSchema {
  schema_name : string;
  description : string;
  parameters : Py.dict ParamDef;
  required : list string;
  returns : option string
}.

(** [raw_response] is left out. *)
Record NormalizedResponse := mkResponse {
  success : bool;
  data : PyVal;
  error : option string;
  tool_name : string;
  execution_time_ms : Z;
  server_name : string
}.

Record ServerCapabilities := mkCaps {
  caps_server_name : string;
  version : string;
  transport_types : list TransportType;
  tools : list StandardizedSchema;
  metadata : PyVal
}.

(** [ServerCapabilities(server_name=...)]. *)
Definition empty_capabilities (server_name : string) : ServerCapabilities :=
  {| caps_server_name := server_name; version := "unknown";
     transport_types := []; tools := []; metadata := VNone |}.

Record ValidationResult := mkValidation {
  valid : bool;
  errors : list string;
  converted_params : Py.dict PyVal
}.

(** [error_log] is not a field of the class: it lists, latest first, the
    servers for which [logger.error] reported a failed discovery. *)
Record UniversalMCPClient := mkClient {
  servers : list MCPServerConfig;
  capabilities : Py.dict ServerCapabilities;
  _tools_cache : Py.dict StandardizedSchema;
  _server_health : gmap string bool;
  error_log : list string
}.

(** *** Parameter validation *)

Inductive conversion :=
| Converted (v : PyVal)
| ValueError (msg : string)
| OverflowError.

(** [float(value)], which raises [ValueError], [TypeError] or, for an int
    beyond the range of a double, [OverflowError]. *)
Inductive float_result :=
| FloatOk (q : Q)
| FloatValueError
| FloatTypeError
| FloatOverflowError.

Definition py_float `{Builtins} (v : PyVal) : float_result :=
  match v with
  | VNone | VOther _ => FloatTypeError
  | VBool b => FloatOk (if b then 1 else 0)
  | VInt z => if Z.abs z <? 2 ^ 1024 then FloatOk (inject_Z z)
              else FloatOverflowError
  | VFloat q => FloatOk q
  | VStr s => match float_of_str s with
              | Some q => FloatOk q
              | None => FloatValueError
              end
  end.

Definition cannot_convert `{Builtins} (v : PyVal) (target : string) : string :=
  "Cannot convert '" +:+ py_str v +:+ "' to " +:+ target.

(** [_convert_parameter_type].  A [bool] is an [int] for [isinstance]; in
    the ["boolean"] branch a value that is neither [bool] nor [str] leaves
    the [if] chain, and the method returns [None]. *)
Definition _convert_parameter_type `{Builtins} (v : PyVal)
    (expected_type : string) : conversion :=
  if String.eqb expected_type "integer" then
    match v with
    | VInt _ | VBool _ => Converted v
    | VStr s => if Py.isdigit s then Converted (VInt (Py.int_of_str s))
                else ValueError (cannot_convert v "integer")
    | _ => ValueError (cannot_convert v "integer")
    end
  else if String.eqb expected_type "boolean" then
    match v with
    | VBool _ => Converted v
    | VStr s =>
        if Py.str_in (Py.lower s) ["true"; "yes"; "1"] then Converted (VBool true)
        else if Py.str_in (Py.lower s) ["false"; "no"; "0"]
        then Converted (VBool false)
        else ValueError (cannot_convert v "boolean")
    | _ => Converted VNone
    end
  else if String.eqb expected_type "number" then
    match py_float v with
    | FloatOk q => Converted (VFloat q)
    | FloatValueError | FloatTypeError => ValueError (cannot_convert v "number")
    | FloatOverflowError => OverflowError
    end
  else Converted (VStr (py_str v)).

Definition tool_key (server_name tool_name : string) : string :=
  server_name +:+ ":" +:+ tool_name.

(** [_find_tool_schema]; an empty [server_name] is falsy, as [None] is. *)
Definition _find_tool_schema (tool_name : string) (server_name : option string)
    (client : UniversalMCPClient) : option StandardizedSchema :=
  let search :=
    snd <$> List.find (λ kv, String.eqb (schema_name (snd kv)) tool_name)
                      (_tools_cache client) in
  match server_name with
  | Some s => if String.eqb s "" then search
              else Py.dict_get (tool_key s tool_name) (_tools_cache client)
  | None => search
  end.

(** The first loop of [validate_parameters]. *)
Definition missing_required (required : list string) (params : Py.dict PyVal)
  : list string :=
  (λ required_param, "Required parameter '" +:+ required_param +:+ "' is missing")
    <$> List.filter (λ required_param, negb (Py.dict_mem required_param params))
                    required.

(** The second loop of [validate_parameters] over the items still to visit;
    [None] when a conversion raises an exception the loop does not catch. *)
Fixpoint convert_all `{Builtins} (parameters : Py.dict ParamDef)
    (todo : Py.dict PyVal) (errors : list string)
    (converted_params : Py.dict PyVal)
  : option (list string * Py.dict PyVal) :=
  match todo with
  | [] => Some (errors, converted_params)
  | (param_name, param_value) :: rest =>
      match Py.dict_get param_name parameters with
      | Some param_def =>
          let param_type :=
            match type_ param_def with Some t => t | None => "string" end in
          match _convert_parameter_type param_value param_type with
          | Converted converted_value =>
              convert_all parameters rest errors
                (Py.dict_set param_name converted_value converted_params)
          | ValueError e =>
              convert_all parameters rest
                (errors ++ ["Parameter '" +:+ param_name +:+ "': " +:+ e])
                converted_params
          | OverflowError => None
          end
      | None =>
          convert_all parameters rest errors
            (Py.dict_set param_name param_value converted_params)
      end
  end.

(** [validate_parameters]; [None] when it raises. *)
Definition validate_parameters `{Builtins} (tool_name : string)
    (params : Py.dict PyVal) (server_name : option string)
    (client : UniversalMCPClient) : option ValidationResult :=
  match _find_tool_schema tool_name server_name client with
  | None => Some {| valid := false;
                    errors := ["Tool '" +:+ tool_name +:+ "' not found"];
                    converted_params := [] |}
  | Some tool_schema =>
      match convert_all (parameters tool_schema) params
              (missing_required (required tool_schema) params) [] with
      | Some (errors, converted_params) =>
          Some {| valid := (length errors =? 0)%nat; errors := errors;
                  converted_params := converted_params |}
      | None => None
      end
  end.

(** *** Execution *)

(** What one call over the transport gives: the content of a tool result,
    flagged as an error or not, or an exception. *)
Inductive wire :=
| ToolResult (isError : bool) (content : PyVal)
| WireRaises (e : string).

(** What discovery reads from a server. *)
Record ServerInfo := mkInfo {
  info_version : option string;
  info_metadata : PyVal
}.

Record RawSchema := mkRawSchema {
  properties : option (Py.dict ParamDef);
  raw_required : option (list string);
  raw_returns : option string
}.

(** The shapes [normalize_tool_schema] tells apart: an object with a [name]
    attribute, a dict, anything else. *)
Inductive RawTool :=
| ToolObject (name : string) (description : option string)
             (inputSchema : option RawSchema)
| ToolDict (name description : option string)
           (parameters : option (Py.dict ParamDef))
           (required : option (list string)) (returns : option string)
| ToolUnknown.

Inductive listing :=
| Listed (server_info : option ServerInfo) (tools : list RawTool)
| Unreachable (e : string).

(** The world outside the client: the clock, [asyncio.sleep], one tool call
    on a server, one listing of a server. *)
Class Env (W : Type) := {
  time : W -> Q;
  sleep : Q -> W -> W;
  call_tool : MCPServerConfig -> string -> Py.dict PyVal -> W -> wire * W;
  list_tools : MCPServerConfig -> W -> listing * W
}.

Definition server_usable (tool_name : string) (client : UniversalMCPClient)
    (server : MCPServerConfig) : bool :=
  enabled server
  && match _server_health client !! name server with
     | Some h => h
     | None => false
     end
  && Py.dict_mem (tool_key (name server) tool_name) (_tools_cache client).

(** [_select_server_for_tool]. *)
Definition _select_server_for_tool (tool_name : string)
    (preferred_server : option string) (client : UniversalMCPClient)
  : option MCPServerConfig :=
  let by_priority :=
    head (Sorting.sort_desc (λ a b, priority a <? priority b)
            (List.filter (server_usable tool_name client) (servers client))) in
  match preferred_server with
  | Some p =>
      if String.eqb p "" then by_priority
      else
        match List.find (λ server, String.eqb (name server) p
                                   && server_usable tool_name client server)
                        (servers client) with
        | Some server => Some server
        | None => by_priority
        end
  | None => by_priority
  end.

Definition failure (e tool server : string) (ms : Z) : NormalizedResponse :=
  {| success := false; data := VNone; error := Some e; tool_name := tool;
     execution_time_ms := ms; server_name := server |}.

(** [int(x)] on a float: rounding towards zero. *)
Definition int_of_float (x : Q) : Z := Z.quot (Qnum x) (Z.pos (Qden x)).

(** [int((time.time() - start_time) * 1000)]. *)
Definition elapsed_ms `{Env W} (start_time : Q) (w : W) : Z :=
  int_of_float ((time w - start_time) * 1000).

(** [_execute_tool_on_server] with [_execute_http_tool]. *)
Definition _execute_tool_on_server `{Builtins} `{Env W} (tool_name : string)
    (params : Py.dict PyVal) (server : MCPServerConfig) (w : W)
  : (NormalizedResponse + string) * W :=
  if is_http (transport server) then
    match call_tool server tool_name params w with
    | (ToolResult true content, w') =>
        (inl (failure ("Tool execution error: " +:+ py_str content)
                tool_name "" 0), w')
    | (ToolResult false content, w') =>
        (inl {| success := true; data := content; error := None;
                tool_name := tool_name; execution_time_ms := 0;
                server_name := "" |}, w')
    | (WireRaises e, w') => (inr e, w')
    end
  else
    (inr ("Transport " +:+ transport_str (transport server)
          +:+ " not yet supported"), w).

(** [response.execution_time_ms = ...; response.server_name = ...]. *)
Definition stamp (response : NormalizedResponse) (ms : Z) (server : string)
  : NormalizedResponse :=
  {| success := success response; data := data response;
     error := error response; tool_name := tool_name response;
     execution_time_ms := ms; server_name := server |}.

(** The [for attempt in range(retry_count)] loop, from [attempt] on with
    [remaining] rounds to go. *)
Fixpoint retry_loop `{Builtins} `{Env W} (remaining : nat) (attempt : Z)
    (last_error : option string) (start_time : Q) (tool_name : string)
    (converted_params : Py.dict PyVal) (target_server : MCPServerConfig)
    (w : W) : NormalizedResponse * W :=
  match remaining with
  | O =>
      (failure ("Tool execution failed after "
                +:+ Py.str_of_int (retry_count target_server) +:+ " attempts: "
                +:+ match last_error with Some e => e | None => "None" end)
         tool_name (name target_server) (elapsed_ms start_time w), w)
  | S remaining' =>
      match _execute_tool_on_server tool_name converted_params target_server w with
      | (inl response, w') =>
          (stamp response (elapsed_ms start_time w') (name target_server), w')
      | (inr e, w') =>
          let w'' := if attempt <? retry_count target_server - 1
                     then sleep (inject_Z (2 ^ attempt)) w' else w' in
          retry_loop remaining' (attempt + 1) (Some e) start_time tool_name
            converted_params target_server w''
      end
  end.

(** [execute_tool_with_retry]; [None] when validation raises. *)
Definition execute_tool_with_retry `{Builtins} `{Env W} (tool_name : string)
    (params : Py.dict PyVal) (server_name : option string)
    (client : UniversalMCPClient) (w : W)
  : option NormalizedResponse * W :=
  let start_time := time w in
  match _select_server_for_tool tool_name server_name client with
  | None =>
      (Some (failure ("No server available for tool '" +:+ tool_name +:+ "'")
               tool_name "" 0), w)
  | Some target_server =>
      match validate_parameters tool_name params (Some (name target_server))
              client with
      | None => (None, w)
      | Some validation =>
          if negb (valid validation) then
            (Some (failure ("Parameter validation failed: "
                            +:+ Py.join "; " (errors validation))
                     tool_name (name target_server) 0), w)
          else
            let (response, w') :=
              retry_loop (Z.to_nat (retry_count target_server)) 0 None
                start_time tool_name (converted_params validation)
                target_server w in
            (Some response, w')
      end
  end.

(** *** Discovery *)

Definition or_default {A} (o : option A) (d : A) : A :=
  match o with Some a => a | None => d end.

(** [normalize_tool_schema]. *)
Definition normalize_tool_schema (raw_tool : RawTool) : StandardizedSchema :=
  match raw_tool with
  | ToolObject name description inputSchema =>
      {| schema_name := name;
         description := or_default description "";
         parameters := match inputSchema with
                       | Some s => or_default (properties s) []
                       | None => []
                       end;
         required := match inputSchema with
                     | Some s => or_default (raw_required s) []
                     | None => []
                     end;
         returns := match inputSchema with
                    | Some s => raw_returns s
                    | None => None
                    end |}
  | ToolDict name description parameters required returns =>
      {| schema_name := or_default name "";
         description := or_default description "";
         parameters := or_default parameters [];
         required := or_default required [];
         returns := returns |}
  | ToolUnknown =>
      {| schema_name := "unknown"; description := ""; parameters := [];
         required := []; returns := None |}
  end.

(** The loop of [_discover_http_capabilities] over the listed tools: each
    is normalised, appended and cached under [tool.name]; a tool without a
    [name] attribute raises, which is [inr] with the cache as written so far. *)
Fixpoint collect_tools (server_name : string) (listed : list RawTool)
    (tools : list StandardizedSchema) (tools_cache : Py.dict StandardizedSchema)
  : (list StandardizedSchema * Py.dict StandardizedSchema)
    + Py.dict StandardizedSchema :=
  match listed with
  | [] => inl (tools, tools_cache)
  | tool :: rest =>
      let schema := normalize_tool_schema tool in
      match tool with
      | ToolObject name _ _ =>
          collect_tools server_name rest (tools ++ [schema])
            (Py.dict_set (tool_key server_name name) schema tools_cache)
      | _ => inr tools_cache
      end
  end.

Definition record_capabilities (server_name : string)
    (capabilities : ServerCapabilities) (tools_cache : Py.dict StandardizedSchema)
    (client : UniversalMCPClient) : UniversalMCPClient :=
  {| servers := servers client;
     capabilities := Py.dict_set server_name capabilities (MCPClient.capabilities client);
     _tools_cache := tools_cache;
     _server_health := <[server_name := true]> (_server_health client);
     error_log := error_log client |}.

(** [discover_server_capabilities]: what it returns, the client and the
    world afterwards. *)
Definition discover_server_capabilities `{Env W} (server : MCPServerConfig)
    (client : UniversalMCPClient) (w : W)
  : ServerCapabilities * UniversalMCPClient * W :=
  let failed (tools_cache : Py.dict StandardizedSchema) (w' : W) :=
    (empty_capabilities (name server),
     {| servers := servers client; capabilities := capabilities client;
        _tools_cache := tools_cache;
        _server_health := <[name server := false]> (_server_health client);
        error_log := name server :: error_log client |}, w') in
  if is_http (transport server) then
    match list_tools server w with
    | (Unreachable _, w') => failed (_tools_cache client) w'
    | (Listed server_info listed, w') =>
        match collect_tools (name server) listed [] (_tools_cache client) with
        | inr tools_cache => failed tools_cache w'
        | inl (tools, tools_cache) =>
            let capabilities :=
              {| caps_server_name := name server;
                 version := match server_info with
                            | Some i => or_default (info_version i) "unknown"
                            | None => "unknown"
                            end;
                 transport_types := [HTTP];
                 tools := tools;
                 metadata := match server_info with
                             | Some i => info_metadata i
                             | None => VNone
                             end |} in
            (capabilities,
             record_capabilities (name server) capabilities tools_cache client,
             w')
        end
    end
  else (empty_capabilities (name server), client, w).

(** [discover_all_servers]: the tasks of the enabled servers, each run to
    its end in the order [servers] lists them; the result is
    [self.capabilities]. *)
Fixpoint discover_each `{Env W} (todo : list MCPServerConfig)
    (client : UniversalMCPClient) (w : W) : UniversalMCPClient * W :=
  match todo with
  | [] => (client, w)
  | server :: rest =>
      let '(_, client', w') := discover_server_capabilities server client w in
      discover_each rest client' w'
  end.

Definition discover_all_servers `{Env W} (client : UniversalMCPClient) (w : W)
  : Py.dict ServerCapabilities * UniversalMCPClient * W :=
  let (client', w') :=
    discover_each (List.filter enabled (servers client)) client w in
  (capabilities client', client', w').

(** [hasattr(tool, 'name')]. *)
Definition has_name (tool : RawTool) : bool :=
  match tool with ToolObject _ _ _ => true | _ => false end.

(** The capabilities recorded for a server that answered with [server_info]
    and [listed]. *)
Definition discovered (server : MCPServerConfig) (server_info : option ServerInfo)
    (listed : list RawTool) : ServerCapabilities :=
  {| caps_server_name := name server;
     version := match server_info with
                | Some i => or_default (info_version i) "unknown"
                | None => "unknown"
                end;
     transport_types := [HTTP];
     tools := normalize_tool_schema <$> listed;
     metadata := match server_info with
                 | Some i => info_metadata i
                 | None => VNone
                 end |}.

(** A server that lists its tools, however the world stands. *)
Definition reachable `{Env W} (server : MCPServerConfig) (server_info : option ServerInfo)
    (listed : list RawTool) : Prop :=
  transport server = HTTP
  /\ forallb has_name listed = true
  /\ forall w : W, fst (list_tools server w) = Listed server_info listed.



(** An entry of a parameter dict that validation leaves as it is: the
    schema does not declare it, or its value is converted to itself. *)
Definition settled `{Builtins} (parameters : Py.dict ParamDef)
    (entry : string * PyVal) : Prop :=
  match Py.dict_get (fst entry) parameters with
  | Some param_def =>
      _convert_parameter_type (snd entry)
        (match type_ param_def with Some t => t | None => "string" end)
      = Converted (snd entry)
  | None => True
  end.

(** *** Listing the tools, and the health check *)

(** [get_available_tools]; an empty [server_name] is falsy, as [None] is. *)
Definition get_available_tools (server_name : option string)
    (client : UniversalMCPClient) : list StandardizedSchema :=
  let all_tools := flat_map (λ kv, tools (snd kv)) (capabilities client) in
  match server_name with
  | Some s =>
      if String.eqb s "" then all_tools
      else match Py.dict_get s (capabilities client) with
           | Some server_capabilities => tools server_capabilities
           | None => []
           end
  | None => all_tools
  end.

(** The [GET] that [health_check] sends to the scheme and host of
    [server.url], with a timeout of five seconds: the status code of the
    answer, or [None] when the request raises. *)
Class Probe (W : Type) := {
  http_get : MCPServerConfig -> W -> option Z * W
}.

(** The loop of [health_check] over the servers; [health_results] is a
    plain dict, so of two servers of one name the later one decides. *)
Fixpoint check_each `{Probe W} (todo : list MCPServerConfig)
    (health_results : gmap string bool) (w : W) : gmap string bool * W :=
  match todo with
  | [] => (health_results, w)
  | server :: rest =>
      if is_http (transport server) then
        let (status, w') := http_get server w in
        check_each rest
          (<[name server :=
               match status with
               | Some status_code => (status_code =? 200) || (status_code =? 404)
               | None => false
               end]> health_results) w'
      else
        check_each rest (<[name server := enabled server]> health_results) w
  end.

(** [health_check]: the results replace [_server_health]. *)
Definition health_check `{Probe W} (client : UniversalMCPClient) (w : W)
  : gmap string bool * UniversalMCPClient * W :=
  let (health_results, w') := check_each (servers client) ∅ w in
  (health_results,
   {| servers := servers client; capabilities := capabilities client;
      _tools_cache := _tools_cache client;
      _server_health := health_results; error_log := error_log client |},
   w').

(** *** The calls a run makes *)

(** What a run asks of the world outside. *)
Inductive event :=
| Called (server tool : string) (params : Py.dict PyVal)
| Slept (seconds : Q)
| AskedTools (server : string).

(** A world together with the record of what was asked of it, latest
    first. *)
Definition traced `(E : Env W) : Env (W * list event) :=
  {| time := λ s, time (fst s);
     sleep := λ d s, (sleep d (fst s), Slept d :: snd s);
     call_tool := λ server tool params s,
       let (r, w') := call_tool server tool params (fst s) in
       (r, (w', Called (name server) tool params :: snd s));
     list_tools := λ server s,
       let (r, w') := list_tools server (fst s) in
       (r, (w', AskedTools (name server) :: snd s)) |}.

(** [calls] attempts in a row from attempt number [attempt] on, earliest
    first: a sleep of [2 ** attempt] seconds stands between one call and the
    next, and none follows the last call. *)
Fixpoint attempts (server tool : string) (params : Py.dict PyVal)
    (attempt : Z) (calls : nat) : list event :=
  match calls with
  | O => []
  | S calls' =>
      Called server tool params
      :: match calls' with
         | O => []
         | S _ => Slept (inject_Z (2 ^ attempt))
                  :: attempts server tool params (attempt + 1) calls'
         end
  end.

End MCPClient.

(** ** tool_registry.py: [ToolRegistry] *)

Module Registry.

(** The category and description of a mapping are not read by the methods
    below. *)
Record ToolMapping := mkMapping {
  intent : string;
  primary_tools : list string;
  fallback_tools : list string;
  required_params : list string;
  optional_params : list string
}.

Record ToolPerformance := mkPerformance {
  tool_name : string;
  server_name : string;
  success_count : Z;
  failure_count : Z;
  avg_response_time_ms : Q;
  last_used : Q;
  last_success : Q;
  last_failure : Q;
  error_patterns : list string
}.

(** [ToolPerformance(tool_name=..., server_name=...)]. *)
Definition new_performance (tool server : string) : ToolPerformance :=
  {| tool_name := tool; server_name := server; success_count := 0;
     failure_count := 0; avg_response_time_ms := 0; last_used := 0;
     last_success := 0; last_failure := 0; error_patterns := [] |}.

Record FallbackChain := mkChain {
  primary_tool : string;
  fallbacks : list string;
  max_fallback_attempts : Z
}.

(** [server_tools] keeps the order in which discovery met the servers. *)
Record ToolRegistry := mkRegistry {
  mcp_client : MCPClient.UniversalMCPClient;
  tool_mappings : gmap string ToolMapping;
  performance_metrics : gmap string ToolPerformance;
  server_tools : Py.dict (gset string);
  fallback_chains : gmap string FallbackChain
}.

(** One entry of [candidate_servers]. *)
Record Candidate := mkCandidate {
  cand_server_name : string;
  cand_tool_name : string;
  score : Q;
  cand_last_success : Q
}.

Definition success_rate (performance : ToolPerformance) : Q :=
  if 0 <? success_count performance + failure_count performance
  then inject_Z (success_count performance)
       / inject_Z (success_count performance + failure_count performance)
  else 0.5.

Definition score_of (performance : ToolPerformance) : Q :=
  success_rate performance * 0.7
  + (1000 / Qmax (avg_response_time_ms performance) 1) * 0.3.

(** The sort key [(x['score'], x['last_success'])], compared as tuples. *)
Definition key_lt (a b : Candidate) : bool :=
  Qltb (score a) (score b)
  || (Qeq_bool (score a) (score b)
      && Qltb (cand_last_success a) (cand_last_success b)).

Definition candidate_servers (tool : string) (reg : ToolRegistry)
  : list Candidate :=
  omap (λ entry : string * gset string,
          let (server, tools) := entry in
          if decide (tool ∈ tools) then
            match performance_metrics reg !! MCPClient.tool_key server tool with
            | Some performance =>
                Some {| cand_server_name := server; cand_tool_name := tool;
                        score := score_of performance;
                        cand_last_success := last_success performance |}
            | None => None
            end
          else None)
       (server_tools reg).

(** [_find_best_server_for_tool]; [context] is not read. *)
Definition _find_best_server_for_tool (tool : string) (reg : ToolRegistry)
  : option (string * string) :=
  match Sorting.sort_desc key_lt (candidate_servers tool reg) with
  | [] => None
  | best_candidate :: _ =>
      Some (cand_tool_name best_candidate, cand_server_name best_candidate)
  end.

(** The first tool of the list that some server offers. *)
Fixpoint first_available (tools : list string) (reg : ToolRegistry)
  : option (string * string) :=
  match tools with
  | [] => None
  | tool :: rest =>
      match _find_best_server_for_tool tool reg with
      | Some result => Some result
      | None => first_available rest reg
      end
  end.

(** [select_optimal_tool]. *)
Definition select_optimal_tool (intent : string) (reg : ToolRegistry)
  : option (string * string) :=
  match tool_mappings reg !! intent with
  | None => None
  | Some mapping =>
      match first_available (primary_tools mapping) reg with
      | Some result => Some result
      | None => first_available (fallback_tools mapping) reg
      end
  end.

Definition with_performance (perf_key : string) (performance : ToolPerformance)
    (reg : ToolRegistry) : ToolRegistry :=
  {| mcp_client := mcp_client reg; tool_mappings := tool_mappings reg;
     performance_metrics := <[perf_key := performance]> (performance_metrics reg);
     server_tools := server_tools reg;
     fallback_chains := fallback_chains reg |}.

(** The update after a response with [success] set; [now] is the instant
    after the call, [execution_time] its duration in milliseconds. *)
Definition record_success (now execution_time : Q) (p : ToolPerformance)
  : ToolPerformance :=
  let total_calls := success_count p + 1 + failure_count p in
  {| tool_name := tool_name p; server_name := server_name p;
     success_count := success_count p + 1;
     failure_count := failure_count p;
     avg_response_time_ms :=
       (avg_response_time_ms p * inject_Z (total_calls - 1) + execution_time)
       / inject_Z total_calls;
     last_used := now; last_success := now; last_failure := last_failure p;
     error_patterns := error_patterns p |}.

(** The update after a response without [success], whose [error] is [e]. *)
Definition record_failure (now : Q) (e : option string) (p : ToolPerformance)
  : ToolPerformance :=
  {| tool_name := tool_name p; server_name := server_name p;
     success_count := success_count p;
     failure_count := failure_count p + 1;
     avg_response_time_ms := avg_response_time_ms p;
     last_used := now; last_success := last_success p; last_failure := now;
     error_patterns :=
       match e with
       | Some err =>
           if negb (String.eqb err "")
              && (length (error_patterns p) <? 10)%nat
              && negb (Py.str_in err (error_patterns p))
           then error_patterns p ++ [substring 0 100 err]
           else error_patterns p
       | None => error_patterns p
       end |}.

(** The update in the [except] branch. *)
Definition record_exception (now : Q) (p : ToolPerformance) : ToolPerformance :=
  {| tool_name := tool_name p; server_name := server_name p;
     success_count := success_count p;
     failure_count := failure_count p + 1;
     avg_response_time_ms := avg_response_time_ms p;
     last_used := now; last_success := last_success p; last_failure := now;
     error_patterns := error_patterns p |}.

(** [_execute_tool_with_tracking]. *)
Definition _execute_tool_with_tracking `{Builtins} `{MCPClient.Env W}
    (tool : string) (params : Py.dict PyVal) (server : string)
    (reg : ToolRegistry) (w : W)
  : MCPClient.NormalizedResponse * ToolRegistry * W :=
  let perf_key := MCPClient.tool_key server tool in
  let performance :=
    match performance_metrics reg !! perf_key with
    | Some p => p
    | None => new_performance tool server
    end in
  let start_time := MCPClient.time w in
  match MCPClient.execute_tool_with_retry tool params (Some server)
          (mcp_client reg) w with
  | (Some response, w') =>
      let now := MCPClient.time w' in
      let execution_time := ((now - start_time) * 1000)%Q in
      (response,
       with_performance perf_key
         (if MCPClient.success response
          then record_success now execution_time performance
          else record_failure now (MCPClient.error response) performance)
         reg, w')
  | (None, w') =>
      (MCPClient.failure
         "Tool execution failed: int too large to convert to float"
         tool server 0,
       with_performance perf_key
         (record_exception (MCPClient.time w') performance) reg, w')
  end.

(** The loop of [execute_with_fallback] over the fallbacks of the chain:
    [Some] is the [return fallback_response] out of the loop. *)
Fixpoint try_fallbacks `{Builtins} `{MCPClient.Env W} (todo : list string)
    (params : Py.dict PyVal) (reg : ToolRegistry) (w : W)
  : option MCPClient.NormalizedResponse * ToolRegistry * W :=
  match todo with
  | [] => (None, reg, w)
  | fallback_tool :: rest =>
      match _find_best_server_for_tool fallback_tool reg with
      | Some (fallback_tool_name, fallback_server) =>
          let '(fallback_response, reg', w') :=
            _execute_tool_with_tracking fallback_tool_name params
              fallback_server reg w in
          if MCPClient.success fallback_response
          then (Some fallback_response, reg', w')
          else try_fallbacks rest params reg' w'
      | None => try_fallbacks rest params reg w
      end
  end.

(** [execute_with_fallback]. *)
Definition execute_with_fallback `{Builtins} `{MCPClient.Env W}
    (intent : string) (params : Py.dict PyVal) (reg : ToolRegistry) (w : W)
  : MCPClient.NormalizedResponse * ToolRegistry * W :=
  match select_optimal_tool intent reg with
  | None =>
      ({| MCPClient.success := false; MCPClient.data := VNone;
          MCPClient.error := Some ("No available tool for intent: " +:+ intent);
          MCPClient.tool_name := ""; MCPClient.execution_time_ms := 0;
          MCPClient.server_name := "" |}, reg, w)
  | Some (tool, server) =>
      let '(response, reg1, w1) :=
        _execute_tool_with_tracking tool params server reg w in
      match fallback_chains reg1 !! tool with
      | Some chain =>
          if negb (MCPClient.success response) then
            match try_fallbacks (fallbacks chain) params reg1 w1 with
            | (Some fallback_response, reg2, w2) => (fallback_response, reg2, w2)
            | (None, reg2, w2) => (response, reg2, w2)
            end
          else (response, reg1, w1)
      | None => (response, reg1, w1)
      end
  end.

(** The entry [_execute_tool_with_tracking] works on: the one stored under
    the key, or a new one. *)
Definition performance_of (tool server : string) (reg : ToolRegistry)
  : ToolPerformance :=
  match performance_metrics reg !! MCPClient.tool_key server tool with
  | Some p => p
  | None => new_performance tool server
  end.


(** [a] sorts before [b] or ties with it: its score is higher, or equal
    with a last success at least as recent. *)
Definition not_below (a b : Candidate) : Prop :=
  (score b < score a)%Q
  \/ ((score a == score b)%Q /\ (cand_last_success b <= cand_last_success a)%Q).

(** [a] sorts strictly before [b]. *)
Definition above (a b : Candidate) : Prop :=
  (score b < score a)%Q
  \/ ((score a == score b)%Q /\ (cand_last_success b < cand_last_success a)%Q).

(** What an execution may change of a registry: performance entries are
    added or updated, none is removed, and the counts of an entry do not go
    down. *)
Definition only_tracks (reg reg' : ToolRegistry) : Prop :=
  mcp_client reg' = mcp_client reg
  /\ tool_mappings reg' = tool_mappings reg
  /\ server_tools reg' = server_tools reg
  /\ fallback_chains reg' = fallback_chains reg
  /\ forall k p,
       performance_metrics reg !! k = Some p ->
       exists p',
         performance_metrics reg' !! k = Some p'
         /\ tool_name p' = tool_name p /\ server_name p' = server_name p
         /\ success_count p <= success_count p'
         /\ failure_count p <= failure_count p'.


End Registry.

(** ** Data for the scenarios: the cache *)

Module CacheData.
Import Cache.

(** A serialiser that charges every value ten bytes. *)
Definition ten_bytes : Serializer := {| payload_size := λ _, 10%N |}.

(** A serialiser that charges ten bytes, and two hundred megabytes for a
    value that is neither a number, a string nor [None]. *)
Definition blob_is_huge : Serializer :=
  {| payload_size := λ v,
       match v with
       | VOther _ => (200 * 1024 * 1024)%N
       | _ => 10%N
       end |}.

End CacheData.

(** ** Data for the scenarios: the client *)

Module ClientData.
Import MCPClient.

(** Builtins for the scenarios: no string spells a float. *)
Definition plain_builtins : Builtins :=
  {| float_of_str := λ _, None; str_of_float := λ _, "<float>" |}.

(** A world that records each call over the transport, latest first, and
    answers it with the text "ok"; its servers cannot be listed. *)
Definition recording : Env (list (string * string * Py.dict PyVal)) :=
  {| time := λ _, 0%Q;
     sleep := λ _ w, w;
     call_tool := λ server tool params w,
       (ToolResult false (VStr "ok"), (name server, tool, params) :: w);
     list_tools := λ _ w, (Unreachable "connection refused", w) |}.

Definition jenkins : MCPServerConfig :=
  {| name := "jenkins"; url := "http://localhost:8010/mcp"; transport := HTTP;
     priority := 1; timeout := 30; retry_count := 3; enabled := true |}.

(** The schema of a tool with an integer and a boolean parameter. *)
Definition trigger_build_schema : StandardizedSchema :=
  {| schema_name := "trigger_build"; description := "Start a build";
     parameters :=
       [("build_number", {| type_ := Some "integer"; param_description := None |});
        ("wait", {| type_ := Some "boolean"; param_description := None |})];
     required := ["build_number"]; returns := None |}.

Definition one_server : UniversalMCPClient :=
  {| servers := [jenkins]; capabilities := [];
     _tools_cache := [("jenkins:trigger_build", trigger_build_schema)];
     _server_health := {["jenkins" := true]}; error_log := [] |}.

Definition server_a : MCPServerConfig :=
  {| name := "A"; url := "http://a:8010/mcp"; transport := HTTP;
     priority := 1; timeout := 30; retry_count := 3; enabled := true |}.

Definition server_b : MCPServerConfig :=
  {| name := "B"; url := "http://b:8010/mcp"; transport := HTTP;
     priority := 1; timeout := 30; retry_count := 3; enabled := true |}.

Definition tools_of_a : list RawTool :=
  [ToolObject "list_jobs" (Some "List the jobs") None;
   ToolObject "get_job_info" None
     (Some {| properties :=
                Some [("job_name", {| type_ := Some "string";
                                      param_description := None |})];
              raw_required := Some ["job_name"]; raw_returns := None |})].

(** A world in which [A] lists two tools and every other server refuses
    the connection. *)
Definition only_a_answers : Env unit :=
  {| time := λ _, 0%Q;
     sleep := λ _ w, w;
     call_tool := λ _ _ _ w, (WireRaises "connection refused", w);
     list_tools := λ server w,
       if String.eqb (name server) "A" then (Listed None tools_of_a, w)
       else (Unreachable "connection refused", w) |}.

(** A client that knew a tool of [B] from an earlier discovery. *)
Definition two_servers : UniversalMCPClient :=
  {| servers := [server_b; server_a];
     capabilities :=
       [("B", {| caps_server_name := "B"; version := "1.0";
                 transport_types := [HTTP];
                 tools := [normalize_tool_schema
                             (ToolObject "list_jobs" None None)];
                 metadata := VNone |})];
     _tools_cache := []; _server_health := ∅; error_log := [] |}.


(** A client that cached [delete_job] of [A] at an earlier discovery. *)
Definition knew_delete_job : UniversalMCPClient :=
  {| servers := [server_a]; capabilities := [];
     _tools_cache :=
       [("A:delete_job", normalize_tool_schema
                           (ToolObject "delete_job" None None))];
     _server_health := ∅; error_log := [] |}.

End ClientData.

(** ** Data for the scenarios: the registry *)

Module RegistryData.
Import Registry ClientData.

(** A client whose server [B] is disabled and marked unhealthy. *)
Definition b_is_down : MCPClient.UniversalMCPClient :=
  {| MCPClient.servers :=
       [server_a;
        {| MCPClient.name := "B"; MCPClient.url := "http://b:8010/mcp";
           MCPClient.transport := MCPClient.HTTP; MCPClient.priority := 1;
           MCPClient.timeout := 30; MCPClient.retry_count := 3;
           MCPClient.enabled := false |}];
     MCPClient.capabilities := []; MCPClient._tools_cache := [];
     MCPClient._server_health := {["A" := true; "B" := false]};
     MCPClient.error_log := ["B"] |}.

(** A registry that met [list_jobs] on [A] and on [B]; [B] has answered
    faster. *)
Definition two_candidates : ToolRegistry :=
  {| mcp_client := b_is_down; tool_mappings := ∅;
     performance_metrics :=
       {["A:list_jobs" :=
           {| tool_name := "list_jobs"; server_name := "A"; success_count := 9;
              failure_count := 1; avg_response_time_ms := 800; last_used := 50;
              last_success := 50; last_failure := 20; error_patterns := [] |};
         "B:list_jobs" :=
           {| tool_name := "list_jobs"; server_name := "B"; success_count := 9;
              failure_count := 1; avg_response_time_ms := 400; last_used := 40;
              last_success := 30; last_failure := 40; error_patterns := [] |}]};
     server_tools := [("A", {["list_jobs"]}); ("B", {["list_jobs"]})];
     fallback_chains := ∅ |}.

(** The entry of a server whose five calls all failed, and the entry of a
    server that answered each of a hundred calls, in five milliseconds on
    average. *)
Definition only_failed : ToolPerformance :=
  {| tool_name := "list_jobs"; server_name := "A"; success_count := 0;
     failure_count := 5; avg_response_time_ms := 0; last_used := 50;
     last_success := 0; last_failure := 50; error_patterns := [] |}.

Definition always_answered : ToolPerformance :=
  {| tool_name := "list_jobs"; server_name := "B"; success_count := 100;
     failure_count := 0; avg_response_time_ms := 5; last_used := 60;
     last_success := 60; last_failure := 0; error_patterns := [] |}.

(** A registry that met [list_jobs] on [A], with the first entry, and on
    [B], with the second. *)
Definition failing_and_proven : ToolRegistry :=
  {| mcp_client := b_is_down; tool_mappings := ∅;
     performance_metrics :=
       {["A:list_jobs" := only_failed; "B:list_jobs" := always_answered]};
     server_tools := [("A", {["list_jobs"]}); ("B", {["list_jobs"]})];
     fallback_chains := ∅ |}.

(** A world whose clock is its state.  Every call takes one second;
    [get_jobs] fails before instant 1 and answers afterwards, every other
    tool fails, and each failure names its tool. *)
Definition one_second_calls : MCPClient.Env Q :=
  {| MCPClient.time := λ w, w;
     MCPClient.sleep := λ d w, (w + d)%Q;
     MCPClient.call_tool := λ server tool params w,
       (if String.eqb tool "get_jobs" && Qle_bool 1 w
        then MCPClient.ToolResult false (VStr "[]")
        else MCPClient.ToolResult true (VStr (tool +:+ " is down")),
        (w + 1)%Q);
     MCPClient.list_tools := λ _ w, (MCPClient.Unreachable "not listed", w) |}.

Definition no_parameters (tool : string) : MCPClient.StandardizedSchema :=
  {| MCPClient.schema_name := tool; MCPClient.description := "";
     MCPClient.parameters := []; MCPClient.required := [];
     MCPClient.returns := None |}.

Definition jenkins_client : MCPClient.UniversalMCPClient :=
  {| MCPClient.servers := [jenkins]; MCPClient.capabilities := [];
     MCPClient._tools_cache :=
       [("jenkins:list_jobs", no_parameters "list_jobs");
        ("jenkins:search_jobs", no_parameters "search_jobs");
        ("jenkins:get_jobs", no_parameters "get_jobs")];
     MCPClient._server_health := {["jenkins" := true]};
     MCPClient.error_log := [] |}.

(** The registry after discovery met [list_jobs] and [search_jobs] on the
    server, with the mapping and the chain the registry starts with. *)
Definition jobs_registry : ToolRegistry :=
  {| mcp_client := jenkins_client;
     tool_mappings :=
       {["list_jobs" :=
           {| intent := "list_jobs";
              primary_tools := ["list_jobs"; "list_jenkins_jobs"];
              fallback_tools := ["search_jobs"; "get_jobs"];
              required_params := []; optional_params := [] |}]};
     performance_metrics :=
       {["jenkins:list_jobs" := new_performance "list_jobs" "jenkins";
         "jenkins:search_jobs" := new_performance "search_jobs" "jenkins"]};
     server_tools := [("jenkins", {["list_jobs"; "search_jobs"]})];
     fallback_chains :=
       {["list_jobs" :=
           {| primary_tool := "list_jobs";
              fallbacks := ["search_jobs"; "get_jobs"; "list_jenkins_jobs"];
              max_fallback_attempts := 3 |}]} |}.

End RegistryData.


(** * Properties *)

(** ** Rational comparisons *)

Lemma Qltb_lt (x y : Q) : Qltb x y = true <-> (x < y)%Q.
Proof.
  unfold Qltb. rewrite negb_true_iff, <- not_true_iff_false, Qle_bool_iff.
  split; [apply Qnot_le_lt | apply Qlt_not_le].
Qed.

Lemma Qltb_ge (x y : Q) : Qltb x y = false <-> (y <= x)%Q.
Proof.
  unfold Qltb. rewrite negb_false_iff. apply Qle_bool_iff.
Qed.

(** ** The circuit breaker of the recovery manager *)

Section Breaker.
Import RecoveryManager.

Lemma update_lookup now k a cbs :
  _update_circuit_breaker now k a cbs !! k
  = Some (update_entry now (estimated_success_rate a) (entry_of k cbs)).
Proof. unfold _update_circuit_breaker. by rewrite lookup_insert_eq. Qed.

Lemma update_other now k k' a cbs :
  k ≠ k' -> _update_circuit_breaker now k a cbs !! k' = cbs !! k'.
Proof. intros. unfold _update_circuit_breaker. by rewrite lookup_insert_ne. Qed.

Lemma failure_opens_at_threshold now rate cs :
  (rate < 0.3)%Q -> state cs = closed -> 5 <= failure_count cs + 1 ->
  update_entry now rate cs
  = {| failure_count := failure_count cs + 1;
       success_count := success_count cs; state := open;
       opened_at := Some now; timeout := timeout cs |}.
Proof.
  intros Hr Hs Hn. unfold update_entry.
  apply Qltb_lt in Hr. rewrite Hr, Hs. simpl.
  destruct (Z.leb_spec 5 (failure_count cs + 1)); [done | lia].
Qed.

Lemma failure_below_threshold now rate cs :
  (rate < 0.3)%Q -> failure_count cs + 1 < 5 ->
  update_entry now rate cs
  = {| failure_count := failure_count cs + 1;
       success_count := success_count cs; state := state cs;
       opened_at := opened_at cs; timeout := timeout cs |}.
Proof.
  intros Hr Hn. unfold update_entry.
  apply Qltb_lt in Hr. rewrite Hr.
  destruct (Z.leb_spec 5 (failure_count cs + 1)); [lia | done].
Qed.

Lemma success_counts now rate cs :
  (0.7 < rate)%Q ->
  update_entry now rate cs
  = if 3 <=? success_count cs + 1
    then {| failure_count := 0; success_count := success_count cs + 1;
            state := closed; opened_at := None; timeout := timeout cs |}
    else {| failure_count := failure_count cs;
            success_count := success_count cs + 1; state := state cs;
            opened_at := opened_at cs; timeout := timeout cs |}.
Proof.
  intros Hr. unfold update_entry.
  assert (Qltb rate 0.3 = false) as ->.
  { apply Qltb_ge. apply Qlt_le_weak. eapply Qlt_trans; [|exact Hr]. by vm_compute. }
  apply Qltb_lt in Hr. by rewrite Hr.
Qed.

Lemma open_refuses now k cbs cs t0 :
  cbs !! k = Some cs -> state cs = open -> opened_at cs = Some t0 ->
  (now - t0 <= timeout cs)%Q ->
  _is_circuit_breaker_open now k cbs = Returns (true, cbs).
Proof.
  intros Hk Hs Ho Ht. unfold _is_circuit_breaker_open.
  rewrite Hk, Hs, Ho. simpl. apply Qltb_ge in Ht. by rewrite Ht.
Qed.

Lemma open_times_out now k cbs cs t0 :
  cbs !! k = Some cs -> state cs = open -> opened_at cs = Some t0 ->
  (timeout cs < now - t0)%Q ->
  _is_circuit_breaker_open now k cbs
  = Returns (false, <[k := set_half_open cs]> cbs).
Proof.
  intros Hk Hs Ho Ht. unfold _is_circuit_breaker_open, set_half_open.
  rewrite Hk. destruct cs as [fc sc st oa to]; simpl in *; subst.
  apply Qltb_lt in Ht. by rewrite Ht.
Qed.

Lemma not_open_allows now k cbs :
  state (entry_of k cbs) ≠ open ->
  _is_circuit_breaker_open now k cbs = Returns (false, cbs).
Proof.
  unfold entry_of, _is_circuit_breaker_open.
  destruct (cbs !! k) as [cs|]; [|done].
  destruct (state cs); simpl; congruence.
Qed.

(** C1, as the code has it.  For the entry [cs] of any key: a failure (an
    action whose estimated success rate is below 0.3) counts, and opens a
    closed breaker, stamping [opened_at], as soon as the count reaches 5;
    while the breaker is open the check made before handling answers "open"
    as long as no more than [timeout] has passed since it opened; once more
    has passed the check answers "not open" and leaves the breaker half-open,
    and from then on every later check answers "not open" as well, however
    many follow; a success (a rate above 0.7) counts, and closes the breaker
    and clears the failure count as soon as the success count reaches 3. *)
Theorem circuit_breaker_state_machine (now : Q) (k : string)
    (a : RecoveryAction) (cbs : gmap string CircuitState) :
  let cs := entry_of k cbs in
  let rate := estimated_success_rate a in
  let cs' := entry_of k (_update_circuit_breaker now k a cbs) in
  ((rate < 0.3)%Q -> state cs = closed ->
     failure_count cs' = failure_count cs + 1
     /\ (5 <= failure_count cs + 1 ->
         state cs' = open /\ opened_at cs' = Some now)
     /\ (failure_count cs + 1 < 5 -> state cs' = closed))
  /\ (forall t0, state cs = open -> opened_at cs = Some t0 ->
        (now - t0 <= timeout cs)%Q ->
        _is_circuit_breaker_open now k cbs = Returns (true, cbs))
  /\ (forall t0, state cs = open -> opened_at cs = Some t0 ->
        (timeout cs < now - t0)%Q ->
        exists cbs1,
          _is_circuit_breaker_open now k cbs = Returns (false, cbs1)
          /\ entry_of k cbs1 = set_half_open cs
          /\ forall later,
               _is_circuit_breaker_open later k cbs1 = Returns (false, cbs1))
  /\ (state cs = half_open ->
      _is_circuit_breaker_open now k cbs = Returns (false, cbs))
  /\ ((0.7 < rate)%Q ->
      success_count cs' = success_count cs + 1
      /\ (3 <= success_count cs + 1 ->
          state cs' = closed /\ failure_count cs' = 0
          /\ opened_at cs' = None)
      /\ (success_count cs + 1 < 3 ->
          state cs' = state cs /\ failure_count cs' = failure_count cs)).
Proof.
  intros cs rate cs'.
  assert (cs' = update_entry now rate cs) as Hcs'.
  { unfold cs', entry_of at 1. by rewrite update_lookup. }
  assert (forall st, state cs = st -> st ≠ closed -> cbs !! k = Some cs) as Hin.
  { unfold cs, entry_of. destruct (cbs !! k); [done|]. simpl. congruence. }
  split; [intros Hr Hs | split; [| split; [| split]]].
  - destruct (Z.le_gt_cases 5 (failure_count cs + 1)) as [Hn|Hn].
    + rewrite Hcs', failure_opens_at_threshold by assumption.
      simpl. split; [reflexivity | split; [done | lia]].
    + rewrite Hcs', failure_below_threshold by assumption.
      simpl. split; [reflexivity | split; [lia | done]].
  - intros t0 Hs Ho Ht. eapply open_refuses; eauto.
  - intros t0 Hs Ho Ht. eexists. split; [eapply open_times_out; eauto|].
    split.
    + unfold entry_of. by rewrite lookup_insert_eq.
    + intros later. apply not_open_allows.
      unfold entry_of. by rewrite lookup_insert_eq.
  - intros Hs. apply not_open_allows. fold cs. congruence.
  - intros Hr. rewrite Hcs', success_counts by assumption.
    destruct (Z.leb_spec 3 (success_count cs + 1)); simpl.
    + split; [reflexivity | split; [done | lia]].
    + split; [reflexivity | split; [lia | done]].
Qed.

(** C1 does not hold as stated.  Five failures at instants 0 to 4 open the
    breaker of key [list_jobs:timeout]; a sixth at instant 10 is refused.
    At instant 305 the timeout of 300 s has passed: the request is let
    through and fails, and the requests at 306 and 307 are let through as
    well, so more than one probe is admitted; after these failures the
    breaker is still half-open, not open. *)
Lemma half_open_admits_every_request :
  exists cbs,
    handle_failures [0; 1; 2; 3; 4; 10; 305; 306; 307]%Q "list_jobs:timeout"
      abandon [] ∅
    = Returns ([ABANDON_GOAL; ABANDON_GOAL; ABANDON_GOAL;
                GRACEFUL_DEGRADATION;
                ABANDON_GOAL; ABANDON_GOAL; ABANDON_GOAL; ABANDON_GOAL;
                ABANDON_GOAL], cbs)
    /\ cbs !! "list_jobs:timeout"
       = Some {| failure_count := 8; success_count := 0; state := half_open;
                 opened_at := Some 4%Q; timeout := 300 |}.
Proof. eexists. split; by vm_compute. Qed.

End Breaker.


(** ** The cache *)

Section CacheFacts.
Import Cache.
Context `{Serializer}.

Lemma total_bytes_empty : total_bytes ∅ = 0.
Proof. unfold total_bytes. apply map_fold_empty. Qed.

Lemma total_bytes_insert (m : gmap string CacheItem) k it :
  m !! k = None -> total_bytes (<[k := it]> m) = size_bytes it + total_bytes m.
Proof.
  intros Hk. unfold total_bytes.
  rewrite map_fold_insert_L; [done | intros; lia | done].
Qed.

Lemma total_bytes_delete (m : gmap string CacheItem) k it :
  m !! k = Some it -> total_bytes (delete k m) = total_bytes m - size_bytes it.
Proof.
  intros Hk. unfold total_bytes.
  rewrite (map_fold_delete_L _ _ k it m); [lia | intros; lia | done].
Qed.

Lemma total_bytes_replace (m : gmap string CacheItem) k it it' :
  m !! k = Some it -> size_bytes it' = size_bytes it ->
  total_bytes (<[k := it']> m) = total_bytes m.
Proof.
  intros Hk Hs. rewrite <- insert_delete_eq.
  rewrite total_bytes_insert by apply lookup_delete_eq.
  rewrite (total_bytes_delete m k it) by done. lia.
Qed.

Lemma total_bytes_nonneg (m : gmap string CacheItem) :
  (forall k it, m !! k = Some it -> 0 <= size_bytes it) -> 0 <= total_bytes m.
Proof.
  induction m as [|k it m Hk IH] using map_ind; intros Hs.
  - by rewrite total_bytes_empty.
  - rewrite total_bytes_insert by done.
    assert (0 <= size_bytes it) by (apply (Hs k); apply lookup_insert_eq).
    assert (0 <= total_bytes m); [|lia].
    apply IH. intros k' it' Hk'. apply (Hs k').
    rewrite lookup_insert_ne; [done|]. intros ->. congruence.
Qed.

(** On a well-formed cache [len(self.cache)] is the length of
    [access_order]. *)
Lemma keys_length c : wf c -> length (access_order c) = size (cache c).
Proof.
  intros [Hnd Hkeys _ _].
  rewrite <- (size_dom (D := gset string)).
  rewrite <- (size_list_to_set (C := gset string)) by done.
  f_equal. apply set_eq. intros k.
  rewrite elem_of_list_to_set, elem_of_dom. apply Hkeys.
Qed.

Lemma wf_new max ttl : wf (new_cache max ttl).
Proof.
  split; simpl.
  - constructor.
  - intros k. rewrite lookup_empty. split; [by intros ?%not_elem_of_nil|].
    by intros [? ?].
  - by rewrite total_bytes_empty.
  - intros k it. by rewrite lookup_empty.
Qed.

Lemma wf_clear c : wf (clear c).
Proof.
  split; simpl.
  - constructor.
  - intros k. rewrite lookup_empty. split; [by intros ?%not_elem_of_nil|].
    by intros [? ?].
  - by rewrite total_bytes_empty.
  - intros k it. by rewrite lookup_empty.
Qed.

Lemma od_pop_absent k l : k ∉ l -> od_pop k l = l.
Proof.
  intros Hk. unfold od_pop. induction l as [|x l IH]; [done|].
  rewrite filter_cons. apply not_elem_of_cons in Hk as [Hx Hl].
  destruct (decide (x ≠ k)) as [|Hn]; [by rewrite IH|].
  exfalso; apply Hn; congruence.
Qed.

Lemma elem_of_od_pop k k' l : k' ∈ od_pop k l <-> k' ∈ l /\ k' ≠ k.
Proof. unfold od_pop. rewrite list_elem_of_filter. tauto. Qed.

Lemma od_pop_head k l : k ∉ l -> od_pop k (k :: l) = l.
Proof.
  intros Hk. unfold od_pop. rewrite filter_cons.
  destruct (decide (k ≠ k)); [congruence|]. by apply od_pop_absent.
Qed.

(** [_remove_item] in terms of the two structures. *)
Lemma remove_cache k c : cache (_remove_item k c) = delete k (cache c).
Proof.
  unfold _remove_item. destruct (cache c !! k) eqn:Hk; [done|].
  by rewrite delete_id.
Qed.

Lemma remove_order k c :
  wf c -> access_order (_remove_item k c) = od_pop k (access_order c).
Proof.
  intros Hwf. unfold _remove_item. destruct (cache c !! k) eqn:Hk; [done|].
  rewrite od_pop_absent; [done|]. rewrite (wf_keys c Hwf), Hk.
  by intros [? ?].
Qed.

Lemma remove_limits k c :
  max_size (_remove_item k c) = max_size c
  /\ default_ttl (_remove_item k c) = default_ttl c
  /\ _max_size_bytes (_remove_item k c) = _max_size_bytes c.
Proof. unfold _remove_item. by destruct (cache c !! k). Qed.

Lemma wf_remove k c : wf c -> wf (_remove_item k c).
Proof.
  intros Hwf. pose proof Hwf as [Hnd Hkeys Hbytes Hsizes].
  split.
  - rewrite remove_order by done. by apply NoDup_filter.
  - intros k'. rewrite remove_order, remove_cache by done.
    rewrite elem_of_od_pop, Hkeys.
    destruct (decide (k = k')) as [->|Hne].
    + rewrite lookup_delete_eq. split; [tauto | by intros [? ?]].
    + rewrite lookup_delete_ne by done. split; [tauto | intros; split; [done | congruence]].
  - unfold _remove_item. destruct (cache c !! k) as [it|] eqn:Hk; [|done].
    simpl. rewrite (total_bytes_delete _ _ it) by done. lia.
  - intros k' it. rewrite remove_cache. intros Hk'.
    apply lookup_delete_Some in Hk' as [_ Hk']. by apply (Hsizes k').
Qed.

Lemma remove_size_le k c : (size (cache (_remove_item k c)) <= size (cache c))%nat.
Proof.
  rewrite remove_cache, map_size_delete. destruct (cache c !! k); simpl; lia.
Qed.

Lemma remove_bytes_le k c :
  wf c -> total_bytes (cache (_remove_item k c)) <= total_bytes (cache c).
Proof.
  intros Hwf. rewrite remove_cache.
  destruct (cache c !! k) as [it|] eqn:Hk.
  - rewrite (total_bytes_delete _ _ it) by done.
    pose proof (wf_sizes c Hwf k it Hk). lia.
  - by rewrite delete_id.
Qed.

Lemma within_limits_remove k c :
  wf c -> within_limits c -> within_limits (_remove_item k c).
Proof.
  intros Hwf [Hn Hb]. pose proof (remove_limits k c) as (Hm & _ & Hmb).
  pose proof (remove_size_le k c). pose proof (remove_bytes_le k c Hwf).
  unfold within_limits. rewrite Hm, Hmb. split; lia.
Qed.

Lemma elem_of_drop_weak {A} (x : A) n (l : list A) : x ∈ drop n l -> x ∈ l.
Proof.
  revert l. induction n as [|n IH]; intros [|y l]; simpl; try done.
  intros Hx. right. by apply IH.
Qed.

Lemma evict_lru_nil c : access_order c = [] -> _evict_lru c = (false, c).
Proof. unfold _evict_lru. by intros ->. Qed.

Lemma evict_lru_cons c k rest :
  access_order c = k :: rest -> _evict_lru c = (true, _remove_item k c).
Proof. unfold _evict_lru. by intros ->. Qed.

Lemma wf_empty_order c :
  wf c -> access_order c = [] -> cache c = ∅ /\ _size_bytes c = 0.
Proof.
  intros Hwf Hnil.
  assert (cache c = ∅) as Hc.
  { apply map_eq. intros k. rewrite lookup_empty.
    destruct (cache c !! k) eqn:Hk; [|done].
    assert (k ∈ access_order c) as Hin by (apply (wf_keys c Hwf); eauto).
    rewrite Hnil in Hin. by apply not_elem_of_nil in Hin. }
  split; [done|]. rewrite (wf_bytes c Hwf), Hc. apply total_bytes_empty.
Qed.

Lemma make_room_spec size fuel c :
  wf c -> (length (access_order c) < fuel)%nat ->
  exists b c' n, make_room fuel size c = Some (b, c') /\ room_made size c b c' n.
Proof.
  revert c. induction fuel as [|fuel IH]; intros c Hwf Hfuel; [lia|].
  simpl.
  destruct ((max_size c <=? Z.of_nat (base.size (cache c)))
            || (_max_size_bytes c <? _size_bytes c + size)) eqn:Hfull.
  - destruct (access_order c) as [|k rest] eqn:Horder.
    + rewrite evict_lru_nil by done.
      exists false, c, 0%nat. split; [done|].
      destruct (wf_empty_order c Hwf Horder) as [Hc Hb].
      split; [done | by rewrite Horder | done.. | |]; [done|].
      intros _. split; [done|].
      rewrite Hc, Hb, map_size_empty in Hfull.
      apply orb_true_iff in Hfull as [Hf%Z.leb_le|Hf%Z.ltb_lt];
        [left | right]; lia.
    + rewrite (evict_lru_cons c k rest) by done.
      pose proof (wf_nodup c Hwf) as Hnd. rewrite Horder in Hnd.
      apply NoDup_cons in Hnd as [Hk Hnd].
      assert (access_order (_remove_item k c) = rest) as Hrest.
      { rewrite remove_order, Horder by done. by apply od_pop_head. }
      destruct (IH (_remove_item k c)) as (b & c' & n & Hrun & Hspec).
      { by apply wf_remove. }
      { rewrite Hrest. simpl in Hfuel. lia. }
      exists b, c', (S n). split; [done|].
      destruct Hspec as [? Ho Hkept Hms Httl Hmb Hcount Hbytes Hroom Hnoroom].
      pose proof (remove_limits k c) as (Hm1 & Ht1 & Hb1).
      split; [done | | | congruence | congruence | congruence | | | |].
      * by rewrite Ho, Hrest, Horder.
      * intros k' Hk'. rewrite Hkept, remove_cache by done.
        apply lookup_delete_ne. intros ->.
        rewrite Ho, Hrest in Hk'. apply Hk. eapply elem_of_drop_weak; eauto.
      * pose proof (remove_size_le k c). lia.
      * pose proof (remove_bytes_le k c Hwf). lia.
      * intros Hb. rewrite <- Hm1, <- Hb1. by apply Hroom.
      * intros Hb. rewrite <- Hm1, <- Hb1. by apply Hnoroom.
  - exists true, c, 0%nat. split; [done|].
    apply orb_false_iff in Hfull as [Hf1%Z.leb_gt Hf2%Z.ltb_ge].
    split; [done.. | | done]. intros _. lia.
Qed.

Lemma set_spec now k v ttl c :
  wf c -> exists b c', set now k v ttl c = Ret (b, c') /\ set_done now k v ttl c b c'.
Proof.
  intros Hwf. unfold set.
  destruct (make_room_spec (Z.of_N (payload_size v))
              (S (length (access_order c))) c Hwf) as (b & c1 & n & Hmr & Hroom);
    [lia|].
  rewrite Hmr.
  pose proof Hroom as [Hwf1 Ho Hkept Hms Httl Hmb Hcount Hbytes Hfit Hnofit].
  destruct b.
  - destruct Hfit as [Hn Hb]; [done|].
    eexists true, _. split; [reflexivity|].
    pose proof (wf_remove k c1 Hwf1) as Hwf2.
    pose proof (remove_limits k c1) as (Hm2 & Ht2 & Hb2).
    set (it := {| key := k |}).
    assert (it = stored_item now k v (ttl_or_default ttl c)) as Hit.
    { reflexivity. }
    assert (k ∉ access_order (_remove_item k c1)) as Hfresh.
    { rewrite remove_order, elem_of_od_pop by done. tauto. }
    assert (cache (_remove_item k c1) !! k = None) as Hnone.
    { rewrite remove_cache. apply lookup_delete_eq. }
    assert (od_set k (access_order (_remove_item k c1))
            = (od_pop k (access_order c1) ++ [k])%list) as Hset.
    { unfold od_set. rewrite decide_False by done. by rewrite remove_order. }
    assert (wf {| max_size := max_size (_remove_item k c1);
                  default_ttl := default_ttl (_remove_item k c1);
                  cache := <[k := it]> (cache (_remove_item k c1));
                  access_order := od_set k (access_order (_remove_item k c1));
                  _size_bytes := _size_bytes (_remove_item k c1)
                                 + Z.of_N (payload_size v);
                  _max_size_bytes := _max_size_bytes (_remove_item k c1) |})
      as Hwf'.
    { split; simpl.
      - unfold od_set. rewrite decide_False by done.
        apply NoDup_app. split; [apply (wf_nodup _ Hwf2)|].
        split; [|apply NoDup_singleton].
        intros x Hx ->%list_elem_of_singleton. done.
      - intros k'. unfold od_set. rewrite decide_False by done.
        rewrite elem_of_app, list_elem_of_singleton, (wf_keys _ Hwf2).
        destruct (decide (k = k')) as [->|Hne].
        + rewrite lookup_insert_eq. split; [eauto | by right].
        + rewrite lookup_insert_ne by done. split; [|tauto].
          intros [?| ->]; [done | congruence].
      - rewrite total_bytes_insert by done.
        rewrite (wf_bytes _ Hwf2). simpl. lia.
      - intros k' it'. destruct (decide (k = k')) as [->|Hne].
        + rewrite lookup_insert_eq. intros [= <-]. simpl. lia.
        + rewrite lookup_insert_ne by done. apply (wf_sizes _ Hwf2). }
    assert (within_limits
              {| max_size := max_size (_remove_item k c1);
                 default_ttl := default_ttl (_remove_item k c1);
                 cache := <[k := it]> (cache (_remove_item k c1));
                 access_order := od_set k (access_order (_remove_item k c1));
                 _size_bytes := _size_bytes (_remove_item k c1)
                                + Z.of_N (payload_size v);
                 _max_size_bytes := _max_size_bytes (_remove_item k c1) |})
      as Hlim.
    { unfold within_limits. simpl.
      rewrite map_size_insert_None, total_bytes_insert by done.
      pose proof (remove_size_le k c1). pose proof (remove_bytes_le k c1 Hwf1).
      rewrite (wf_bytes _ Hwf1) in Hb. simpl.
      rewrite Hm2, Hb2, Hms, Hmb. split; lia. }
    split; simpl; try done; try congruence.
    exists c1, n. split; [done|]. split; [done|]. split; [done|]. intros _.
    split; [|done]. rewrite Hit, remove_cache. apply insert_delete_eq.
  - eexists false, c1. split; [reflexivity|].
    split; try done.
    + intros [Hn Hb]. unfold within_limits. rewrite Hms, Hmb. split; lia.
    + exists c1, n. split; [done|]. split; [done|]. split; [done|]. done.
Qed.

Lemma get_absent now k c : cache c !! k = None -> get now k c = Ret (VNone, c).
Proof. unfold get. by intros ->. Qed.

Lemma get_expired now k c it :
  cache c !! k = Some it -> is_expired now it = true ->
  get now k c = Ret (VNone, _remove_item k c).
Proof. unfold get. by intros -> ->. Qed.

Lemma get_hit now k c it :
  wf c -> cache c !! k = Some it -> is_expired now it = false ->
  get now k c = Ret (value it, touched now k it c).
Proof.
  intros Hwf Hk Hexp. unfold get. rewrite Hk, Hexp.
  rewrite decide_True; [done|]. apply (wf_keys c Hwf). eauto.
Qed.

Lemma wf_touched now k it c :
  wf c -> cache c !! k = Some it -> wf (touched now k it c).
Proof.
  intros Hwf Hk. pose proof Hwf as [Hnd Hkeys Hbytes Hsizes].
  split; simpl.
  - unfold od_move_to_end. apply NoDup_app. split; [by apply NoDup_filter|].
    split; [|apply NoDup_singleton].
    intros x Hx ->%list_elem_of_singleton. apply elem_of_od_pop in Hx. tauto.
  - intros k'. unfold od_move_to_end.
    rewrite elem_of_app, list_elem_of_singleton, elem_of_od_pop, Hkeys.
    destruct (decide (k = k')) as [->|Hne].
    + rewrite lookup_insert_eq. split; [eauto | by right].
    + rewrite lookup_insert_ne by done. split; [|intros; left; split; [done|congruence]].
      intros [[? ?]| ->]; [done | congruence].
  - by rewrite (total_bytes_replace _ _ it).
  - intros k' it'. destruct (decide (k = k')) as [->|Hne].
    + rewrite lookup_insert_eq. intros [= <-]. simpl. by apply (Hsizes k').
    + rewrite lookup_insert_ne by done. apply Hsizes.
Qed.

Lemma within_limits_touched now k it c :
  cache c !! k = Some it -> within_limits c -> within_limits (touched now k it c).
Proof.
  intros Hk [Hn Hb]. unfold within_limits. simpl.
  rewrite map_size_insert_Some by eauto.
  by rewrite (total_bytes_replace _ _ it).
Qed.

Lemma preserved_remove k c : wf c -> preserved c (_remove_item k c).
Proof.
  intros Hwf. pose proof (remove_limits k c) as (? & ? & ?).
  split; [by apply wf_remove|]. split; [by apply within_limits_remove|]. done.
Qed.

Lemma preserved_trans c1 c2 c3 :
  preserved c1 c2 -> preserved c2 c3 -> preserved c1 c3.
Proof.
  intros (? & ? & ? & ?) (? & ? & ? & ?).
  split; [done|]. split; [tauto|]. split; congruence.
Qed.

Lemma get_spec now k c :
  wf c -> exists v c', get now k c = Ret (v, c') /\ preserved c c'.
Proof.
  intros Hwf. destruct (cache c !! k) as [it|] eqn:Hk.
  - destruct (is_expired now it) eqn:Hexp.
    + eexists _, _. split; [by apply (get_expired now k c it)|].
      by apply preserved_remove.
    + eexists _, _. split; [by apply get_hit|].
      split; [by apply wf_touched|].
      split; [by apply within_limits_touched|]. done.
  - eexists _, _. split; [by apply get_absent|]. by split.
Qed.

Lemma cleanup_spec now c : wf c -> preserved c (cleanup now c).
Proof.
  intros Hwf. unfold cleanup.
  generalize ((filter (λ kv, is_expired now kv.2 = true)
                 (map_to_list (cache c))).*1).
  intros keys. assert (preserved c c) as Hinit by (by split).
  revert Hinit. generalize c at 2 4 as c0. clear Hwf.
  induction keys as [|k keys IH]; intros c0 Hp; simpl; [done|].
  apply IH. eapply preserved_trans; [exact Hp|].
  apply preserved_remove. apply Hp.
Qed.

Lemma after_call_spec op c :
  wf c -> exists c', after_call op c = Some c' /\ preserved c c'.
Proof.
  intros Hwf. destruct op as [now k|now k v ttl|k| |now]; simpl.
  - destruct (get_spec now k c Hwf) as (v & c' & -> & Hp). eauto.
  - destruct (set_spec now k v ttl c Hwf) as (b & c' & -> & Hd).
    exists c'. split; [done|]. destruct Hd. by split.
  - eexists. split; [done|]. unfold delete_.
    destruct (cache c !! k) eqn:Hk; simpl; [by apply preserved_remove | by split].
  - eexists. split; [done|]. split; [apply wf_clear|].
    split; [|done]. intros [Hn Hb]. unfold within_limits. simpl.
    pose proof (total_bytes_nonneg (cache c) (wf_sizes c Hwf)).
    rewrite map_size_empty, total_bytes_empty. split; lia.
  - eexists. split; [done|]. by apply cleanup_spec.
Qed.

Lemma after_calls_spec ops c :
  wf c -> exists c', after_calls ops c = Some c' /\ preserved c c'.
Proof.
  revert c. induction ops as [|op ops IH]; intros c Hwf; simpl.
  - exists c. by split.
  - destruct (after_call_spec op c Hwf) as (c1 & -> & Hp1).
    destruct (IH c1) as (c2 & -> & Hp2); [apply Hp1|].
    exists c2. split; [done|]. by eapply preserved_trans.
Qed.

Lemma within_limits_new max ttl : 0 <= max -> within_limits (new_cache max ttl).
Proof.
  intros Hmax. unfold within_limits. simpl.
  rewrite map_size_empty, total_bytes_empty. split; lia.
Qed.

Lemma absent_of_order c k : wf c -> k ∉ access_order c -> cache c !! k = None.
Proof.
  intros Hwf Hk. destruct (cache c !! k) eqn:Hc; [|done].
  exfalso. apply Hk. apply (wf_keys c Hwf). eauto.
Qed.

(** After [set], a key other than [k] is gone when it was among the [n]
    least recently used, and untouched otherwise. *)
Lemma set_other_keys now k v ttl c b c' c1 n :
  wf c -> set_done now k v ttl c b c' ->
  room_made (Z.of_N (payload_size v)) c b c1 n ->
  (b = false -> c' = c1) ->
  (b = true ->
   cache c' = <[k := stored_item now k v (ttl_or_default ttl c)]> (cache c1)) ->
  (forall k', k' ∈ drop n (access_order c) -> k' ≠ k ->
              cache c' !! k' = cache c !! k')
  /\ (forall k', k' ∈ take n (access_order c) -> k' ≠ k ->
                 cache c' !! k' = None).
Proof.
  intros Hwf Hd Hroom Hfalse Htrue.
  assert (forall k', k' ≠ k -> cache c' !! k' = cache c1 !! k') as Hsame.
  { intros k' Hne. destruct b.
    - rewrite Htrue by done. by apply lookup_insert_ne.
    - by rewrite Hfalse. }
  destruct Hroom as [Hwf1 Ho Hkept _ _ _ _ _ _ _].
  split; intros k' Hk' Hne; rewrite Hsame by done.
  - apply Hkept. by rewrite Ho.
  - apply absent_of_order; [done|]. rewrite Ho. intros Hin.
    pose proof (wf_nodup c Hwf) as Hnd.
    rewrite <- (take_drop n (access_order c)) in Hnd.
    apply NoDup_app in Hnd as (_ & Hdisj & _). by apply (Hdisj k').
Qed.




Lemma set_succeeds now k v ttl c :
  wf c -> 0 < max_size c -> Z.of_N (payload_size v) <= _max_size_bytes c ->
  exists c',
    set now k v ttl c = Ret (true, c') /\ wf c'
    /\ cache c' !! k = Some (stored_item now k v (ttl_or_default ttl c))
    /\ max_size c' = max_size c /\ _max_size_bytes c' = _max_size_bytes c.
Proof.
  intros Hwf Hmax Hfit.
  destruct (set_spec now k v ttl c Hwf) as (b & c' & Hset & Hd).
  destruct Hd as [Hwf' _ _ Hms _ Hmb (c1 & n & _ & Hroom & _ & Hstored)].
  destruct b.
  - exists c'. split; [done|]. split; [done|]. split; [|done].
    destruct Hstored as [-> _]; [done|]. apply lookup_insert_eq.
  - destruct (rm_no_room _ _ _ _ _ Hroom) as [_ [?|?]]; [done | lia..].
Qed.

Lemma stored_item_fresh now k v ttl t :
  (0 < ttl)%Q ->
  is_expired t (stored_item now k v ttl) = Qltb (now + ttl) t.
Proof.
  intros Httl%Qltb_lt. unfold is_expired, stored_item. simpl. by rewrite Httl.
Qed.

(** With a cap of two and the keys [a], [b] cached in this order of use,
    the loop of [set] evicts [a] and stops when the bytes then fit. *)
Lemma make_room_two c a b ia size :
  wf c -> max_size c = 2 -> access_order c = [a; b] ->
  cache c !! a = Some ia ->
  _size_bytes c - size_bytes ia + size <= _max_size_bytes c ->
  make_room 3 size c = Some (true, _remove_item a c).
Proof.
  intros Hwf Hmax Ho Ha Hfit.
  pose proof (keys_length c Hwf) as Hlen. rewrite Ho in Hlen. simpl in Hlen.
  pose proof (wf_remove a c Hwf) as Hwf1.
  pose proof (wf_nodup c Hwf) as Hnd. rewrite Ho in Hnd.
  apply NoDup_cons in Hnd as [Hab _].
  assert (access_order (_remove_item a c) = [b]) as Ho1.
  { rewrite remove_order, Ho by done. by apply od_pop_head. }
  pose proof (keys_length _ Hwf1) as Hlen1. rewrite Ho1 in Hlen1. simpl in Hlen1.
  pose proof (remove_limits a c) as (Hm1 & _ & Hb1).
  assert (_size_bytes (_remove_item a c) = _size_bytes c - size_bytes ia) as Hs1.
  { unfold _remove_item. by rewrite Ha. }
  cbn [make_room].
  rewrite Hmax, <- Hlen. simpl (2 <=? Z.of_nat 2). cbn [orb].
  rewrite (evict_lru_cons c a [b]) by done.
  rewrite Hm1, Hb1, Hs1, Hmax, <- Hlen1.
  destruct (Z.ltb_spec (_max_size_bytes c) (_size_bytes c - size_bytes ia + size));
    [lia | done].
Qed.

(** The time-to-live and the eviction of the least recently used key, on
    any well-formed cache. *)
Lemma ttl_and_lru_on_well_formed (c : IntelligentCache) (now : Q) (k : string)
    (v : PyVal) :
  wf c -> 0 < max_size c -> Z.of_N (payload_size v) <= _max_size_bytes c ->
  (exists c1,
     set now k v (Some 1%Q) c = Ret (true, c1)
     /\ (forall t, (t <= now + 1)%Q -> exists c2, get t k c1 = Ret (v, c2))
     /\ (forall t, (now + 1 < t)%Q ->
           exists c2, get t k c1 = Ret (VNone, c2) /\ cache c2 !! k = None))
  /\ (forall a b ia ib k3 v3 ttl3 t,
        max_size c = 2 -> access_order c = [a; b] ->
        cache c !! a = Some ia -> cache c !! b = Some ib ->
        k3 ≠ a -> k3 ≠ b ->
        _size_bytes c - size_bytes ia + Z.of_N (payload_size v3)
        <= _max_size_bytes c ->
        exists c3,
          set t k3 v3 ttl3 c = Ret (true, c3)
          /\ cache c3 !! a = None
          /\ cache c3 !! b = Some ib
          /\ access_order c3 = [b; k3]
          /\ (forall t', is_expired t' ib = false ->
                exists c4, get t' b c3 = Ret (value ib, c4)))
  /\ (forall t k' it,
        cache c !! k' = Some it -> is_expired t it = false ->
        exists c2, get t k' c = Ret (value it, c2)
                   /\ access_order c2 = (od_pop k' (access_order c) ++ [k'])%list).
Proof.
  intros Hwf Hmax Hfit. split; [|split].
  - destruct (set_succeeds now k v (Some 1%Q) c) as (c1 & Hset & Hwf1 & Hk & _);
      try done.
    exists c1. split; [done|]. simpl in Hk. split.
    + intros t Ht. eexists.
      rewrite (get_hit t k c1 _ Hwf1 Hk); [done|].
      rewrite stored_item_fresh by done. by apply Qltb_ge.
    + intros t Ht. eexists.
      rewrite (get_expired t k c1 _ Hk).
      * split; [done|]. rewrite remove_cache. apply lookup_delete_eq.
      * rewrite stored_item_fresh by done. by apply Qltb_lt.
  - intros a b ia ib k3 v3 ttl3 t Hcap Ho Ha Hb Hna Hnb Hbytes.
    destruct (set_spec t k3 v3 ttl3 c Hwf) as (r & c3 & Hset & Hd).
    destruct Hd as [Hwf3 _ _ _ _ _ (c1 & n & Hmr & _ & _ & Hstored)].
    rewrite Ho in Hmr. simpl length in Hmr.
    rewrite (make_room_two c a b ia) in Hmr by done.
    injection Hmr as <- <-.
    destruct Hstored as [Hc3 Ho3]; [done|].
    pose proof (wf_nodup c Hwf) as Hnd. rewrite Ho in Hnd.
    apply NoDup_cons in Hnd as [Hab _].
    assert (a ≠ b) as Hne by (intros ->; apply Hab; by left).
    assert (cache c3 !! b = Some ib) as Hb3.
    { rewrite Hc3, lookup_insert_ne, remove_cache, lookup_delete_ne by done.
      done. }
    exists c3. split; [done|]. split; [|split; [done|split]].
    + rewrite Hc3, lookup_insert_ne, remove_cache by done.
      apply lookup_delete_eq.
    + rewrite Ho3, remove_order, Ho by done.
      rewrite (od_pop_head a [b]) by done.
      rewrite od_pop_absent; [done|].
      intros ?%list_elem_of_singleton. congruence.
    + intros t' Hexp. eexists. by apply get_hit.
  - intros t k' it Hk' Hexp. eexists. split; [by apply get_hit|]. done.
Qed.

(** Every cache reached from a new one is well-formed and keeps the
    limits it was created with. *)
Lemma reached_well_formed max ttl0 ops c :
  after_calls ops (new_cache max ttl0) = Some c ->
  wf c /\ max_size c = max /\ _max_size_bytes c = 100 * 1024 * 1024.
Proof.
  intros Hrun.
  destruct (after_calls_spec ops (new_cache max ttl0) (wf_new max ttl0))
    as (c' & Hrun' & Hwf & _ & Hms & Hmb).
  rewrite Hrun in Hrun'. injection Hrun' as <-. done.
Qed.

(** C8.  On a cache reached by any calls from a new cache with a positive
    item cap, storing a value that fits the byte budget for one second
    succeeds; a [get] of the key at any instant up to one second later
    returns the value, and a [get] at any later instant returns the miss and
    drops the item.  With a cap of two and two cached keys, [a] used less
    recently than [b], storing a third key whose bytes fit once [a] is gone
    evicts [a] and nothing else: [b] stays and a [get] returns its value as
    long as it has not expired.  A [get] that hits makes its key the most
    recently used. *)
Theorem cache_ttl_and_lru (max : Z) (ttl0 : Q) (ops : list call)
    (c : IntelligentCache) (now : Q) (k : string) (v : PyVal) :
  after_calls ops (new_cache max ttl0) = Some c ->
  0 < max -> Z.of_N (payload_size v) <= 100 * 1024 * 1024 ->
  (exists c1,
     set now k v (Some 1%Q) c = Ret (true, c1)
     /\ (forall t, (t <= now + 1)%Q -> exists c2, get t k c1 = Ret (v, c2))
     /\ (forall t, (now + 1 < t)%Q ->
           exists c2, get t k c1 = Ret (VNone, c2) /\ cache c2 !! k = None))
  /\ (forall a b ia ib k3 v3 ttl3 t,
        max = 2 -> access_order c = [a; b] ->
        cache c !! a = Some ia -> cache c !! b = Some ib ->
        k3 ≠ a -> k3 ≠ b ->
        _size_bytes c - size_bytes ia + Z.of_N (payload_size v3)
        <= 100 * 1024 * 1024 ->
        exists c3,
          set t k3 v3 ttl3 c = Ret (true, c3)
          /\ cache c3 !! a = None
          /\ cache c3 !! b = Some ib
          /\ access_order c3 = [b; k3]
          /\ (forall t', is_expired t' ib = false ->
                exists c4, get t' b c3 = Ret (value ib, c4)))
  /\ (forall t k' it,
        cache c !! k' = Some it -> is_expired t it = false ->
        exists c2, get t k' c = Ret (value it, c2)
                   /\ access_order c2 = (od_pop k' (access_order c) ++ [k'])%list).
Proof.
  intros Hrun Hmax Hfit.
  destruct (reached_well_formed max ttl0 ops c Hrun) as (Hwf & Hms & Hmb).
  destruct (ttl_and_lru_on_well_formed c now k v Hwf) as (H1 & H2 & H3);
    [lia | lia |].
  split; [done|]. split; [|done].
  intros a b ia ib k3 v3 ttl3 t Hcap Ho Ha Hb Hna Hnb Hbytes.
  apply (H2 a b ia ib); try done; [congruence | lia].
Qed.

(** A [get] gives [None] wherever the key holds [None], expired or not. *)
Lemma get_stored_none t k c it :
  wf c -> cache c !! k = Some it -> value it = VNone ->
  exists c', get t k c = Ret (VNone, c') /\ preserved c c'.
Proof.
  intros Hwf Hk Hv. destruct (get_spec t k c Hwf) as (v & c' & Hget & Hp).
  exists c'. split; [|done]. rewrite Hget. repeat f_equal.
  destruct (is_expired t it) eqn:Hexp.
  - rewrite (get_expired t k c it) in Hget by done. congruence.
  - rewrite (get_hit t k c it) in Hget by done. congruence.
Qed.

(** A stored [None] and the miss, on any well-formed cache. *)
Lemma none_reads_as_miss_on_well_formed (c : IntelligentCache)
    (now : Q) (k : string) (ttl : option Q) :
  wf c -> 0 < max_size c -> Z.of_N (payload_size VNone) <= _max_size_bytes c ->
  (exists c1, set now k VNone ttl c = Ret (true, c1)
              /\ forall t, exists c2, get t k c1 = Ret (VNone, c2))
  /\ (forall t k', cache c !! k' = None -> get t k' c = Ret (VNone, c))
  /\ (forall v t,
        is_None v = false -> Z.of_N (payload_size v) <= _max_size_bytes c ->
        exists c1,
          set now k v ttl c = Ret (true, c1)
          /\ (is_expired t (stored_item now k v (ttl_or_default ttl c)) = false ->
              exists c2, get t k c1 = Ret (v, c2) /\ v ≠ VNone)).
Proof.
  intros Hwf Hmax Hfit. split; [|split].
  - destruct (set_succeeds now k VNone ttl c) as (c1 & Hset & Hwf1 & Hk & _);
      try done.
    exists c1. split; [done|]. intros t.
    destruct (get_stored_none t k c1 _ Hwf1 Hk) as (c2 & Hget & _); [done|].
    by exists c2.
  - intros t k' Hk'. by apply get_absent.
  - intros v t Hv Hfitv.
    destruct (set_succeeds now k v ttl c) as (c1 & Hset & Hwf1 & Hk & _);
      try done.
    exists c1. split; [done|]. intros Hexp. eexists.
    split; [by apply (get_hit t k c1 _ Hwf1 Hk)|]. intros ->. done.
Qed.

(** C10, the code at the failing input and at every other.  On the manager
    [PerformanceManager()] builds, every call of [cached_operation], whatever
    its key, operation, ttl and prefix and however many calls came before,
    raises [TypeError] out of [self.metrics[operation.__name__]]: the
    operation is never awaited, nothing is cached and the manager is left as
    it was built.  So a call whose operation would give [None] does not
    execute it once, where C10 has it executed and cached again on every
    call, and [test_performance_optimization] expects the first call to
    return what its operation gives. *)
Theorem cached_operation_raises_before_running
    (calls : list PerformanceManager.cached_call) :
  PerformanceManager.cached_operations calls [] PerformanceManager.new_manager
  = (replicate (length calls) PerformanceManager.RaisedTypeError,
     PerformanceManager.new_manager)
  /\ PerformanceManager.operations_run
       (PerformanceManager.cached_operations calls []
          PerformanceManager.new_manager).2 = 0%nat
  /\ forall t_get t_set key name run ttl prefix,
       PerformanceManager.cached_operation t_get t_set key name run ttl prefix
         PerformanceManager.new_manager
       = (PerformanceManager.RaisedTypeError, PerformanceManager.new_manager).
Proof.
  assert (forall t_get t_set key name run ttl prefix,
            PerformanceManager.cached_operation t_get t_set key name run ttl
              prefix PerformanceManager.new_manager
            = (PerformanceManager.RaisedTypeError,
               PerformanceManager.new_manager)) as Hone.
  { intros. unfold PerformanceManager.cached_operation.
    change (PerformanceManager.cache PerformanceManager.new_manager)
      with (new_cache 1000 300).
    rewrite get_absent by (cbn; apply lookup_empty).
    change (PerformanceManager.metrics PerformanceManager.new_manager)
      with (∅ : gmap string PerformanceManager.PerformanceMetrics).
    rewrite lookup_empty. done. }
  assert (forall acc,
            PerformanceManager.cached_operations calls acc
              PerformanceManager.new_manager
            = ((replicate (length calls) PerformanceManager.RaisedTypeError
                  ++ acc)%list,
               PerformanceManager.new_manager)) as Hall.
  { induction calls as [|call calls IH]; intros acc; [done|].
    cbn [PerformanceManager.cached_operations]. rewrite Hone, IH.
    f_equal. cbn [length replicate].
    change (PerformanceManager.RaisedTypeError :: acc)
      with ([PerformanceManager.RaisedTypeError] ++ acc)%list.
    rewrite app_assoc. f_equal.
    clear. induction (length calls) as [|n IHn]; [done|].
    cbn [replicate]. by rewrite <- app_comm_cons, IHn. }
  split; [|split; [|done]].
  - by rewrite Hall, app_nil_r.
  - by rewrite Hall.
Qed.

End CacheFacts.

Section CacheScenarios.
Import Cache CacheData.
#[local] Existing Instance ten_bytes.



(** A new cache with a cap of two, the key [k] and the value 7. *)
Lemma cache_ttl_and_lru_witness :
  exists c1,
    set 0 "k" (VInt 7) (Some 1%Q) (new_cache 2 300) = Ret (true, c1)
    /\ (forall t, (t <= 0 + 1)%Q -> exists c2, get t "k" c1 = Ret (VInt 7, c2))
    /\ (forall t, (0 + 1 < t)%Q ->
          exists c2, get t "k" c1 = Ret (VNone, c2) /\ cache c2 !! "k" = None).
Proof.
  refine (proj1 (cache_ttl_and_lru 2 300 [] (new_cache 2 300) 0 "k" (VInt 7)
                   eq_refl _ _)); simpl; lia.
Defined.

(** The scenario of the specification: with a cap of two, [a] then [b] are
    stored, [a] is read, and storing [c] evicts [b], the key used least
    recently; [a] is still there. *)
Lemma third_key_evicts_least_recently_read :
  exists c c',
    after_calls [Set_ 0 "a" (VInt 1) None; Set_ 1 "b" (VInt 2) None;
                 Get 2 "a"] (new_cache 2 300) = Some c
    /\ access_order c = ["b"; "a"]
    /\ set 3 "c" (VInt 3) None c = Ret (true, c')
    /\ cache c' !! "b" = None
    /\ (exists c'', get 4 "a" c' = Ret (VInt 1, c''))
    /\ access_order c' = ["a"; "c"].
Proof.
  eexists _, _. split; [vm_compute; reflexivity|].
  split; [by vm_compute|]. split; [vm_compute; reflexivity|].
  split; [by vm_compute|]. split; [|by vm_compute].
  eexists. vm_compute. reflexivity.
Qed.

End CacheScenarios.


(** ** The connection pool *)

Section PoolFacts.
Import Pool.

Lemma list_pop_None l : list_pop l = None <-> l = [].
Proof.
  unfold list_pop. split.
  - destruct (reverse l) eqn:Hr; [|done]. intros _.
    rewrite <- (reverse_involutive l), Hr. done.
  - by intros ->.
Qed.

Lemma list_pop_Some l c rest : list_pop l = Some (c, rest) -> l = (rest ++ [c])%list.
Proof.
  unfold list_pop. destruct (reverse l) as [|x r] eqn:Hr; [done|].
  intros [= <- <-]. rewrite <- (reverse_involutive l), Hr.
  by rewrite reverse_cons.
Qed.

Lemma size_add_le (X : gset nat) c : (size (X ∪ {[c]}) <= S (size X))%nat.
Proof.
  rewrite size_union_alt.
  assert (size ({[c]} ∖ X) <= size ({[c]} : gset nat))%nat as Hle.
  { apply subseteq_size. intros x Hx. apply elem_of_difference in Hx. tauto. }
  rewrite size_singleton in Hle. lia.
Qed.

Lemma size_remove (X : gset nat) c : c ∈ X -> size X = S (size (X ∖ {[c]})).
Proof.
  intros Hc. rewrite (union_difference_singleton_L c X) at 1 by done.
  rewrite size_union, size_singleton; [done|].
  intros x Hx1 Hx2. apply elem_of_difference in Hx2. tauto.
Qed.

Lemma acquire_bounded fresh p : bounded p -> bounded (snd (acquire fresh p)).
Proof.
  unfold bounded, idle, in_use, acquire. intros Hb.
  destruct (_closed p); [done|].
  destruct (list_pop (_pool p)) as [[c rest]|] eqn:Hpop; simpl.
  - apply list_pop_Some in Hpop. rewrite Hpop, length_app in Hb. simpl in Hb.
    pose proof (size_add_le (_used_connections p) c). lia.
  - apply list_pop_None in Hpop.
    destruct (Z.ltb_spec (Z.of_nat (size (_used_connections p)))
                (max_connections p)); [|done].
    destruct (factory_set p); simpl; [|done].
    destruct fresh as [c|]; simpl; [|done].
    rewrite Hpop. simpl.
    pose proof (size_add_le (_used_connections p) c). lia.
Qed.

Lemma release_bounded c p : bounded p -> bounded (release c p).
Proof.
  unfold bounded, idle, in_use, release. intros Hb.
  destruct (decide (c ∈ _used_connections p)) as [Hc|]; [|done]. simpl.
  pose proof (size_remove _ c Hc).
  destruct (negb (_closed p) && _); [rewrite length_app; simpl|]; lia.
Qed.

Lemma after_call_bounded op p :
  bounded p ->
  bounded (after_call op p)
  /\ max_connections (after_call op p) = max_connections p.
Proof.
  intros Hb. destruct op as [|fresh|c|]; simpl.
  - done.
  - split; [by apply acquire_bounded|]. unfold acquire.
    repeat (case_match; simpl; try done).
  - split; [by apply release_bounded|]. unfold release. by case_match.
  - split; [|done]. unfold bounded, idle, in_use in *.
    cbn [close _pool _used_connections max_connections length].
    rewrite size_empty. lia.
Qed.

Lemma after_calls_bounded ops p :
  bounded p ->
  bounded (after_calls ops p)
  /\ max_connections (after_calls ops p) = max_connections p.
Proof.
  unfold after_calls. revert p.
  induction ops as [|op ops IH]; intros p Hb; simpl; [done|].
  destruct (after_call_bounded op p Hb) as [Hb1 Hm1].
  destruct (IH _ Hb1) as [Hb2 Hm2]. split; [done | congruence].
Qed.

(** C5.  After any calls on a new pool whose maximum is not negative, the
    connections in use are at most [max_connections], and so are the idle
    and the used ones together; and on an open pool with no idle connection
    and [max_connections] in use, [acquire] raises "Connection pool exhausted"
    at once, without awaiting the factory and without changing the pool. *)
Theorem pool_never_exceeds_max (max : Z) (ops : list call) :
  0 <= max ->
  let p := after_calls ops (new_pool max) in
  max_connections p = max
  /\ in_use p <= max
  /\ idle p + in_use p <= max
  /\ (forall fresh,
        _closed p = false -> idle p = 0 -> max <= in_use p ->
        acquire fresh p = (RuntimeError "Connection pool exhausted", p)).
Proof.
  intros Hmax p.
  destruct (after_calls_bounded ops (new_pool max)) as [Hb Hm].
  { unfold bounded, idle, in_use.
    cbn [new_pool _pool _used_connections max_connections length].
    rewrite size_empty. lia. }
  fold p in Hb, Hm. simpl in Hm. unfold bounded in Hb.
  split; [done|]. rewrite Hm in Hb.
  assert (0 <= idle p) by (unfold idle; lia).
  split; [lia|]. split; [done|].
  intros fresh Hopen Hidle Hfull. unfold acquire. rewrite Hopen.
  assert (_pool p = []) as ->.
  { unfold idle in Hidle. destruct (_pool p); [done | simpl in Hidle; lia]. }
  simpl. unfold in_use in Hfull. rewrite Hm.
  destruct (Z.ltb_spec (Z.of_nat (size (_used_connections p))) max); [lia|done].
Qed.

(** The bound holds after five calls on a pool of two connections. *)
Lemma pool_never_exceeds_max_witness :
  let p := after_calls [SetFactory; Acquire (Some 1%nat); Acquire (Some 2%nat);
                        Release 1%nat; Acquire None; Acquire (Some 3%nat)]
             (new_pool 2) in
  max_connections p = 2
  /\ in_use p <= 2
  /\ idle p + in_use p <= 2
  /\ (forall fresh,
        _closed p = false -> idle p = 0 -> 2 <= in_use p ->
        acquire fresh p = (RuntimeError "Connection pool exhausted", p)).
Proof. apply (pool_never_exceeds_max 2). lia. Defined.

(** With a maximum of two, the third [acquire] fails fast and the pool is
    left with two connections in use. *)
Lemma third_acquire_fails_fast :
  let p := after_calls [SetFactory; Acquire (Some 1%nat); Acquire (Some 2%nat)]
             (new_pool 2) in
  in_use p = 2
  /\ acquire (Some 3%nat) p = (RuntimeError "Connection pool exhausted", p).
Proof. by vm_compute. Qed.

End PoolFacts.


(** ** Insertion-ordered dicts *)

Section DictFacts.
Import Py.
Context {V : Type}.

Lemma dict_get_set_eq k (v : V) d : dict_get k (dict_set k v d) = Some v.
Proof.
  induction d as [|[k' v'] d IH]; simpl.
  - by rewrite String.eqb_refl.
  - destruct (String.eqb k k') eqn:Hk; simpl; by rewrite ?String.eqb_refl, ?Hk.
Qed.

Lemma dict_get_set_ne k k' (v : V) d :
  k ≠ k' -> dict_get k' (dict_set k v d) = dict_get k' d.
Proof.
  intros Hne. induction d as [|[k0 v0] d IH]; simpl.
  - destruct (String.eqb_spec k' k); [congruence | done].
  - destruct (String.eqb_spec k k0) as [->|Hk0]; simpl.
    + destruct (String.eqb_spec k' k0); [congruence | done].
    + by rewrite IH.
Qed.

Lemma dict_mem_set k k' (v : V) d :
  dict_mem k' (dict_set k v d) = String.eqb k k' || dict_mem k' d.
Proof.
  unfold dict_mem. destruct (String.eqb_spec k k') as [->|Hne]; simpl.
  - by rewrite dict_get_set_eq.
  - by rewrite dict_get_set_ne.
Qed.

End DictFacts.

(** ** Parameter validation *)

Section Validation.
Import MCPClient.
Context `{Builtins}.

(** A digit string declared integer becomes the int it spells. *)
Lemma digits_become_int s :
  Py.isdigit s = true ->
  _convert_parameter_type (VStr s) "integer" = Converted (VInt (Py.int_of_str s)).
Proof. intros Hd. unfold _convert_parameter_type. simpl. by rewrite Hd. Qed.

(** Whatever the value and the declared type, a conversion gives a value,
    a [ValueError] that [validate_parameters] turns into an error text, or
    the [OverflowError] of [float] on an int too large for a double. *)
Lemma conversion_raises_only_overflow v t :
  _convert_parameter_type v t = OverflowError ->
  t = "number" /\ exists z, v = VInt z /\ 2 ^ 1024 <= Z.abs z.
Proof.
  unfold _convert_parameter_type.
  destruct (String.eqb_spec t "integer") as [->|_].
  { destruct v; try done. by destruct (Py.isdigit s). }
  destruct (String.eqb_spec t "boolean") as [->|_].
  { destruct v; try done. repeat case_match; done. }
  destruct (String.eqb_spec t "number") as [->|_]; [|done].
  unfold py_float. destruct v as [|b|z|q|s|r]; try done.
  - destruct (Z.ltb_spec (Z.abs z) (2 ^ 1024)); [done|]. eauto.
  - by destruct (float_of_str s).
Qed.

(** The second loop keeps every name the schema does not know, with its
    value as supplied. *)
Lemma convert_all_appends parameters todo errors converted errors' converted' :
  convert_all parameters todo errors converted = Some (errors', converted') ->
  exists more, errors' = (errors ++ more)%list.
Proof.
  revert errors converted. induction todo as [|[n v] todo IH];
    intros errors converted; simpl.
  - intros [= <- <-]. exists []. by rewrite app_nil_r.
  - destruct (Py.dict_get n parameters) as [param_def|].
    + destruct (_convert_parameter_type v _); [| |done].
      * apply IH.
      * intros (more & ->)%IH. eexists. by rewrite <- app_assoc.
    + apply IH.
Qed.

Lemma convert_all_unknown parameters todo errors converted errors' converted' n v :
  convert_all parameters todo errors converted = Some (errors', converted') ->
  Py.dict_get n parameters = None -> Py.dict_get n todo = Some v ->
  NoDup todo.*1 ->
  Py.dict_get n converted' = Some v.
Proof.
  revert errors converted. induction todo as [|[n0 v0] todo IH];
    intros errors converted Hrun Hunknown Hin Hnd; simpl in *; [done|].
  apply NoDup_cons in Hnd as [Hn0 Hnd].
  assert (forall e c, convert_all parameters todo e c = Some (errors', converted') ->
                      n ≠ n0 -> Py.dict_get n todo = Some v ->
                      Py.dict_get n converted' = Some v) as Hrest.
  { intros e c Hr _ Hg. by apply (IH e c). }
  assert (forall todo' e c e' c',
            convert_all parameters todo' e c = Some (e', c') ->
            n0 ∉ todo'.*1 -> Py.dict_get n0 c' = Py.dict_get n0 c) as Hkeep.
  { clear. induction todo' as [|[m x] todo' IH]; intros e c e' c' Hr Hm; simpl in *.
    - by injection Hr as <- <-.
    - apply not_elem_of_cons in Hm as [Hne Hm].
      destruct (Py.dict_get m parameters).
      + destruct (_convert_parameter_type x _); [| |done].
        * rewrite (IH _ _ _ _ Hr Hm). by apply dict_get_set_ne.
        * by apply (IH _ _ _ _ Hr Hm).
      + rewrite (IH _ _ _ _ Hr Hm). by apply dict_get_set_ne. }
  destruct (String.eqb_spec n n0) as [->|Hne].
  - injection Hin as ->. rewrite Hunknown in Hrun.
    rewrite (Hkeep _ _ _ _ _ Hrun Hn0). apply dict_get_set_eq.
  - destruct (Py.dict_get n0 parameters).
    + destruct (_convert_parameter_type v0 _); [| |done]; eauto.
    + eauto.
Qed.

Lemma missing_required_named required params r :
  r ∈ required -> Py.dict_mem r params = false ->
  ("Required parameter '" +:+ r +:+ "' is missing")
    ∈ missing_required required params.
Proof.
  intros Hr Hm. unfold missing_required.
  apply list_elem_of_fmap. exists r. split; [done|].
  apply list_elem_of_In, filter_In. split; [by apply list_elem_of_In|].
  by rewrite Hm.
Qed.

(** A call that omits a required parameter fails with a text that names
    it, unless a conversion raises first, and the world is as it was: no call
    went over the transport. *)
Lemma missing_required_fails_without_call `{Env W} tool params client (w : W)
    server target sch r :
  _select_server_for_tool tool (Some server) client = Some target ->
  _find_tool_schema tool (Some (name target)) client = Some sch ->
  r ∈ required sch -> Py.dict_mem r params = false ->
  (execute_tool_with_retry tool params (Some server) client w = (None, w))
  \/ exists errors,
       ("Required parameter '" +:+ r +:+ "' is missing") ∈ errors
       /\ execute_tool_with_retry tool params (Some server) client w
          = (Some (failure ("Parameter validation failed: "
                            +:+ Py.join "; " errors)
                     tool (name target) 0), w).
Proof.
  intros Hsel Hfind Hr Hm.
  unfold execute_tool_with_retry, validate_parameters.
  rewrite Hsel, Hfind.
  destruct (convert_all _ _ _ _) as [[errors converted]|] eqn:Hconv; [|by left].
  right. exists errors.
  apply convert_all_appends in Hconv as (more & ->).
  pose proof (missing_required_named _ _ _ Hr Hm) as Hin.
  split; [apply elem_of_app; by left|].
  simpl. destruct (missing_required _ _) as [|e es]; [by apply not_elem_of_nil in Hin|].
  done.
Qed.

End Validation.

Section ValidationScenarios.
Import MCPClient ClientData.
#[local] Existing Instance plain_builtins.
#[local] Existing Instance recording.

(** The scenarios of the specification that hold: the string "42" for an
    integer parameter reaches the transport as the int 42, next to a
    parameter the schema does not know; omitting the required parameter fails
    with a text that names it, and nothing reaches the transport. *)
Lemma coercion_scenarios :
  execute_tool_with_retry "trigger_build"
    [("build_number", VStr "42"); ("branch", VStr "main")] (Some "jenkins")
    one_server []
  = (Some {| success := true; data := VStr "ok"; error := None;
             tool_name := "trigger_build"; execution_time_ms := 0;
             server_name := "jenkins" |},
     [("jenkins", "trigger_build",
       [("build_number", VInt 42); ("branch", VStr "main")])])
  /\ execute_tool_with_retry "trigger_build" [("wait", VStr "yes")]
       (Some "jenkins") one_server []
     = (Some (failure
                "Parameter validation failed: Required parameter 'build_number' is missing"
                "trigger_build" "jenkins" 0), []).
Proof. split; by vm_compute. Qed.

(** C4 fails on this input.  The parameter [wait] is declared boolean and
    the int 1 is supplied: validation reports no error, and the value that
    reaches the transport is [None], neither a boolean nor a parameter
    error. *)
Theorem boolean_parameter_given_int_becomes_none :
  _convert_parameter_type (VInt 1) "boolean" = Converted VNone
  /\ validate_parameters "trigger_build"
       [("build_number", VInt 7); ("wait", VInt 1)] (Some "jenkins") one_server
     = Some {| valid := true; errors := [];
               converted_params := [("build_number", VInt 7); ("wait", VNone)] |}
  /\ execute_tool_with_retry "trigger_build"
       [("build_number", VInt 7); ("wait", VInt 1)] (Some "jenkins")
       one_server []
     = (Some {| success := true; data := VStr "ok"; error := None;
                tool_name := "trigger_build"; execution_time_ms := 0;
                server_name := "jenkins" |},
        [("jenkins", "trigger_build",
          [("build_number", VInt 7); ("wait", VNone)])]).
Proof. repeat split; by vm_compute. Qed.

End ValidationScenarios.

(** ** Capability discovery *)

Section Discovery.
Import MCPClient.
Context `{Env W}.

Lemma collect_tools_named server listed tools0 cache0 :
  forallb has_name listed = true ->
  exists cache1,
    collect_tools server listed tools0 cache0
    = inl ((tools0 ++ (normalize_tool_schema <$> listed))%list, cache1).
Proof.
  revert tools0 cache0. induction listed as [|tool listed IH];
    intros tools0 cache0 Hall; simpl.
  - eexists. by rewrite app_nil_r.
  - simpl in Hall. apply andb_true_iff in Hall as [Hname Hall].
    destruct tool as [n d i| |]; try done.
    destruct (IH (tools0 ++ [normalize_tool_schema (ToolObject n d i)])%list
                 (Py.dict_set (tool_key server n)
                    (normalize_tool_schema (ToolObject n d i)) cache0) Hall)
      as (cache1 & ->).
    eexists. by rewrite <- app_assoc.
Qed.

Lemma discover_reachable server info listed client (w : W) :
  reachable server info listed ->
  exists cache1 w',
    discover_server_capabilities server client w
    = (discovered server info listed,
       record_capabilities (name server) (discovered server info listed)
         cache1 client, w').
Proof.
  intros (Hhttp & Hnamed & Hlist). unfold discover_server_capabilities.
  rewrite Hhttp. simpl. specialize (Hlist w).
  destruct (list_tools server w) as [l w']. simpl in Hlist. subst l.
  destruct (collect_tools_named (name server) listed [] (_tools_cache client) Hnamed)
    as (cache1 & ->).
  by exists cache1, w'.
Qed.


(** Whatever happens to [server], the entries of the other servers stay. *)
Lemma discover_frame server client (w : W) n :
  n ≠ name server ->
  let client' := (discover_server_capabilities server client w).1.2 in
  Py.dict_get n (capabilities client') = Py.dict_get n (capabilities client)
  /\ _server_health client' !! n = _server_health client !! n.
Proof.
  intros Hne. unfold discover_server_capabilities.
  destruct (is_http (transport server)); [|done].
  destruct (list_tools server w) as [[info listed|e] w']; simpl.
  - destruct (collect_tools _ _ _ _) as [[tools cache1]|cache1]; simpl.
    + split; [apply dict_get_set_ne | apply lookup_insert_ne]; congruence.
    + split; [done | apply lookup_insert_ne; congruence].
  - split; [done | apply lookup_insert_ne; congruence].
Qed.


Lemma discover_each_frame todo client (w : W) n :
  n ∉ name <$> todo ->
  let client' := (discover_each todo client w).1 in
  Py.dict_get n (capabilities client') = Py.dict_get n (capabilities client)
  /\ _server_health client' !! n = _server_health client !! n.
Proof.
  revert client w. induction todo as [|server todo IH]; intros client w Hn;
    simpl; [done|].
  rewrite fmap_cons in Hn. apply not_elem_of_cons in Hn as [Hne Hn].
  destruct (discover_server_capabilities server client w) as [[r client1] w1] eqn:Hd.
  destruct (IH client1 w1 Hn) as [-> ->].
  pose proof (discover_frame server client w n Hne) as Hf.
  by rewrite Hd in Hf.
Qed.


Lemma discover_each_reachable todo client (w : W) A info listed :
  NoDup (name <$> todo) -> A ∈ todo -> reachable A info listed ->
  let client' := (discover_each todo client w).1 in
  Py.dict_get (name A) (capabilities client') = Some (discovered A info listed)
  /\ _server_health client' !! name A = Some true.
Proof.
  revert client w. induction todo as [|server todo IH];
    intros client w Hnd HA Hreach; [by apply not_elem_of_nil in HA|].
  rewrite fmap_cons in Hnd. apply NoDup_cons in Hnd as [Hfresh Hnd].
  simpl.
  destruct (discover_server_capabilities server client w) as [[r client1] w1] eqn:Hd.
  apply elem_of_cons in HA as [<-|HA].
  - destruct (discover_each_frame todo client1 w1 (name A) Hfresh) as [-> ->].
    destruct (discover_reachable A info listed client w Hreach)
      as (cache1 & w' & Hd').
    rewrite Hd in Hd'. injection Hd' as _ -> _. simpl.
    split; [apply dict_get_set_eq | apply lookup_insert_eq].
  - by apply IH.
Qed.



End Discovery.

Section DiscoveryScenarios.
Import MCPClient ClientData.
#[local] Existing Instance only_a_answers.



(** The same discovery, computed: the result holds the two tools of [A]
    after the capabilities [B] had before. *)
Lemma discovery_of_a_and_b :
  (discover_all_servers two_servers tt).1.1
  = [("B", {| caps_server_name := "B"; version := "1.0";
              transport_types := [HTTP];
              tools := [normalize_tool_schema (ToolObject "list_jobs" None None)];
              metadata := VNone |});
     ("A", {| caps_server_name := "A"; version := "unknown";
              transport_types := [HTTP];
              tools := normalize_tool_schema <$> tools_of_a;
              metadata := VNone |})].
Proof. by vm_compute. Qed.

End DiscoveryScenarios.


(** ** The head of a list sorted into descending order *)

Section SortFacts.
Import Sorting.
Context {A : Type} (lt : A -> A -> bool).
Hypothesis lt_asym : forall a b, lt a b = true -> lt b a = false.
Hypothesis lt_negtrans :
  forall a b c, lt a b = false -> lt b c = false -> lt a c = false.

Lemma lt_irrefl a : lt a a = false.
Proof. destruct (lt a a) eqn:E; [|done]. by rewrite (lt_asym _ _ E) in E. Qed.

Lemma insert_desc_head x l :
  head (insert_desc lt x l)
  = match head l with
    | Some y => if lt x y then Some y else Some x
    | None => Some x
    end.
Proof. destruct l as [|y l]; simpl; [done|]. by destruct (lt x y). Qed.

(** The first element after sorting is the first of the greatest elements
    of the list: everything before it is smaller, nothing is greater. *)
Lemma sort_desc_head l :
  match head (sort_desc lt l) with
  | None => l = []
  | Some best =>
      exists before after,
        l = (before ++ best :: after)%list
        /\ (forall x, x ∈ before -> lt x best = true)
        /\ (forall x, x ∈ l -> lt best x = false)
  end.
Proof.
  induction l as [|x l IH]; simpl; [done|].
  rewrite insert_desc_head.
  destruct (head (sort_desc lt l)) as [h|].
  - destruct IH as (before & after & -> & Hbefore & Hmax).
    destruct (lt x h) eqn:Hxh.
    + exists (x :: before), after. split; [done|]. split.
      * intros y [->|Hy]%elem_of_cons; [done | by apply Hbefore].
      * intros y [->|Hy]%elem_of_cons; [by apply lt_asym | by apply Hmax].
    + exists [], (before ++ h :: after)%list. split; [done|]. split.
      * intros y Hy. by apply not_elem_of_nil in Hy.
      * intros y [->|Hy]%elem_of_cons; [apply lt_irrefl|].
        eapply lt_negtrans; [exact Hxh | by apply Hmax].
  - subst l. exists [], []. split; [done|]. split.
    + intros y Hy. by apply not_elem_of_nil in Hy.
    + intros y ->%list_elem_of_singleton. apply lt_irrefl.
Qed.

End SortFacts.

(** ** Server selection *)

Section Selection.
Import Registry.

Lemma key_lt_true a b : key_lt a b = true <-> above b a.
Proof.
  unfold key_lt, above.
  rewrite orb_true_iff, andb_true_iff, !Qltb_lt, Qeq_bool_iff.
  split; (intros [?|[? ?]]; [left | right]); try done; split; try done; lra.
Qed.

Lemma key_lt_false a b : key_lt a b = false <-> not_below a b.
Proof.
  unfold not_below. split.
  - intros Hlt.
    assert (~ above b a) as Hn by (rewrite <- key_lt_true; congruence).
    unfold above in Hn.
    destruct (Qlt_le_dec (score b) (score a)) as [?|Hle]; [by left|].
    right. destruct (Qlt_le_dec (score a) (score b)) as [?|Hge]; [tauto|].
    assert (score a == score b)%Q by lra. split; [done|].
    destruct (Qlt_le_dec (cand_last_success a) (cand_last_success b)); [|done].
    exfalso. apply Hn. right. split; [lra | done].
  - intros Hnb. destruct (key_lt a b) eqn:Hlt; [|done].
    apply key_lt_true in Hlt. unfold above in Hlt.
    destruct Hnb as [?|[? ?]], Hlt as [?|[? ?]]; lra.
Qed.

Lemma key_lt_asym a b : key_lt a b = true -> key_lt b a = false.
Proof.
  rewrite key_lt_true, key_lt_false. unfold above, not_below.
  intros [?|[? ?]]; [left | right]; [done | split; lra].
Qed.

Lemma key_lt_negtrans a b c :
  key_lt a b = false -> key_lt b c = false -> key_lt a c = false.
Proof.
  rewrite !key_lt_false. unfold not_below.
  intros [?|[? ?]] [?|[? ?]]; try (left; lra). right. split; lra.
Qed.

(** The candidates are the servers of the tool index that offer the tool
    and have a performance entry, in the order of the index. *)
Lemma elem_of_candidate_servers c tool reg :
  c ∈ candidate_servers tool reg
  <-> exists server tools performance,
        (server, tools) ∈ server_tools reg /\ tool ∈ tools
        /\ performance_metrics reg !! MCPClient.tool_key server tool
           = Some performance
        /\ c = {| cand_server_name := server; cand_tool_name := tool;
                  score := score_of performance;
                  cand_last_success := last_success performance |}.
Proof.
  unfold candidate_servers. rewrite list_elem_of_omap. split.
  - intros ([server tools] & Hin & Hc).
    destruct (decide (tool ∈ tools)); [|done].
    destruct (performance_metrics reg !! _) as [p|] eqn:Hp; [|done].
    injection Hc as <-. by exists server, tools, p.
  - intros (server & tools & p & Hin & Htool & Hp & ->).
    exists (server, tools). split; [done|].
    rewrite decide_True by done. by rewrite Hp.
Qed.

(** C6, as the code has it.  The candidates for a tool are the servers of
    the registry's tool index that offer the tool and have a performance
    entry; what the client knows of a server, enabled or not, healthy or not,
    plays no part.  Each is scored [success_rate * 0.7 + (1000 /
    max(avg_response_time_ms, 1)) * 0.3], the success rate being 0.5 without
    history.  The pair returned names the candidate with the highest score,
    the most recent last success among equal scores, and the first in the
    order of the index among those that tie on both; so the choice is a
    function of the registry. *)
Theorem best_server_is_top_scored (tool : string) (reg : ToolRegistry) :
  (forall client,
     _find_best_server_for_tool tool
       {| mcp_client := client; tool_mappings := tool_mappings reg;
          performance_metrics := performance_metrics reg;
          server_tools := server_tools reg;
          fallback_chains := fallback_chains reg |}
     = _find_best_server_for_tool tool reg)
  /\ (forall c,
       c ∈ candidate_servers tool reg
       <-> exists server tools performance,
             (server, tools) ∈ server_tools reg /\ tool ∈ tools
             /\ performance_metrics reg !! MCPClient.tool_key server tool
                = Some performance
             /\ c = {| cand_server_name := server; cand_tool_name := tool;
                       score := (success_rate performance * 0.7
                                 + (1000 / Qmax (avg_response_time_ms performance) 1)
                                   * 0.3)%Q;
                       cand_last_success := last_success performance |})
  /\ (forall performance,
       success_count performance + failure_count performance <= 0 ->
       success_rate performance = 0.5%Q)
  /\ match _find_best_server_for_tool tool reg with
     | None => candidate_servers tool reg = []
     | Some (t, s) =>
         t = tool
         /\ exists before best after,
              candidate_servers tool reg = (before ++ best :: after)%list
              /\ cand_server_name best = s
              /\ (forall c, c ∈ before -> above best c)
              /\ (forall c, c ∈ candidate_servers tool reg -> not_below best c)
     end.
Proof.
  split; [done|]. split; [intros c; apply (elem_of_candidate_servers c tool reg)|].
  split.
  { intros p Hp. unfold success_rate.
    destruct (Z.ltb_spec 0 (success_count p + failure_count p)); [lia | done]. }
  unfold _find_best_server_for_tool.
  pose proof (sort_desc_head key_lt key_lt_asym key_lt_negtrans
                (candidate_servers tool reg)) as Hhead.
  destruct (Sorting.sort_desc key_lt (candidate_servers tool reg)) as [|best rest];
    simpl in Hhead; [done|].
  destruct Hhead as (before & after & Hsplit & Hbefore & Hmax).
  split.
  - assert (best ∈ candidate_servers tool reg) as Hin.
    { rewrite Hsplit. apply elem_of_app. right. by left. }
    apply elem_of_candidate_servers in Hin as (? & ? & ? & _ & _ & _ & ->).
    done.
  - exists before, best, after. split; [done|]. split; [done|]. split.
    + intros c Hc. apply key_lt_true. by apply Hbefore.
    + intros c Hc. apply key_lt_false. by apply Hmax.
Qed.

End Selection.

Section SelectionScenarios.
Import Registry RegistryData.

(** C6 does not hold as stated: the server selected for [list_jobs] is
    [B], which the client holds disabled and unhealthy, because its score is
    the higher one; [A], enabled and healthy, is passed over. *)
Lemma unhealthy_server_is_selected :
  _find_best_server_for_tool "list_jobs" two_candidates = Some ("list_jobs", "B")
  /\ MCPClient._server_health (mcp_client two_candidates) !! "B" = Some false
  /\ (forall s, s ∈ MCPClient.servers (mcp_client two_candidates) ->
                MCPClient.name s = "B" -> MCPClient.enabled s = false).
Proof.
  split; [by vm_compute|]. split; [by vm_compute|].
  intros s Hs Hname.
  apply elem_of_cons in Hs as [->|Hs]; [discriminate Hname|].
  apply list_elem_of_singleton in Hs as ->. reflexivity.
Qed.

End SelectionScenarios.

(** ** Performance tracking *)

Section Tracking.
Import Registry.
Context `{Builtins} `{MCPClient.Env W}.






End Tracking.

(** ** Execution with fallback *)

Section Fallback.
Import Registry.
Context `{Builtins} `{MCPClient.Env W}.

(** The loop over the fallbacks leaves with a response only when that
    response reports success. *)
Lemma try_fallbacks_success todo params reg (w : W) r reg' w' :
  try_fallbacks todo params reg w = (Some r, reg', w') ->
  MCPClient.success r = true.
Proof.
  revert reg w. induction todo as [|fallback_tool todo IH]; intros reg w;
    simpl; [done|].
  destruct (_find_best_server_for_tool fallback_tool reg) as [[ft fs]|];
    [|apply IH].
  destruct (_execute_tool_with_tracking ft params fs reg w) as [[fr reg1] w1].
  destruct (MCPClient.success fr) eqn:Hfr; [|apply IH].
  by intros [= <- _ _].
Qed.

(** C2, as the code has it.  When a tool is selected for the intent, a
    response of [execute_with_fallback] that reports failure is the response
    of the primary attempt, however many fallbacks were attempted after it
    and whatever they answered; a response that reports success is the
    primary one or the first successful fallback's.  Without a tool for the
    intent the response is a failure that says so. *)
Theorem fallback_failure_is_the_primary_failure (intent : string)
    (params : Py.dict PyVal) (reg : ToolRegistry) (w : W) :
  let response := (execute_with_fallback intent params reg w).1.1 in
  match select_optimal_tool intent reg with
  | None =>
      MCPClient.success response = false
      /\ MCPClient.error response
         = Some ("No available tool for intent: " +:+ intent)
  | Some (tool, server) =>
      let '(primary, reg1, w1) :=
        _execute_tool_with_tracking tool params server reg w in
      (MCPClient.success response = false -> response = primary)
      /\ (MCPClient.success primary = true -> response = primary)
      /\ (forall chain,
            MCPClient.success primary = false ->
            fallback_chains reg1 !! tool = Some chain ->
            match try_fallbacks (fallbacks chain) params reg1 w1 with
            | (Some fallback_response, _, _) =>
                response = fallback_response
                /\ MCPClient.success fallback_response = true
            | (None, _, _) => response = primary
            end)
  end.
Proof.
  intros response. unfold response, execute_with_fallback.
  destruct (select_optimal_tool intent reg) as [[tool server]|]; [|done].
  destruct (_execute_tool_with_tracking tool params server reg w)
    as [[primary reg1] w1].
  destruct (fallback_chains reg1 !! tool) as [chain|] eqn:Hchain.
  - destruct (MCPClient.success primary) eqn:Hprimary; simpl.
    + split; [done|]. split; [done|]. done.
    + destruct (try_fallbacks (fallbacks chain) params reg1 w1)
        as [[[fr|] reg2] w2] eqn:Htry; simpl.
      * pose proof (try_fallbacks_success _ _ _ _ _ _ _ Htry) as Hfr.
        split; [congruence|]. split; [done|].
        intros chain' _ [= <-]. by rewrite Htry.
      * split; [done|]. split; [done|].
        intros chain' _ [= <-]. by rewrite Htry.
  - simpl. split; [done|]. split; [done|]. done.
Qed.

End Fallback.

Section RegistryScenarios.
Import Registry ClientData RegistryData.
#[local] Existing Instance plain_builtins.
#[local] Existing Instance one_second_calls.

(** C2 does not hold as stated.  [list_jobs] fails, its fallback
    [search_jobs] is attempted and fails too, the other fallbacks have no
    server: the response returned carries the error of [list_jobs], the first
    attempt, not that of [search_jobs], the last attempt made. *)
Lemma exhausted_fallbacks_return_first_failure :
  let '(response, reg', w') :=
    execute_with_fallback "list_jobs" [] jobs_registry 0%Q in
  MCPClient.success response = false
  /\ MCPClient.tool_name response = "list_jobs"
  /\ MCPClient.error response = Some "Tool execution error: list_jobs is down"
  /\ error_patterns <$> performance_metrics reg' !! "jenkins:search_jobs"
     = Some ["Tool execution error: search_jobs is down"]
  /\ failure_count <$> performance_metrics reg' !! "jenkins:search_jobs"
     = Some 1
  /\ (w' == 2)%Q.
Proof. by vm_compute. Qed.


(** The scenario of the specification: when [search_jobs] answers, the
    failure of [list_jobs] is followed by the success of its fallback, which
    is the response returned. *)
Lemma fallback_success_is_returned :
  let answering : MCPClient.Env Q :=
    {| MCPClient.time := λ w, w;
       MCPClient.sleep := λ d w, (w + d)%Q;
       MCPClient.call_tool := λ server tool params w,
         (if String.eqb tool "search_jobs"
          then MCPClient.ToolResult false (VStr "[]")
          else MCPClient.ToolResult true (VStr "network error"),
          (w + 1)%Q);
       MCPClient.list_tools := λ _ w, (MCPClient.Unreachable "not listed", w) |} in
  let response :=
    (@execute_with_fallback plain_builtins Q answering "list_jobs" []
       jobs_registry 0%Q).1.1 in
  MCPClient.success response = true
  /\ MCPClient.tool_name response = "search_jobs"
  /\ MCPClient.data response = VStr "[]".
Proof. by vm_compute. Qed.

End RegistryScenarios.


(** * Further properties *)

(** ** The cache: refused writes, expiry, deletion, cleanup, statistics *)

Lemma filter_ext_in {A} (P Q : A -> Prop) `{!forall x, Decision (P x)}
    `{!forall x, Decision (Q x)} (l : list A) :
  (forall x, x ∈ l -> P x <-> Q x) -> filter P l = filter Q l.
Proof.
  induction l as [|a l IH]; intros Hext; [done|].
  assert (filter P l = filter Q l) as Hl
    by (apply IH; intros x Hx; apply Hext; by right).
  destruct (decide (P a)) as [Hp|Hp].
  - rewrite (filter_cons_True P) by done.
    rewrite (filter_cons_True Q) by (apply Hext; [by left | done]).
    by rewrite Hl.
  - rewrite (filter_cons_False P) by done.
    rewrite (filter_cons_False Q); [done|].
    intros Hq. apply Hp, Hext; [by left | done].
Qed.

Section CacheCalls.
Import Cache.
Context `{Serializer}.

Lemma reached_within_limits max ttl0 ops c :
  0 <= max -> after_calls ops (new_cache max ttl0) = Some c -> within_limits c.
Proof.
  intros Hmax Hrun.
  destruct (after_calls_spec ops (new_cache max ttl0) (wf_new max ttl0))
    as (c' & Hrun' & _ & Hlim & _).
  rewrite Hrun in Hrun'. injection Hrun' as <-.
  apply Hlim, within_limits_new, Hmax.
Qed.

Lemma wf_bytes_nonneg c : wf c -> 0 <= _size_bytes c.
Proof.
  intros Hwf. rewrite (wf_bytes c Hwf).
  apply total_bytes_nonneg. intros k it. apply (wf_sizes c Hwf).
Qed.

(** What [set] returns, and why. *)
Lemma set_answer now k v ttl c :
  wf c ->
  exists b c',
    set now k v ttl c = Ret (b, c')
    /\ wf c'
    /\ (b = false <->
        max_size c <= 0 \/ _max_size_bytes c < Z.of_N (payload_size v))
    /\ (b = false ->
        cache c' = ∅ /\ access_order c' = [] /\ _size_bytes c' = 0).
Proof.
  intros Hwf.
  destruct (set_spec now k v ttl c Hwf) as (b & c' & Hset & Hdone).
  exists b, c'. split; [done|]. split; [apply (sd_wf _ _ _ _ _ _ _ Hdone)|].
  destruct (sd_evicted _ _ _ _ _ _ _ Hdone) as (c1 & n & _ & Hroom & Hfalse & _).
  split; [split|].
  - intros ->. apply (rm_no_room _ _ _ _ _ Hroom). done.
  - intros Hno. destruct b; [|done]. exfalso.
    destruct (rm_room _ _ _ _ _ Hroom eq_refl) as [Hcount Hbytes].
    pose proof (wf_bytes_nonneg c1 (rm_wf _ _ _ _ _ Hroom)).
    lia.
  - intros ->. rewrite (Hfalse eq_refl).
    destruct (rm_no_room _ _ _ _ _ Hroom eq_refl) as [Horder _].
    destruct (wf_empty_order c1 (rm_wf _ _ _ _ _ Hroom) Horder) as [-> ->].
    done.
Qed.

(** The cache after [_remove_item] of each listed key. *)
Lemma remove_all_lookup keys c k :
  cache (foldl (λ c' k', _remove_item k' c') c keys) !! k
  = if decide (k ∈ keys) then None else cache c !! k.
Proof.
  revert c. induction keys as [|k0 keys IH]; intros c.
  - destruct (decide (k ∈ [])) as [Hin|_]; [|done].
    by apply elem_of_nil in Hin.
  - change (foldl (λ c' k', _remove_item k' c') c (k0 :: keys))
      with (foldl (λ c' k', _remove_item k' c') (_remove_item k0 c) keys).
    rewrite IH, remove_cache.
    destruct (decide (k ∈ keys)) as [Hin|Hout];
      destruct (decide (k ∈ k0 :: keys)) as [Hin'|Hout']; try done.
    + exfalso. apply Hout'. by right.
    + apply elem_of_cons in Hin' as [->|Hin']; [|done].
      by rewrite lookup_delete_eq.
    + rewrite lookup_delete_ne; [done|]. intros ->. apply Hout'. by left.
Qed.

Lemma remove_all_wf keys c :
  wf c -> wf (foldl (λ c' k', _remove_item k' c') c keys).
Proof.
  revert c. induction keys as [|k0 keys IH]; intros c Hwf; simpl; [done|].
  apply IH, wf_remove, Hwf.
Qed.

Lemma remove_all_order keys c :
  wf c ->
  access_order (foldl (λ c' k', _remove_item k' c') c keys)
  = filter (λ k, k ∉ keys) (access_order c).
Proof.
  revert c. induction keys as [|k0 keys IH]; intros c Hwf; simpl.
  - induction (access_order c) as [|a l IHl]; [done|].
    rewrite filter_cons_True by apply not_elem_of_nil. by rewrite <- IHl.
  - rewrite IH by (by apply wf_remove). rewrite remove_order by done.
    unfold od_pop. rewrite list_filter_filter. apply list_filter_iff.
    intros x. rewrite not_elem_of_cons. tauto.
Qed.

Lemma expired_keys_spec now (c : IntelligentCache) k :
  k ∈ (filter (λ kv, is_expired now kv.2 = true) (map_to_list (cache c))).*1
  <-> exists it, cache c !! k = Some it /\ is_expired now it = true.
Proof.
  rewrite list_elem_of_fmap. split.
  - intros ([k' it] & -> & Hin). apply list_elem_of_filter in Hin as [Hexp Hin].
    apply elem_of_map_to_list in Hin. by exists it.
  - intros (it & Hk & Hexp). exists (k, it). split; [done|].
    apply list_elem_of_filter. split; [done|]. by apply elem_of_map_to_list.
Qed.

(** The loop of [set] evicts once when only the item cap stands in the
    way. *)
Lemma make_room_once size fuel c lru rest il :
  wf c -> access_order c = lru :: rest -> cache c !! lru = Some il ->
  Z.of_nat (base.size (cache c)) = max_size c ->
  _size_bytes c - size_bytes il + size <= _max_size_bytes c ->
  make_room (S (S fuel)) size c = Some (true, _remove_item lru c).
Proof.
  intros Hwf Horder Hlru Hfull Hbytes.
  assert (cache (_remove_item lru c) = delete lru (cache c)) as Hcache
    by apply remove_cache.
  assert (_size_bytes (_remove_item lru c) = _size_bytes c - size_bytes il)
    as Hsize by (unfold _remove_item; by rewrite Hlru).
  destruct (remove_limits lru c) as (Hms & _ & Hmb).
  assert (base.size (cache c) = S (base.size (delete lru (cache c)))) as Hcount.
  { rewrite <- (insert_id (cache c) lru il) at 1 by done.
    rewrite <- insert_delete_eq. rewrite map_size_insert_None; [done|].
    apply lookup_delete_eq. }
  cbn [make_room].
  replace (max_size c <=? Z.of_nat (base.size (cache c))) with true
    by (symmetry; apply Z.leb_le; lia).
  cbn [orb]. rewrite (evict_lru_cons c lru rest Horder).
  rewrite Hms, Hmb, Hcache, Hsize.
  replace (max_size c <=? Z.of_nat (base.size (delete lru (cache c))))
    with false by (symmetry; apply Z.leb_gt; lia).
  replace (_max_size_bytes c <? _size_bytes c - size_bytes il + size)
    with false by (symmetry; apply Z.ltb_ge; lia).
  done.
Qed.

(** X1.  A [set] that cannot make room returns [False] only after it has
    evicted every item.  On a cache reached by any calls from a new one,
    [set] returns [False] exactly when the item cap is not positive or the
    value alone is larger than the byte budget, and the cache it leaves is
    empty: every [get] is a miss. *)
Theorem refused_set_empties_cache (max : Z) (ttl0 : Q) (ops : list call)
    (c : IntelligentCache) (now : Q) (k : string) (v : PyVal)
    (ttl : option Q) :
  after_calls ops (new_cache max ttl0) = Some c ->
  exists b c',
    set now k v ttl c = Ret (b, c')
    /\ (b = false <-> max <= 0 \/ 100 * 1024 * 1024 < Z.of_N (payload_size v))
    /\ (b = false ->
        cache c' = ∅ /\ access_order c' = [] /\ _size_bytes c' = 0
        /\ forall t k', get t k' c' = Ret (VNone, c')).
Proof.
  intros Hrun.
  destruct (reached_well_formed max ttl0 ops c Hrun) as (Hwf & Hms & Hmb).
  destruct (set_answer now k v ttl c Hwf) as (b & c' & Hset & _ & Hiff & Hempty).
  exists b, c'. rewrite Hms, Hmb in Hiff. split; [done|]. split; [done|].
  intros Hb. destruct (Hempty Hb) as (Hc & Ho & Hs).
  repeat split; try done.
  intros t k'. apply get_absent. by rewrite Hc.
Qed.

(** X2.  A time to live of zero or less means no expiry.  When the [ttl]
    given to [set], or the default that stands in for [None], is not
    positive, the item is stored without an expiry instant, and a [get] at
    any later instant whatever still returns the value. *)
Theorem item_without_positive_ttl_never_expires (max : Z) (ttl0 : Q)
    (ops : list call) (c : IntelligentCache) (now : Q) (k : string)
    (v : PyVal) (ttl : option Q) :
  after_calls ops (new_cache max ttl0) = Some c ->
  0 < max -> Z.of_N (payload_size v) <= 100 * 1024 * 1024 ->
  (ttl_or_default ttl c <= 0)%Q ->
  exists c1 it,
    set now k v ttl c = Ret (true, c1)
    /\ cache c1 !! k = Some it /\ expires_at it = None
    /\ forall t, exists c2, get t k c1 = Ret (v, c2).
Proof.
  intros Hrun Hmax Hfit Httl.
  destruct (reached_well_formed max ttl0 ops c Hrun) as (Hwf & Hms & Hmb).
  destruct (set_succeeds now k v ttl c Hwf) as (c1 & Hset & Hwf1 & Hk & _);
    [lia | lia |].
  exists c1, (stored_item now k v (ttl_or_default ttl c)).
  assert (expires_at (stored_item now k v (ttl_or_default ttl c)) = None)
    as Hnone.
  { cbn [stored_item expires_at].
    destruct (Qltb 0 (ttl_or_default ttl c)) eqn:Hlt; [|done].
    apply Qltb_lt in Hlt. exfalso. apply (Qlt_not_le _ _ Hlt Httl). }
  split; [done|]. split; [done|]. split; [done|].
  intros t. eexists. rewrite (get_hit t k c1 _ Hwf1 Hk); [done|].
  unfold is_expired. by rewrite Hnone.
Qed.

(** X3.  Updating a key evicts another one when the cache is at its item
    cap.  With as many items as the cap allows, a [set] on a key the cache
    already holds, other than the least recently used one, first evicts the
    least recently used key and only then replaces the item: the cache ends
    one item below its cap. *)
Theorem update_at_capacity_evicts_lru (max : Z) (ttl0 : Q) (ops : list call)
    (c : IntelligentCache) (now : Q) (k lru : string) (rest : list string)
    (il : CacheItem) (v : PyVal) (ttl : option Q) :
  after_calls ops (new_cache max ttl0) = Some c ->
  Z.of_nat (size (cache c)) = max ->
  access_order c = lru :: rest -> k ∈ rest ->
  cache c !! lru = Some il ->
  _size_bytes c - size_bytes il + Z.of_N (payload_size v)
  <= 100 * 1024 * 1024 ->
  exists c',
    set now k v ttl c = Ret (true, c')
    /\ cache c' !! lru = None
    /\ cache c' !! k = Some (stored_item now k v (ttl_or_default ttl c))
    /\ (forall k', k' ≠ lru -> k' ≠ k -> cache c' !! k' = cache c !! k')
    /\ access_order c' = (od_pop k rest ++ [k])%list
    /\ Z.of_nat (size (cache c')) = max - 1.
Proof.
  intros Hrun Hfull Horder Hk Hlru Hbytes.
  destruct (reached_well_formed max ttl0 ops c Hrun) as (Hwf & Hms & Hmb).
  assert ((lru ∉ rest) /\ NoDup rest) as [Hnot Hnd].
  { pose proof (wf_nodup c Hwf) as Hn. rewrite Horder in Hn.
    by apply NoDup_cons in Hn. }
  assert (k ≠ lru) as Hne by (intros ->; done).
  assert (is_Some (cache c !! k)) as [ik Hik].
  { apply (wf_keys c Hwf). rewrite Horder. by right. }
  pose proof (make_room_once (Z.of_N (payload_size v)) (length rest) c lru rest
                il Hwf Horder Hlru) as Hroom.
  rewrite Hms, Hmb in Hroom. specialize (Hroom Hfull Hbytes).
  pose proof (wf_remove lru c Hwf) as Hwf1.
  assert (cache (_remove_item lru c) !! k = Some ik) as Hik1.
  { rewrite remove_cache, lookup_delete_ne by done. done. }
  eexists. split.
  { unfold set. rewrite Horder. cbn [length]. rewrite Hroom. reflexivity. }
  cbn [cache access_order].
  rewrite !remove_cache, !remove_order by done.
  destruct (remove_limits k (_remove_item lru c)) as (_ & Httl & _).
  destruct (remove_limits lru c) as (_ & Httl' & _).
  rewrite Horder. rewrite (od_pop_head lru rest Hnot).
  split; [|split; [|split; [|split]]].
  - rewrite lookup_insert_ne by done. rewrite lookup_delete_ne by done.
    apply lookup_delete_eq.
  - rewrite lookup_insert_eq. done.
  - intros k' H1 H2. rewrite lookup_insert_ne by done.
    by rewrite !lookup_delete_ne.
  - unfold od_set. rewrite decide_False; [done|].
    intros Hin. apply elem_of_od_pop in Hin as [_ Hin]. done.
  - rewrite map_size_insert_None by apply lookup_delete_eq.
    assert (size (cache c) = S (S (size (delete k (delete lru (cache c))))))
      as Hcount.
    { rewrite <- (insert_id (cache c) lru il) at 1 by done.
      rewrite <- insert_delete_eq.
      rewrite map_size_insert_None by apply lookup_delete_eq. f_equal.
      rewrite <- (insert_id (delete lru (cache c)) k ik) at 1
        by (by rewrite lookup_delete_ne).
      rewrite <- insert_delete_eq.
      by rewrite map_size_insert_None by apply lookup_delete_eq. }
    lia.
Qed.

(** X4.  [delete] answers for what is stored, expired or not.  It returns
    [True] exactly when the cache holds an item under the key, also when
    that item has expired and a [get] would report a miss; afterwards the
    key is a miss, its bytes are given back, and a [get] of any other key
    returns what it returned before. *)
Theorem delete_forgets_one_key (max : Z) (ttl0 : Q) (ops : list call)
    (c : IntelligentCache) (k : string) :
  after_calls ops (new_cache max ttl0) = Some c ->
  let (b, c') := delete_ k c in
  (b = true <-> is_Some (cache c !! k))
  /\ (forall t, get t k c' = Ret (VNone, c'))
  /\ (forall it, cache c !! k = Some it ->
                 _size_bytes c' = _size_bytes c - size_bytes it)
  /\ (cache c !! k = None -> c' = c)
  /\ access_order c' = od_pop k (access_order c)
  /\ (forall t k', k' ≠ k ->
        exists v c1 c1',
          get t k' c = Ret (v, c1) /\ get t k' c' = Ret (v, c1')).
Proof.
  intros Hrun.
  destruct (reached_well_formed max ttl0 ops c Hrun) as (Hwf & _ & _).
  unfold delete_. destruct (cache c !! k) as [it|] eqn:Hk.
  - pose proof (wf_remove k c Hwf) as Hwf'.
    split; [split; [by eexists | done]|].
    split.
    { intros t. apply get_absent. rewrite remove_cache. apply lookup_delete_eq. }
    split.
    { intros it' [= <-]. unfold _remove_item. by rewrite Hk. }
    split; [done|]. split; [by apply remove_order|].
    intros t k' Hne.
    assert (cache (_remove_item k c) !! k' = cache c !! k') as Hsame
      by (rewrite remove_cache; by apply lookup_delete_ne).
    destruct (cache c !! k') as [it'|] eqn:Hk'.
    + destruct (is_expired t it') eqn:Hexp.
      * exists VNone. do 2 eexists.
        rewrite (get_expired t k' c it') by done.
        rewrite (get_expired t k' _ it') by done. done.
      * exists (value it'). do 2 eexists.
        rewrite (get_hit t k' c it') by done.
        rewrite (get_hit t k' _ it') by done. done.
    + exists VNone. do 2 eexists.
      rewrite (get_absent t k' c) by done.
      rewrite (get_absent t k' _) by done. done.
  - split; [split; [done | by intros [? ?]]|].
    split; [intros t; by apply get_absent|].
    split; [done|]. split; [done|].
    split.
    { symmetry. apply od_pop_absent. intros Hin.
      apply (wf_keys c Hwf) in Hin. rewrite Hk in Hin. by destruct Hin. }
    intros t k' Hne.
    destruct (get_spec t k' c Hwf) as (v & c1 & Hget & _).
    exists v, c1, c1. done.
Qed.

(** X5.  One round of the cleanup loop removes the expired items and
    nothing else.  After the round at instant [now], the cache holds exactly
    the items that had not expired at [now], unchanged; the access order
    keeps their keys in the order they had; and the byte count is again the
    sum of the sizes of the items held. *)
Theorem cleanup_removes_exactly_the_expired (max : Z) (ttl0 : Q)
    (ops : list call) (c : IntelligentCache) (now : Q) :
  after_calls ops (new_cache max ttl0) = Some c ->
  let c' := cleanup now c in
  (forall k it,
      cache c' !! k = Some it
      <-> cache c !! k = Some it /\ is_expired now it = false)
  /\ access_order c' = filter (λ k, unexpired now c k = true) (access_order c)
  /\ _size_bytes c' = total_bytes (cache c')
  /\ (forall k, exists c2, get now k c' = Ret (match cache c' !! k with
                                               | Some it => value it
                                               | None => VNone
                                               end, c2)).
Proof.
  intros Hrun c'.
  destruct (reached_well_formed max ttl0 ops c Hrun) as (Hwf & _ & _).
  set (keys := (filter (λ kv, is_expired now kv.2 = true)
                       (map_to_list (cache c))).*1).
  assert (wf c') as Hwf' by apply remove_all_wf, Hwf.
  assert (forall k it,
             cache c' !! k = Some it
             <-> cache c !! k = Some it /\ is_expired now it = false) as Hitems.
  { intros k it. unfold c', cleanup. fold keys. rewrite remove_all_lookup.
    destruct (decide (k ∈ keys)) as [Hin|Hout].
    - apply expired_keys_spec in Hin as (it' & Hk & Hexp).
      split; [done|]. intros [Hk' Hexp']. congruence.
    - split.
      + intros Hk. split; [done|].
        destruct (is_expired now it) eqn:Hexp; [|done].
        exfalso. apply Hout, expired_keys_spec. by exists it.
      + by intros [Hk _]. }
  split; [done|]. split.
  { unfold c', cleanup. fold keys. rewrite remove_all_order by done.
    apply filter_ext_in. intros k Hord. unfold unexpired.
    apply (wf_keys c Hwf) in Hord as [it Hk]. rewrite Hk.
    split.
    - intros Hout. destruct (is_expired now it) eqn:Hexp; [|done].
      exfalso. apply Hout, expired_keys_spec. by exists it.
    - intros Hu Hin. apply expired_keys_spec in Hin as (it' & Hk' & Hexp).
      rewrite Hk in Hk'. injection Hk' as <-. by rewrite Hexp in Hu. }
  split; [apply (wf_bytes c' Hwf')|].
  intros k. destruct (cache c' !! k) as [it|] eqn:Hk.
  - apply Hitems in Hk as Hk'. destruct Hk' as [_ Hexp].
    eexists. by rewrite (get_hit now k c' it).
  - eexists. by rewrite (get_absent now k c').
Qed.

(** X6.  The statistics stay within a hundred per cent.  On a cache reached
    from a new one with a positive item cap, [get_stats] reports an item
    count within the cap and both utilisation figures between 0 and 100; on
    a cache created with a cap of zero it raises [ZeroDivisionError]. *)
Theorem stats_within_hundred_percent (max : Z) (ttl0 : Q) (ops : list call)
    (c : IntelligentCache) :
  after_calls ops (new_cache max ttl0) = Some c ->
  (max = 0 -> get_stats c = None)
  /\ (0 < max ->
      exists s,
        get_stats c = Some s
        /\ 0 <= total_items s <= max
        /\ stats_size_bytes s = total_bytes (cache c)
        /\ (0 <= utilization_percent s <= 100)%Q
        /\ (0 <= memory_utilization_percent s <= 100)%Q).
Proof.
  intros Hrun.
  destruct (reached_well_formed max ttl0 ops c Hrun) as (Hwf & Hms & Hmb).
  split.
  { intros ->. unfold get_stats. by rewrite Hms. }
  intros Hmax.
  destruct (reached_within_limits max ttl0 ops c) as [Hcount Hbytes];
    [lia | done |].
  pose proof (wf_bytes_nonneg c Hwf) as Hnonneg.
  pose proof (wf_bytes c Hwf) as Hsum.
  unfold get_stats. rewrite Hms, Hmb.
  replace (max =? 0) with false by (symmetry; apply Z.eqb_neq; lia).
  cbn [orb Z.eqb Z.mul]. eexists. split; [reflexivity|].
  cbn [total_items stats_size_bytes utilization_percent
       memory_utilization_percent].
  rewrite Hms in Hcount. rewrite Hmb, <- Hsum in Hbytes.
  split; [lia|]. split; [done|].
  assert (forall a b, 0 <= a <= b -> 0 < b ->
            (0 <= inject_Z a / inject_Z b * 100 <= 100)%Q) as Hratio.
  { intros a b [Ha Hab] Hb.
    assert (0 < inject_Z b)%Q as Hb'
      by (change 0%Q with (inject_Z 0); by rewrite <- Zlt_Qlt).
    assert (0 <= inject_Z a)%Q as Ha'
      by (change 0%Q with (inject_Z 0); by rewrite <- Zle_Qle).
    assert (inject_Z a <= inject_Z b)%Q as Hab' by (by rewrite <- Zle_Qle).
    assert (0 <= inject_Z a / inject_Z b <= 1)%Q as [H0 H1].
    { split.
      - apply Qle_shift_div_l; [done|]. by rewrite Qmult_0_l.
      - apply Qle_shift_div_r; [done|]. by rewrite Qmult_1_l. }
    split; nra. }
  split; apply Hratio; lia.
Qed.

(** X18.  A stored [None] reads as a miss.  On a cache reached by any calls
    from a new one with a positive cap, [set(k, None, ttl)] succeeds and
    every later [get(k)] returns [None], which is what [get] returns for a
    key the cache does not hold; a value other than [None] that fits the
    byte budget is returned by [get] for as long as it has not expired, and
    is not the miss. *)
Theorem stored_none_reads_as_miss (max : Z) (ttl0 : Q) (ops : list call)
    (c : IntelligentCache) (now : Q) (k : string) (ttl : option Q) :
  after_calls ops (new_cache max ttl0) = Some c ->
  0 < max -> Z.of_N (payload_size VNone) <= 100 * 1024 * 1024 ->
  (exists c1, set now k VNone ttl c = Ret (true, c1)
              /\ forall t, exists c2, get t k c1 = Ret (VNone, c2))
  /\ (forall t k', cache c !! k' = None -> get t k' c = Ret (VNone, c))
  /\ (forall v t,
        is_None v = false -> Z.of_N (payload_size v) <= 100 * 1024 * 1024 ->
        exists c1,
          set now k v ttl c = Ret (true, c1)
          /\ (is_expired t (stored_item now k v (ttl_or_default ttl c)) = false ->
              exists c2, get t k c1 = Ret (v, c2) /\ v ≠ VNone)).
Proof.
  intros Hrun Hmax Hfit.
  destruct (reached_well_formed max ttl0 ops c Hrun) as (Hwf & Hms & Hmb).
  destruct (none_reads_as_miss_on_well_formed c now k ttl)
    as (H1 & H2 & H3); [done | lia | lia |].
  split; [done|]. split; [done|].
  intros v t Hv Hv'. apply H3; [done | lia].
Qed.

End CacheCalls.

Section CacheCallScenarios.
Import Cache CacheData.

(** A cache of two items is asked to store a value larger than the whole
    byte budget: the answer is [False] and both items are gone. *)
Lemma refused_set_empties_cache_witness :
  exists c b c',
    @after_calls blob_is_huge
      [Set_ 0 "a" (VInt 1) None; Set_ 1 "b" (VInt 2) None] (new_cache 10 300)
    = Some c
    /\ size (cache c) = 2%nat
    /\ @set blob_is_huge 2 "blob" (VOther "<bytes>") None c = Ret (b, c')
    /\ b = false /\ cache c' = ∅.
Proof.
  eexists.
  destruct (@refused_set_empties_cache blob_is_huge 10 300
              [Set_ 0 "a" (VInt 1) None; Set_ 1 "b" (VInt 2) None] _
              2 "blob" (VOther "<bytes>") None
              ltac:(vm_compute; reflexivity))
    as (b & c' & Hset & Hiff & Hempty).
  exists b, c'. split; [vm_compute; reflexivity|]. split; [by vm_compute|].
  split; [exact Hset|].
  assert (b = false) as Hb by (apply Hiff; right; by vm_compute).
  split; [exact Hb|]. apply (Hempty Hb).
Defined.

#[local] Existing Instance ten_bytes.

(** A time to live of zero on a new cache. *)
Lemma item_without_positive_ttl_never_expires_witness :
  exists c1 it,
    set 0 "k" (VInt 7) (Some 0%Q) (new_cache 2 300) = Ret (true, c1)
    /\ cache c1 !! "k" = Some it /\ expires_at it = None
    /\ forall t, exists c2, get t "k" c1 = Ret (VInt 7, c2).
Proof.
  apply (@item_without_positive_ttl_never_expires ten_bytes 2 300 [] (new_cache 2 300) 0
           "k" (VInt 7) (Some 0%Q) eq_refl); [lia | simpl; lia | by vm_compute].
Defined.

(** With a cap of two, [a] then [b] are stored and [b] is stored again:
    [a] is evicted although the update adds no item. *)
Lemma update_at_capacity_evicts_lru_witness :
  exists c c',
    after_calls [Set_ 0 "a" (VInt 1) None; Set_ 1 "b" (VInt 2) None]
      (new_cache 2 300) = Some c
    /\ set 2 "b" (VInt 3) None c = Ret (true, c')
    /\ cache c' !! "a" = None
    /\ Z.of_nat (size (cache c')) = 2 - 1.
Proof.
  eexists.
  destruct (@update_at_capacity_evicts_lru ten_bytes 2 300
              [Set_ 0 "a" (VInt 1) None; Set_ 1 "b" (VInt 2) None] _
              2 "b" "a" ["b"] (@stored_item ten_bytes 0 "a" (VInt 1) 300) (VInt 3) None
              ltac:(vm_compute; reflexivity))
    as (c' & Hset & Ha & _ & _ & _ & Hsize);
    [by vm_compute | by vm_compute | apply list_elem_of_singleton; reflexivity
     | by vm_compute | by vm_compute |].
  exists c'. split; [vm_compute; reflexivity|]. done.
Defined.

(** An item stored for one second is deleted at a time when it has
    expired: [delete] still answers [True]. *)
Lemma delete_forgets_one_key_witness :
  exists c,
    after_calls [Set_ 0 "a" (VInt 1) (Some 1%Q)] (new_cache 2 300) = Some c
    /\ (exists c1, get 5 "a" c = Ret (VNone, c1))
    /\ (delete_ "a" c).1 = true
    /\ forall t, get t "a" (delete_ "a" c).2 = Ret (VNone, (delete_ "a" c).2).
Proof.
  eexists. split; [vm_compute; reflexivity|].
  split; [eexists; vm_compute; reflexivity|].
  pose proof (@delete_forgets_one_key ten_bytes 2 300 [Set_ 0 "a" (VInt 1) (Some 1%Q)] _
                "a" ltac:(vm_compute; reflexivity)) as Hdel.
  destruct (delete_ "a" _) as [b c'] eqn:Hd. cbn [fst snd].
  destruct Hdel as (Hb & Hmiss & _). split; [|exact Hmiss].
  apply Hb. eexists. vm_compute. reflexivity.
Defined.

(** [a] was stored for one second and [b] for a hundred; the round of the
    cleanup loop at instant 5 removes [a] and keeps [b]. *)
Lemma cleanup_removes_exactly_the_expired_witness :
  exists c,
    after_calls [Set_ 0 "a" (VInt 1) (Some 1%Q);
                 Set_ 0 "b" (VInt 2) (Some 100%Q)] (new_cache 2 300) = Some c
    /\ access_order (cleanup 5 c) = ["b"]
    /\ _size_bytes (cleanup 5 c) = total_bytes (cache (cleanup 5 c)).
Proof.
  eexists. split; [vm_compute; reflexivity|].
  destruct (@cleanup_removes_exactly_the_expired ten_bytes 2 300
              [Set_ 0 "a" (VInt 1) (Some 1%Q);
               Set_ 0 "b" (VInt 2) (Some 100%Q)] _ 5
              ltac:(vm_compute; reflexivity)) as (_ & Horder & Hbytes & _).
  split; [|exact Hbytes]. by vm_compute.
Defined.

(** One item in a cache with a cap of two: half of the item cap is used. *)
Lemma stats_within_hundred_percent_witness :
  exists c s,
    after_calls [Set_ 0 "a" (VInt 1) None] (new_cache 2 300) = Some c
    /\ get_stats c = Some s
    /\ (utilization_percent s == 50)%Q
    /\ (0 <= memory_utilization_percent s <= 100)%Q.
Proof.
  eexists.
  destruct (proj2 (@stats_within_hundred_percent ten_bytes 2 300
                     [Set_ 0 "a" (VInt 1) None] _
                     ltac:(vm_compute; reflexivity)))
    as (s & Hs & _ & _ & _ & Hmem); [lia|].
  exists s. split; [vm_compute; reflexivity|]. split; [exact Hs|].
  split; [|exact Hmem].
  vm_compute in Hs. injection Hs as <-. by vm_compute.
Defined.

(** The cache of a new manager and the key [k]. *)
Lemma stored_none_reads_as_miss_witness :
  (exists c1, set 0 "k" VNone None (new_cache 1000 300) = Ret (true, c1)
              /\ forall t, exists c2, get t "k" c1 = Ret (VNone, c2))
  /\ (forall t k', cache (new_cache 1000 300) !! k' = None ->
                   get t k' (new_cache 1000 300)
                   = Ret (VNone, new_cache 1000 300))
  /\ (forall v t,
        is_None v = false -> Z.of_N (payload_size v) <= 100 * 1024 * 1024 ->
        exists c1,
          set 0 "k" v None (new_cache 1000 300) = Ret (true, c1)
          /\ (is_expired t (stored_item 0 "k" v (ttl_or_default None (new_cache 1000 300))) = false ->
              exists c2, get t "k" c1 = Ret (v, c2) /\ v ≠ VNone)).
Proof.
  refine (@stored_none_reads_as_miss ten_bytes 1000 300 []
            (new_cache 1000 300) 0 "k" None eq_refl _ _); simpl; lia.
Defined.

End CacheCallScenarios.


(** ** The connection pool: reuse, closing, and pools managed by url *)

Section PoolCalls.
Import Pool.

Lemma list_pop_snoc l c : list_pop (l ++ [c]) = Some (c, l).
Proof. unfold list_pop. rewrite reverse_snoc. by rewrite reverse_involutive. Qed.

Lemma after_calls_snoc ops op p :
  after_calls (ops ++ [op]) p = after_call op (after_calls ops p).
Proof. unfold after_calls. by rewrite foldl_snoc. Qed.

Lemma size_union_singleton (X : gset nat) c :
  c ∉ X -> size (X ∪ {[c]}) = S (size X).
Proof.
  intros Hc. rewrite size_union by (apply disjoint_singleton_r, Hc).
  rewrite size_singleton. lia.
Qed.

Lemma tidy_acquire fresh p : tidy p -> tidy (acquire fresh p).2.
Proof.
  intros [Hnd Hap Hb]. unfold acquire.
  destruct (_closed p); [done|].
  destruct (list_pop (_pool p)) as [[c rest]|] eqn:Hpop.
  - apply list_pop_Some in Hpop. cbn [snd].
    rewrite Hpop in Hnd, Hap. unfold idle, in_use in *. rewrite Hpop in Hb.
    apply NoDup_app in Hnd as (Hnd & Hnot & _).
    assert (c ∉ _used_connections p) as Hc
      by (apply Hap, elem_of_app; right; by left).
    split; cbn [_pool _used_connections max_connections idle in_use].
    + done.
    + intros x Hx. rewrite elem_of_union, elem_of_singleton.
      intros [Hu| ->].
      * apply (Hap x); [apply elem_of_app; by left | done].
      * apply (Hnot c Hx). by left.
    + unfold idle, in_use. cbn [_pool _used_connections max_connections].
      rewrite size_union_singleton by done. rewrite length_app in Hb.
      cbn [length] in Hb. lia.
  - apply list_pop_None in Hpop.
    destruct (Z.of_nat (size (_used_connections p)) <? max_connections p)
      eqn:Hlt; [|done].
    apply Z.ltb_lt in Hlt.
    destruct (factory_set p); [|done]. cbn [negb].
    destruct fresh as [c|]; [|done]. cbn [snd].
    split; cbn [_pool _used_connections max_connections].
    + done.
    + rewrite Hpop. intros x Hx. by apply elem_of_nil in Hx.
    + unfold idle, in_use. cbn [_pool _used_connections max_connections].
      rewrite Hpop. cbn [length].
      pose proof (size_add_le (_used_connections p) c). lia.
Qed.

Lemma tidy_release c p : tidy p -> tidy (release c p).
Proof.
  intros [Hnd Hap Hb]. unfold release.
  destruct (decide (c ∈ _used_connections p)) as [Hin|]; [|done].
  pose proof (size_remove _ c Hin) as Hsize.
  unfold idle, in_use in *.
  destruct (negb (_closed p) && (Z.of_nat (length (_pool p)) <? max_connections p))
    eqn:Hroom.
  - split; cbn [_pool _used_connections max_connections].
    + apply NoDup_app. split; [done|]. split; [|apply NoDup_singleton].
      intros x Hx Hx'. apply list_elem_of_singleton in Hx' as ->.
      by apply (Hap c).
    + intros x Hx. rewrite elem_of_difference, elem_of_singleton.
      intros [Hu Hne]. apply elem_of_app in Hx as [Hx|Hx].
      * by apply (Hap x).
      * by apply list_elem_of_singleton in Hx.
    + unfold idle, in_use. cbn [_pool _used_connections max_connections].
      rewrite length_app. cbn [length]. lia.
  - split; cbn [_pool _used_connections max_connections].
    + done.
    + intros x Hx. rewrite elem_of_difference. intros [Hu _].
      by apply (Hap x).
    + unfold idle, in_use. cbn [_pool _used_connections max_connections]. lia.
Qed.

Lemma tidy_after_call op p :
  tidy p ->
  tidy (after_call op p) /\ max_connections (after_call op p) = max_connections p.
Proof.
  intros Ht. destruct op as [|fresh|c|]; cbn [after_call].
  - split; [|done]. destruct Ht as [Hnd Hap Hb]. by split.
  - split; [by apply tidy_acquire|].
    unfold acquire. destruct (_closed p); [done|].
    destruct (list_pop (_pool p)) as [[c rest]|]; [done|].
    destruct (_ <? _); [|done]. destruct (negb (factory_set p)); [done|].
    by destruct fresh.
  - split; [by apply tidy_release|].
    unfold release. by destruct (decide _).
  - split; [|done]. split; cbn [close _pool _used_connections].
    + apply NoDup_nil_2.
    + intros x Hx. by apply elem_of_nil in Hx.
    + unfold idle, in_use. cbn [close _pool _used_connections max_connections].
      rewrite size_empty. cbn [length]. lia.
Qed.

Lemma tidy_reached max ops :
  tidy (after_calls ops (new_pool max))
  /\ max_connections (after_calls ops (new_pool max)) = max.
Proof.
  induction ops as [|op ops IH] using rev_ind.
  - split; [|done]. split; cbn [after_calls foldl new_pool _pool _used_connections].
    + apply NoDup_nil_2.
    + intros x Hx. by apply elem_of_nil in Hx.
    + unfold idle, in_use. cbn [new_pool _pool _used_connections max_connections].
      rewrite size_empty. cbn [length]. lia.
  - rewrite after_calls_snoc. destruct IH as [Ht Hm].
    destruct (tidy_after_call op _ Ht) as [Ht' Hm']. split; [done|congruence].
Qed.

(** X7.  A released connection is the next one handed out.  On an open
    pool, releasing a connection in use puts it last in the idle list, and
    the next [acquire] hands out that very connection without calling the
    factory: the pool is back in the state it had before the release. *)
Theorem released_connection_is_reused (max : Z) (ops : list call)
    (connection : nat) (fresh : option nat) :
  let p := after_calls ops (new_pool max) in
  connection ∈ _used_connections p -> _closed p = false ->
  _pool (release connection p) = (_pool p ++ [connection])%list
  /\ (connection ∉ _used_connections (release connection p))
  /\ acquire fresh (release connection p) = (Connection connection, p).
Proof.
  intros p Hin Hopen.
  destruct (tidy_reached max ops) as [[Hnd Hap Hb] Hm]. fold p in Hnd, Hap, Hb, Hm.
  pose proof (size_remove _ _ Hin) as Hsize. unfold idle, in_use in Hb.
  assert ((Z.of_nat (length (_pool p)) <? max_connections p) = true) as Hroom
    by (apply Z.ltb_lt; lia).
  assert (release connection p
          = {| max_connections := max_connections p;
               _pool := _pool p ++ [connection];
               _used_connections := _used_connections p ∖ {[connection]};
               _closed := _closed p; factory_set := factory_set p |}) as Hrel.
  { unfold release. rewrite decide_True by done.
    by rewrite Hopen, Hroom. }
  rewrite Hrel. cbn [_pool _used_connections].
  split; [done|]. split.
  { rewrite elem_of_difference, elem_of_singleton. by intros [_ ?]. }
  unfold acquire. cbn [_closed _pool _used_connections max_connections factory_set].
  rewrite Hopen, list_pop_snoc. f_equal.
  assert (_used_connections p ∖ {[connection]} ∪ {[connection]}
          = _used_connections p) as ->.
  { apply set_eq. intros x.
    rewrite elem_of_union, elem_of_difference, elem_of_singleton.
    destruct (decide (x = connection)) as [->|Hne]; intuition. }
  rewrite <- Hopen. by destruct p.
Qed.

(** X8.  A closed pool stays closed and empty.  After [close], whatever
    calls follow, the pool holds no idle connection and none in use, and
    every [acquire] raises [RuntimeError("Connection pool is closed")] and
    changes nothing. *)
Theorem closed_pool_stays_closed (p : ConnectionPool) (ops : list call)
    (fresh : option nat) :
  let p' := after_calls ops (close p) in
  _closed p' = true /\ _pool p' = [] /\ _used_connections p' = ∅
  /\ max_connections p' = max_connections p
  /\ acquire fresh p' = (RuntimeError "Connection pool is closed", p').
Proof.
  intros p'.
  assert (_closed p' = true /\ _pool p' = [] /\ _used_connections p' = ∅
          /\ max_connections p' = max_connections p) as (Hc & Hp & Hu & Hm).
  { unfold p'. clear p'. induction ops as [|op ops IH] using rev_ind; [done|].
    rewrite after_calls_snoc. destruct IH as (Hc & Hp & Hu & Hm).
    destruct op as [|fr|c|]; cbn [after_call].
    - done.
    - unfold acquire. by rewrite Hc.
    - unfold release. rewrite decide_False; [done|].
      rewrite Hu. apply not_elem_of_empty.
    - done. }
  repeat split; try done. unfold acquire. by rewrite Hc.
Qed.

(** X9.  No connection is idle and in use at once.  On every pool reached
    by any calls from a new one, the idle list holds each connection once
    and none that is in use; so a connection taken from the idle list by
    [acquire] was not in use, and is no longer idle afterwards. *)
Theorem idle_connections_are_not_in_use (max : Z) (ops : list call) :
  let p := after_calls ops (new_pool max) in
  NoDup (_pool p)
  /\ (forall c, c ∈ _pool p -> c ∉ _used_connections p)
  /\ (forall fresh c p',
        _pool p ≠ [] -> acquire fresh p = (Connection c, p') ->
        c ∈ _pool p /\ (c ∉ _used_connections p)
        /\ (c ∉ _pool p') /\ c ∈ _used_connections p').
Proof.
  intros p. destruct (tidy_reached max ops) as [[Hnd Hap Hb] Hm].
  fold p in Hnd, Hap, Hb, Hm.
  split; [done|]. split; [done|].
  intros fresh c p' Hne. unfold acquire.
  destruct (_closed p); [done|].
  destruct (list_pop (_pool p)) as [[c0 rest]|] eqn:Hpop.
  - intros [= <- <-]. apply list_pop_Some in Hpop.
    cbn [_pool _used_connections].
    assert (c0 ∈ _pool p) as Hin by (rewrite Hpop, elem_of_app; right; by left).
    split; [done|]. split; [by apply Hap|]. split.
    + rewrite Hpop in Hnd. apply NoDup_app in Hnd as (_ & Hnot & _).
      intros Hr. apply (Hnot c0 Hr). by left.
    + apply elem_of_union. right. by apply elem_of_singleton.
  - by apply list_pop_None in Hpop.
Qed.

End PoolCalls.

Section PoolManagerCalls.
Import Pool PoolManager.

(** X10.  A pool created by [with_connection_pool] can never hand out a
    connection.  For a url that has no pool yet, the call creates one
    without a connection factory, so [acquire] raises [RuntimeError] and the
    operation is not started; the pool is kept as created, and every later
    call for the url fails in the same way. *)
Theorem unregistered_url_never_runs_operation (server_url : string)
    (max_connections max_connections' : option Z) (fresh fresh' : option nat)
    (operation operation' : nat -> PerformanceManager.OperationResult)
    (connection_pools : gmap string ConnectionPool) :
  connection_pools !! server_url = None ->
  let cap := match max_connections with Some m => m | None => 10 end in
  let raised :=
    AcquireRuntimeError (if 0 <? cap then "Connection factory not set"
                         else "Connection pool exhausted") in
  let '(o1, pools1) :=
    with_connection_pool server_url max_connections fresh operation
      connection_pools in
  o1 = raised
  /\ pools1 = <[server_url := new_pool cap]> connection_pools
  /\ with_connection_pool server_url max_connections' fresh' operation' pools1
     = (raised, pools1).
Proof.
  intros Hnone cap raised.
  assert (forall fr, acquire fr (new_pool cap)
          = (RuntimeError (if 0 <? cap then "Connection factory not set"
                           else "Connection pool exhausted"), new_pool cap))
    as Hany.
  { intros fr. unfold acquire.
    cbn [new_pool _closed _pool _used_connections Pool.max_connections factory_set].
    change (list_pop []) with (@None (nat * list nat)).
    rewrite size_empty. change (Z.of_nat 0) with 0.
    by destruct (0 <? cap). }
  unfold with_connection_pool. rewrite Hnone. fold cap. rewrite Hany.
  split; [done|]. split; [done|].
  rewrite lookup_insert_eq, Hany. by rewrite insert_insert_eq.
Qed.

(** X11.  [with_connection_pool] gives back the connection it took.  For a
    url whose pool was reached by any calls from a new one, and a factory
    that gives a connection not in use, the connections in use after the
    call are those in use before it, whether the operation returned or
    raised; a connection taken from the idle list is idle again, and a new
    one is idle afterwards.  When [acquire] raises, the pool is as it was. *)
Theorem with_connection_pool_releases (server_url : string) (max : Z)
    (ops : list call) (kwargs : option Z) (fresh : option nat)
    (operation : nat -> PerformanceManager.OperationResult)
    (connection_pools : gmap string ConnectionPool) :
  let p := after_calls ops (new_pool max) in
  connection_pools !! server_url = Some p ->
  (forall c, fresh = Some c -> c ∉ _used_connections p) ->
  let '(o, pools') :=
    with_connection_pool server_url kwargs fresh operation connection_pools in
  (forall url, url ≠ server_url -> pools' !! url = connection_pools !! url)
  /\ match o with
     | Ran r =>
         exists c p',
           r = operation c /\ pools' !! server_url = Some p'
           /\ _used_connections p' = _used_connections p
           /\ (_pool p ≠ [] -> p' = p)
           /\ (_pool p = [] -> fresh = Some c /\ _pool p' = [c])
     | _ => pools' !! server_url = Some p
     end.
Proof.
  intros p Hp Hfresh.
  destruct (tidy_reached max ops) as [[Hnd Hap Hb] Hm].
  fold p in Hnd, Hap, Hb, Hm.
  unfold with_connection_pool. rewrite Hp. unfold acquire.
  destruct (_closed p) eqn:Hclosed.
  { split; [intros url Hne; by rewrite lookup_insert_ne|].
    by rewrite lookup_insert_eq. }
  destruct (list_pop (_pool p)) as [[c rest]|] eqn:Hpop.
  - apply list_pop_Some in Hpop.
    split; [intros url Hne; by rewrite lookup_insert_ne|].
    exists c. eexists. split; [done|]. split; [by rewrite lookup_insert_eq|].
    assert (c ∉ _used_connections p) as Hc
      by (apply Hap; rewrite Hpop, elem_of_app; right; by left).
    assert ((Z.of_nat (length rest) <? max_connections p) = true) as Hroom.
    { apply Z.ltb_lt. unfold idle, in_use in Hb. rewrite Hpop in Hb.
      rewrite length_app in Hb. cbn [length] in Hb. lia. }
    unfold release. cbn [_used_connections _pool _closed max_connections
                         factory_set].
    rewrite decide_True by (apply elem_of_union; right; by apply elem_of_singleton).
    rewrite Hroom. cbn [negb andb _used_connections _pool].
    assert ((_used_connections p ∪ {[c]}) ∖ {[c]} = _used_connections p) as Hset.
    { apply set_eq. intros x.
      rewrite elem_of_difference, elem_of_union, elem_of_singleton.
      destruct (decide (x = c)) as [->|Hne]; intuition. }
    split; [done|]. split.
    + intros _. rewrite Hset, <- Hpop, <- Hclosed. by destruct p.
    + intros Hnil. rewrite Hnil in Hpop. by destruct rest.
  - apply list_pop_None in Hpop.
    destruct (Z.of_nat (size (_used_connections p)) <? max_connections p)
      eqn:Hlt.
    + destruct (factory_set p); cbn [negb].
      * destruct fresh as [c|].
        -- split; [intros url Hne; by rewrite lookup_insert_ne|].
           exists c. eexists. split; [done|].
           split; [by rewrite lookup_insert_eq|].
           assert (c ∉ _used_connections p) as Hc by (by apply Hfresh).
           unfold release. cbn [_used_connections _pool _closed
                                max_connections factory_set].
           rewrite decide_True
             by (apply elem_of_union; right; by apply elem_of_singleton).
           rewrite Hpop. cbn [length negb andb].
           apply Z.ltb_lt in Hlt.
           replace (Z.of_nat 0 <? max_connections p) with true
             by (symmetry; apply Z.ltb_lt; lia).
           cbn [_used_connections _pool]. split; [|done].
           apply set_eq. intros x.
           rewrite elem_of_difference, elem_of_union, elem_of_singleton.
           destruct (decide (x = c)) as [->|Hne]; intuition.
        -- split; [intros url Hne; by rewrite lookup_insert_ne|].
           by rewrite lookup_insert_eq.
      * split; [intros url Hne; by rewrite lookup_insert_ne|].
        by rewrite lookup_insert_eq.
    + split; [intros url Hne; by rewrite lookup_insert_ne|].
      by rewrite lookup_insert_eq.
Qed.

End PoolManagerCalls.

Section PoolCallScenarios.
Import Pool PoolManager.

(** Two connections are in use; the first is released and handed out
    again, and the pool is as before the release. *)
Lemma released_connection_is_reused_witness :
  let p := after_calls [SetFactory; Acquire (Some 1%nat); Acquire (Some 2%nat)]
             (new_pool 2) in
  _pool (release 1%nat p) = [1%nat]
  /\ acquire None (release 1%nat p) = (Connection 1%nat, p).
Proof.
  destruct (released_connection_is_reused 2
              [SetFactory; Acquire (Some 1%nat); Acquire (Some 2%nat)]
              1%nat None) as (Hpool & _ & Hacq).
  - apply (bool_decide_unpack _). by vm_compute.
  - reflexivity.
  - split; [exact Hpool | exact Hacq].
Defined.

(** The first call for a url, with no pool registered: the operation is
    not started. *)
Lemma unregistered_url_never_runs_operation_witness :
  with_connection_pool "http://jenkins:8010/mcp" None (Some 1%nat)
    (λ _, PerformanceManager.OpReturns (VStr "done")) ∅
  = (AcquireRuntimeError "Connection factory not set",
     {["http://jenkins:8010/mcp" := new_pool 10]}).
Proof.
  pose proof (unregistered_url_never_runs_operation "http://jenkins:8010/mcp"
                None None (Some 1%nat) None
                (λ _, PerformanceManager.OpReturns (VStr "done"))
                (λ _, PerformanceManager.OpReturns (VStr "done")) ∅
                (lookup_empty _)) as Hcall.
  destruct (with_connection_pool _ _ _ _ _) as [o1 pools1].
  destruct Hcall as (-> & -> & _). reflexivity.
Defined.

(** A pool with a factory, registered for the url: the operation raises,
    and no connection is left in use. *)
Lemma with_connection_pool_releases_witness :
  let p := after_calls [SetFactory] (new_pool 2) in
  let '(o, pools') :=
    with_connection_pool "http://jenkins:8010/mcp" None (Some 1%nat)
      (λ _, PerformanceManager.OpRaises "boom")
      {["http://jenkins:8010/mcp" := p]} in
  o = Ran (PerformanceManager.OpRaises "boom")
  /\ exists p', pools' !! "http://jenkins:8010/mcp" = Some p'
                /\ _used_connections p' = ∅ /\ _pool p' = [1%nat].
Proof.
  intros p.
  pose proof (with_connection_pool_releases "http://jenkins:8010/mcp" 2
                [SetFactory] None (Some 1%nat)
                (λ _, PerformanceManager.OpRaises "boom")
                {["http://jenkins:8010/mcp" := p]}
                (lookup_singleton_eq _ _)
                (λ c _, not_elem_of_empty c)) as Hcall.
  destruct (with_connection_pool _ _ _ _ _) as [o pools'] eqn:Hrun.
  destruct Hcall as [_ Hcall].
  assert (o = Ran (PerformanceManager.OpRaises "boom")) as ->
    by (vm_compute in Hrun; by injection Hrun as <- _).
  destruct Hcall as (c & p' & _ & Hp' & Hused & _ & Hnew).
  split; [done|]. exists p'. split; [done|]. split; [exact Hused|].
  destruct (Hnew eq_refl) as [[= <-] Hpool]. exact Hpool.
Defined.

End PoolCallScenarios.


(** ** The client: server selection and the retry loop *)

Section ClientSelection.
Import MCPClient.

Lemma priority_lt_asym (a b : MCPServerConfig) :
  (priority a <? priority b) = true -> (priority b <? priority a) = false.
Proof. intros Hlt%Z.ltb_lt. apply Z.ltb_ge. lia. Qed.

Lemma priority_lt_negtrans (a b c : MCPServerConfig) :
  (priority a <? priority b) = false -> (priority b <? priority c) = false ->
  (priority a <? priority c) = false.
Proof. intros H1%Z.ltb_ge H2%Z.ltb_ge. apply Z.ltb_ge. lia. Qed.

Lemma elem_of_List_filter {A} (f : A -> bool) (l : list A) x :
  x ∈ List.filter f l <-> x ∈ l /\ f x = true.
Proof. rewrite !list_elem_of_In. apply filter_In. Qed.

(** The server the priority sort puts first. *)
Lemma by_priority_spec tool client :
  match head (Sorting.sort_desc (λ a b, priority a <? priority b)
                (List.filter (server_usable tool client) (servers client))) with
  | None => forall s, s ∈ servers client -> server_usable tool client s = false
  | Some s =>
      s ∈ servers client /\ server_usable tool client s = true
      /\ exists before after,
           List.filter (server_usable tool client) (servers client)
           = (before ++ s :: after)%list
           /\ (forall x, x ∈ before -> priority x < priority s)
           /\ (forall x, x ∈ servers client ->
                         server_usable tool client x = true ->
                         priority x <= priority s)
  end.
Proof.
  pose proof (sort_desc_head (λ a b : MCPServerConfig, priority a <? priority b)
                priority_lt_asym priority_lt_negtrans
                (List.filter (server_usable tool client) (servers client)))
    as Hhead.
  destruct (head _) as [s|].
  - destruct Hhead as (before & after & Hl & Hbefore & Hall).
    assert (s ∈ List.filter (server_usable tool client) (servers client))
      as [Hin Hus]%elem_of_List_filter
      by (rewrite Hl, elem_of_app; right; by left).
    split; [done|]. split; [done|]. exists before, after.
    split; [done|]. split.
    + intros x Hx. by apply Z.ltb_lt, Hbefore.
    + intros x Hx Hux. apply Z.ltb_ge, Hall, elem_of_List_filter. done.
  - intros s Hs. destruct (server_usable tool client s) eqn:Hus; [|done].
    assert (s ∈ List.filter (server_usable tool client) (servers client))
      as Hin by (by apply elem_of_List_filter).
    rewrite Hhead in Hin. by apply elem_of_nil in Hin.
Qed.

Lemma server_usable_true tool client s :
  server_usable tool client s = true
  <-> enabled s = true /\ _server_health client !! name s = Some true
      /\ Py.dict_mem (tool_key (name s) tool) (_tools_cache client) = true.
Proof.
  unfold server_usable. rewrite !andb_true_iff.
  destruct (_server_health client !! name s) as [[]|]; intuition congruence.
Qed.

(** The server selected is one that can be used. *)
Lemma select_server_usable tool preferred client target :
  _select_server_for_tool tool preferred client = Some target ->
  target ∈ servers client /\ server_usable tool client target = true.
Proof.
  unfold _select_server_for_tool.
  pose proof (by_priority_spec tool client) as Hbest.
  assert (forall r,
            head (Sorting.sort_desc (λ a b, priority a <? priority b)
                    (List.filter (server_usable tool client) (servers client)))
            = Some r ->
            r ∈ servers client /\ server_usable tool client r = true) as Hby.
  { intros r Hr. rewrite Hr in Hbest. by destruct Hbest as (? & ? & _). }
  destruct preferred as [p|]; [|apply Hby].
  destruct (String.eqb p ""); [apply Hby|].
  destruct (List.find _ (servers client)) as [s|] eqn:Hfind; [|apply Hby].
  intros [= <-]. apply find_some in Hfind as [Hin Hs].
  apply andb_true_iff in Hs as [_ Hs]. split; [by apply list_elem_of_In|done].
Qed.

(** X12.  The client only selects a server it can use.  The server
    [_select_server_for_tool] returns is configured, enabled, marked healthy
    and has the tool in the schema cache; there is none exactly when no
    configured server is such.  A preferred server is returned when it can be
    used; otherwise the preference is dropped without an error, and the
    server returned is the first in configuration order among the usable
    ones of highest priority. *)
Theorem selected_server_is_usable (tool : string) (preferred : option string)
    (client : UniversalMCPClient) :
  match _select_server_for_tool tool preferred client with
  | None => forall s, s ∈ servers client -> server_usable tool client s = false
  | Some s =>
      s ∈ servers client
      /\ enabled s = true
      /\ _server_health client !! name s = Some true
      /\ Py.dict_mem (tool_key (name s) tool) (_tools_cache client) = true
      /\ ((exists s', s' ∈ servers client /\ Some (name s') = preferred
                      /\ name s' ≠ "" /\ server_usable tool client s' = true) ->
          Some (name s) = preferred)
      /\ ((forall s', s' ∈ servers client -> Some (name s') = preferred ->
                      name s' ≠ "" -> server_usable tool client s' = false) ->
          exists before after,
            List.filter (server_usable tool client) (servers client)
            = (before ++ s :: after)%list
            /\ (forall x, x ∈ before -> priority x < priority s)
            /\ (forall x, x ∈ servers client ->
                          server_usable tool client x = true ->
                          priority x <= priority s))
  end.
Proof.
  pose proof (by_priority_spec tool client) as Hbest.
  pose proof (select_server_usable tool preferred client) as Hsel.
  unfold _select_server_for_tool in *.
  set (best := head (Sorting.sort_desc (λ a b, priority a <? priority b)
                       (List.filter (server_usable tool client)
                          (servers client)))) in *.
  assert (match best with
          | None => forall s, s ∈ servers client ->
                              server_usable tool client s = false
          | Some s =>
              (forall s', s' ∈ servers client -> Some (name s') = preferred ->
                          name s' ≠ "" -> server_usable tool client s' = false) ->
              exists before after,
                List.filter (server_usable tool client) (servers client)
                = (before ++ s :: after)%list
                /\ (forall x, x ∈ before -> priority x < priority s)
                /\ (forall x, x ∈ servers client ->
                              server_usable tool client x = true ->
                              priority x <= priority s)
          end) as Hprio.
  { destruct best as [s|]; [|done]. intros _. by destruct Hbest as (_ & _ & ?). }
  assert (forall s' p, preferred = Some p -> String.eqb p "" = false ->
            s' ∈ servers client -> Some (name s') = preferred ->
            server_usable tool client s' = true ->
            List.find (λ server, String.eqb (name server) p
                                 && server_usable tool client server)
                      (servers client) = None -> False) as Hfound.
  { intros s' p -> Hp Hin [= <-] Hus Hnone.
    apply list_elem_of_In in Hin.
    pose proof (find_none _ _ Hnone s' Hin) as Hf. cbn beta in Hf.
    by rewrite String.eqb_refl, Hus in Hf. }
  destruct preferred as [p|].
  - destruct (String.eqb p "") eqn:Hp.
    + apply String.eqb_eq in Hp as ->.
      destruct best as [s|] eqn:Hb; [|done].
      destruct (Hsel s eq_refl) as [Hin Hus].
      apply server_usable_true in Hus as (He & Hh & Hc).
      split; [done|]. split; [done|]. split; [done|]. split; [done|].
      split; [|done].
      intros (s' & _ & [= Hn] & Hne & _). done.
    + destruct (List.find _ (servers client)) as [s|] eqn:Hfind.
      * destruct (Hsel s eq_refl) as [Hin Hus].
        pose proof Hus as Hus'.
        apply server_usable_true in Hus as (He & Hh & Hc).
        apply find_some in Hfind as [_ Hs].
        apply andb_true_iff in Hs as [Hn%String.eqb_eq _].
        split; [done|]. split; [done|]. split; [done|]. split; [done|].
        split; [intros _; by rewrite Hn|].
        intros Hno. exfalso.
        assert (server_usable tool client s = false) as Hf.
        { apply Hno; [done | by rewrite Hn |].
          intros Hempty. rewrite Hempty in Hn. subst p. done. }
        congruence.
      * destruct best as [s|] eqn:Hb.
        -- destruct (Hsel s eq_refl) as [Hin Hus].
           apply server_usable_true in Hus as (He & Hh & Hc).
           split; [done|]. split; [done|]. split; [done|]. split; [done|].
           split; [|done].
           intros (s' & Hin' & Hpref & _ & Hus'). exfalso.
           by apply (Hfound s' p eq_refl Hp Hin' Hpref Hus').
        -- done.
  - destruct best as [s|] eqn:Hb; [|done].
    destruct (Hsel s eq_refl) as [Hin Hus].
    apply server_usable_true in Hus as (He & Hh & Hc).
    split; [done|]. split; [done|]. split; [done|]. split; [done|].
    split; [|done]. by intros (s' & _ & ? & _).
Qed.

End ClientSelection.

(** Closes the cases in which nothing is asked of the world. *)
Ltac quiet_run :=
  repeat match goal with
         | |- _ /\ _ => split
         | |- forall _, _ => intro
         | |- exists m : nat, _ => exists 0%nat
         | H : Some _ = Some _ |- _ => injection H as <-
         | H : _ ∈ [] |- _ => by apply elem_of_nil in H
         end;
  try done; try lia.

Section ClientRetries.
Import MCPClient.
Context `{Builtins} `(E : Env W).

Lemma attempts_snoc server tool params attempt m :
  (1 <= m)%nat ->
  attempts server tool params attempt (S m)
  = Called server tool params :: Slept (inject_Z (2 ^ attempt))
    :: attempts server tool params (attempt + 1) m.
Proof. intros Hm. destruct m as [|m]; [lia|done]. Qed.

(** The record the retry loop leaves on a server reached over HTTP. *)
Lemma retry_loop_trace remaining attempt last start tool cp target (w : W) tr :
  is_http (transport target) = true ->
  Z.of_nat remaining = retry_count target - attempt ->
  let '(r, (_, tr')) :=
    @retry_loop _ _ (traced E) remaining attempt last start tool cp target
      (w, tr) in
  exists m,
    (m <= remaining)%nat
    /\ ((1 <= remaining)%nat -> (1 <= m)%nat)
    /\ (success r = true -> (1 <= m)%nat)
    /\ tr' = (rev (attempts (name target) tool cp attempt m) ++ tr)%list
    /\ tool_name r = tool /\ server_name r = name target.
Proof.
  intros Hhttp. revert attempt last w tr.
  induction remaining as [|k IH]; intros attempt last w tr Hrem.
  - cbn [retry_loop]. exists 0%nat. repeat split; try done; try lia.
  - cbn [retry_loop]. unfold _execute_tool_on_server. rewrite Hhttp.
    cbn [call_tool traced fst snd].
    destruct (call_tool target tool cp w) as [[[] content|e] w1].
    + exists 1%nat. repeat split; try done; lia.
    + exists 1%nat. repeat split; try done; lia.
    + destruct (attempt <? retry_count target - 1) eqn:Hlt.
      * apply Z.ltb_lt in Hlt. cbn [sleep traced fst snd].
        specialize (IH (attempt + 1) (Some e) (sleep (inject_Z (2 ^ attempt)) w1)
                       (Slept (inject_Z (2 ^ attempt))
                        :: Called (name target) tool cp :: tr)
                       ltac:(lia)).
        destruct (retry_loop k _ _ _ _ _ _ _) as [r [w' tr']].
        destruct IH as (m & Hle & Hpos & _ & Htr & Hname).
        exists (S m). split; [lia|]. split; [lia|]. split; [lia|].
        split; [|done].
        rewrite attempts_snoc by (apply Hpos; lia). cbn [rev].
        rewrite Htr. by rewrite <- !app_assoc.
      * apply Z.ltb_ge in Hlt. assert (k = 0%nat) as -> by lia.
        cbn [retry_loop]. exists 1%nat. repeat split; try done; lia.
Qed.

(** On any other transport the loop calls nothing and only sleeps. *)
Lemma retry_loop_unsupported remaining attempt last start tool cp target
    (w : W) tr :
  is_http (transport target) = false ->
  let '(r, (_, tr')) :=
    @retry_loop _ _ (traced E) remaining attempt last start tool cp target
      (w, tr) in
  success r = false
  /\ exists sleeps, tr' = ((Slept <$> sleeps) ++ tr)%list.
Proof.
  intros Hhttp. revert attempt last w tr.
  induction remaining as [|k IH]; intros attempt last w tr.
  - cbn [retry_loop]. split; [done|]. by exists [].
  - cbn [retry_loop]. unfold _execute_tool_on_server. rewrite Hhttp.
    destruct (attempt <? retry_count target - 1).
    + cbn [sleep traced fst snd].
      specialize (IH (attempt + 1)
                     (Some ("Transport " +:+ transport_str (transport target)
                            +:+ " not yet supported"))
                     (sleep (inject_Z (2 ^ attempt)) w)
                     (Slept (inject_Z (2 ^ attempt)) :: tr)).
      destruct (retry_loop k _ _ _ _ _ _ _) as [r [w' tr']].
      destruct IH as (Hfail & sleeps & ->). split; [done|].
      exists (sleeps ++ [inject_Z (2 ^ attempt)])%list.
      rewrite fmap_app. by rewrite <- app_assoc.
    + specialize (IH (attempt + 1)
                     (Some ("Transport " +:+ transport_str (transport target)
                            +:+ " not yet supported")) w tr).
      destruct (retry_loop k _ _ _ _ _ _ _) as [r [w' tr']]. done.
Qed.

(** X13.  Retries go to one usable server and back off by powers of two.
    [execute_tool_with_retry] asks nothing of the world when no server is
    selected or validation fails.  Otherwise every transport call goes to
    the selected server, which is enabled, healthy and has the tool cached,
    with the converted parameters; there are at most [retry_count] calls,
    with a sleep of 1, 2, 4, ... seconds between one call and the next and
    none after the last; a response that reports success was preceded by a
    call.  A selected server whose transport is not HTTP is never called:
    the loop only sleeps and the response reports failure. *)
Theorem retries_follow_the_backoff (tool : string) (params : Py.dict PyVal)
    (preferred : option string) (client : UniversalMCPClient) (w : W) :
  let '(response, (_, trace)) :=
    @execute_tool_with_retry _ _ (traced E) tool params preferred client
      (w, []) in
  match _select_server_for_tool tool preferred client with
  | None => trace = []
  | Some target =>
      server_usable tool client target = true
      /\ (transport target = HTTP ->
          exists m,
            (m <= Z.to_nat (retry_count target))%nat
            /\ (forall r, response = Some r -> success r = true -> (1 <= m)%nat)
            /\ (forall r, response = Some r ->
                  tool_name r = tool
                  /\ ((1 <= m)%nat -> server_name r = name target))
            /\ match validate_parameters tool params (Some (name target))
                       client with
               | Some v =>
                   rev trace
                   = attempts (name target) tool (converted_params v) 0 m
                   /\ (valid v = false -> m = 0%nat)
               | None => m = 0%nat /\ trace = [] /\ response = None
               end)
      /\ (transport target ≠ HTTP ->
          (forall e, e ∈ trace -> exists d, e = Slept d)
          /\ forall r, response = Some r -> success r = false)
  end.
Proof.
  unfold execute_tool_with_retry.
  destruct (_select_server_for_tool tool preferred client) as [target|] eqn:Hsel;
    [|done].
  destruct (select_server_usable tool preferred client target Hsel) as [_ Hus].
  assert (transport target = HTTP <-> is_http (transport target) = true)
    as Hiff by (by destruct (transport target)).
  destruct (validate_parameters tool params (Some (name target)) client)
    as [v|] eqn:Hval; [|quiet_run].
  destruct (valid v) eqn:Hvalid; cbn [negb]; [|quiet_run].
  destruct (is_http (transport target)) eqn:Hhttp.
  - pose proof (retry_loop_trace (Z.to_nat (retry_count target)) 0 None
                  (@time _ (traced E) (w, @nil event)) tool
                  (converted_params v) target w [] Hhttp) as Hloop.
    destruct (Z_le_gt_dec 0 (retry_count target)) as [Hrc|Hrc].
    + specialize (Hloop ltac:(lia)).
      destruct (retry_loop _ _ _ _ _ _ _ _) as [r [w' tr']].
      destruct Hloop as (m & Hle & _ & Hpos & Htr & Htool & Hserver).
      split; [done|]. split.
      * intros _. exists m. split; [done|].
        split; [by intros r' [= <-]|].
        split; [by intros r' [= <-]|].
        split; [|done]. rewrite Htr, app_nil_r. apply rev_involutive.
      * intros Hne. exfalso. by apply Hne, Hiff.
    + replace (Z.to_nat (retry_count target)) with 0%nat in * by lia.
      cbn [retry_loop]. quiet_run.
  - pose proof (retry_loop_unsupported (Z.to_nat (retry_count target)) 0
                  None (@time _ (traced E) (w, @nil event)) tool
                  (converted_params v) target w [] Hhttp) as Hloop.
    destruct (retry_loop _ _ _ _ _ _ _ _) as [r [w' tr']].
    destruct Hloop as (Hfail & sleeps & ->).
    split; [done|]. split.
    + intros Ht. apply Hiff in Ht. discriminate Ht.
    + intros _. split; [|by intros r' [= <-]].
      intros e He. rewrite app_nil_r in He.
      apply list_elem_of_fmap in He as (d & -> & _). by exists d.
Qed.

End ClientRetries.

(** ** The client: conversions *)

Section DecimalText.

Lemma int_of_digits_acc d p :
  Py.int_of_digits (Z.pos p) (NilEmpty.string_of_uint d)
  = Z.pos (Pos.of_uint_acc d p).
Proof.
  revert p. induction d as [|d IH|d IH|d IH|d IH|d IH|d IH|d IH|d IH|d IH|d IH];
    intros p; [done|..];
    cbn [NilEmpty.string_of_uint Py.int_of_digits Pos.of_uint_acc];
    rewrite <- IH; f_equal;
    match goal with
    | |- context [Z.of_nat (nat_of_ascii ?a) - 48] =>
        let v := eval vm_compute in (Z.of_nat (nat_of_ascii a) - 48) in
        change (Z.of_nat (nat_of_ascii a) - 48) with v
    end; lia.
Qed.

Lemma int_of_digits_uint d :
  Py.int_of_digits 0 (NilEmpty.string_of_uint d) = Z.of_N (Pos.of_uint d).
Proof.
  induction d as [|d IH|d IH|d IH|d IH|d IH|d IH|d IH|d IH|d IH|d IH];
    [done | exact IH |..];
    cbn [NilEmpty.string_of_uint Py.int_of_digits Pos.of_uint];
    apply (int_of_digits_acc d).
Qed.

Lemma all_digits_uint d : Py.all_digits (NilEmpty.string_of_uint d) = true.
Proof.
  induction d as [|d IH|d IH|d IH|d IH|d IH|d IH|d IH|d IH|d IH|d IH];
    [done|..]; cbn [NilEmpty.string_of_uint Py.all_digits]; by rewrite IH.
Qed.

(** [str(z)] of an int that is not negative is a string of digits that
    spells [z]. *)
Lemma str_of_int_digits z :
  0 <= z ->
  Py.isdigit (Py.str_of_int z) = true /\ Py.int_of_str (Py.str_of_int z) = z.
Proof.
  intros Hz. unfold Py.str_of_int, Py.int_of_str.
  destruct z as [|p|p]; [done| |lia].
  cbn [Z.to_int NilZero.string_of_int]. unfold NilZero.string_of_uint.
  pose proof (DecimalPos.Unsigned.of_to p) as Hof.
  pose proof (int_of_digits_uint (Pos.to_uint p)) as Hint.
  pose proof (all_digits_uint (Pos.to_uint p)) as Hall.
  destruct (Pos.to_uint p) eqn:Hd; [done|..];
    (split; [exact Hall | by rewrite Hint, Hof]).
Qed.

Lemma str_of_int_negative z : z < 0 -> Py.isdigit (Py.str_of_int z) = false.
Proof. intros Hz. destruct z as [|p|p]; [lia | lia | done]. Qed.

End DecimalText.

Section Conversions.
Import MCPClient.
Context `{Builtins}.

(** X14.  An int written out and read back is the same int, unless it is
    negative.  Declared a string, the int [z] is converted to the text
    [str(z)]; declared an integer, that text is converted back to [z] when
    [z] is not negative, and is refused with a [ValueError] when it is,
    since the text then starts with a minus sign and is no string of
    digits. *)
Theorem integer_text_round_trip (z : Z) :
  _convert_parameter_type (VInt z) "string" = Converted (VStr (Py.str_of_int z))
  /\ _convert_parameter_type (VStr (Py.str_of_int z)) "integer"
     = if 0 <=? z then Converted (VInt z)
       else ValueError ("Cannot convert '" +:+ Py.str_of_int z
                        +:+ "' to integer").
Proof.
  split; [done|]. unfold _convert_parameter_type. cbn [String.eqb Ascii.eqb].
  change (String.eqb "integer" "integer") with true. cbn iota.
  destruct (0 <=? z) eqn:Hz.
  - apply Z.leb_le in Hz. destruct (str_of_int_digits z Hz) as [-> ->]. done.
  - apply Z.leb_gt in Hz. by rewrite (str_of_int_negative z Hz).
Qed.

(** A value that came out of a conversion is converted to itself. *)
Lemma conversion_settles v t v' :
  _convert_parameter_type v t = Converted v' ->
  _convert_parameter_type v' t = Converted v'.
Proof.
  unfold _convert_parameter_type.
  destruct (String.eqb t "integer").
  { destruct v as [| | | |s|]; try done; try (by intros [= <-]).
    destruct (Py.isdigit s); [|done]. by intros [= <-]. }
  destruct (String.eqb t "boolean").
  { destruct v as [| | | |s|]; try done; try (by intros [= <-]).
    destruct (Py.str_in _ _); [by intros [= <-]|].
    destruct (Py.str_in _ _); [by intros [= <-]|done]. }
  destruct (String.eqb t "number").
  { destruct (py_float v) as [q| | |] eqn:Hf; try done. by intros [= <-]. }
  by intros [= <-].
Qed.

Lemma dict_set_fresh {V} k (v : V) d :
  k ∉ d.*1 -> Py.dict_set k v d = (d ++ [(k, v)])%list.
Proof.
  induction d as [|[k' v'] d IH]; intros Hk; [done|].
  cbn [Py.dict_set]. destruct (String.eqb k k') eqn:Heq.
  - apply String.eqb_eq in Heq as ->. exfalso. apply Hk. by left.
  - cbn [app]. rewrite IH; [done|]. intros Hin. apply Hk. by right.
Qed.

Lemma dict_mem_keys {V} k (d : Py.dict V) :
  Py.dict_mem k d = true <-> k ∈ d.*1.
Proof.
  unfold Py.dict_mem. induction d as [|[k' v'] d IH].
  - split; [done|]. intros Hin. by apply elem_of_nil in Hin.
  - cbn [Py.dict_get fmap list_fmap fst]. destruct (String.eqb k k') eqn:Heq.
    + apply String.eqb_eq in Heq as ->. split; [intros _; by left|done].
    + apply String.eqb_neq in Heq. rewrite IH. split.
      * intros Hin. by right.
      * intros [->|Hin]%elem_of_cons; done.
Qed.

Lemma convert_all_settled parameters todo errors converted :
  Forall (settled parameters) todo -> NoDup todo.*1 ->
  (forall k, k ∈ todo.*1 -> k ∉ converted.*1) ->
  convert_all parameters todo errors converted
  = Some (errors, (converted ++ todo)%list).
Proof.
  revert converted. induction todo as [|[k v] todo IH];
    intros converted Hall Hnd Hfresh.
  - by rewrite app_nil_r.
  - apply Forall_cons in Hall as [Hk Hall].
    cbn [fmap list_fmap fst] in Hnd. apply NoDup_cons in Hnd as [Hnot Hnd].
    assert (k ∉ converted.*1) as Hkc by (apply Hfresh; by left).
    assert (forall k', k' ∈ todo.*1 -> k' ∉ ((converted ++ [(k, v)])%list).*1)
      as Hfresh'.
    { intros k' Hin. rewrite fmap_app, elem_of_app.
      intros [Hc|Hc].
      - apply (Hfresh k'); [by right | done].
      - apply list_elem_of_singleton in Hc. cbn in Hc. by subst k'. }
    cbn [convert_all]. unfold settled in Hk. cbn [fst snd] in Hk.
    destruct (Py.dict_get k parameters) as [pd|].
    + rewrite Hk, dict_set_fresh by done.
      rewrite IH by done. by rewrite <- app_assoc.
    + rewrite dict_set_fresh by done.
      rewrite IH by done. by rewrite <- app_assoc.
Qed.

Lemma convert_all_settles parameters todo errors converted converted' :
  convert_all parameters todo errors converted = Some ([], converted') ->
  NoDup todo.*1 -> (forall k, k ∈ todo.*1 -> k ∉ converted.*1) ->
  errors = []
  /\ exists todo',
       converted' = (converted ++ todo')%list /\ todo'.*1 = todo.*1
       /\ Forall (settled parameters) todo'.
Proof.
  revert errors converted. induction todo as [|[k v] todo IH];
    intros errors converted Hrun Hnd Hfresh.
  - injection Hrun as -> <-. split; [done|]. exists [].
    by rewrite app_nil_r.
  - cbn [fmap list_fmap fst] in Hnd. apply NoDup_cons in Hnd as [Hnot Hnd].
    assert (k ∉ converted.*1) as Hkc by (apply Hfresh; by left).
    assert (forall v' k', k' ∈ todo.*1 -> k' ∉ ((converted ++ [(k, v')])%list).*1)
      as Hfresh'.
    { intros v' k' Hin. rewrite fmap_app, elem_of_app.
      intros [Hc|Hc].
      - apply (Hfresh k'); [by right | done].
      - apply list_elem_of_singleton in Hc. cbn in Hc. by subst k'. }
    cbn [convert_all] in Hrun.
    destruct (Py.dict_get k parameters) as [pd|] eqn:Hpd.
    + destruct (_convert_parameter_type v _) as [v'|e|] eqn:Hconv; [| |done].
      * rewrite dict_set_fresh in Hrun by done.
        destruct (IH _ _ Hrun Hnd (Hfresh' v')) as (-> & todo' & -> & Hkeys & Hall).
        split; [done|]. exists ((k, v') :: todo'). split; [by rewrite <- app_assoc|].
        split; [cbn; by rewrite Hkeys|].
        apply Forall_cons. split; [|done].
        unfold settled. cbn [fst snd]. rewrite Hpd.
        by apply (conversion_settles v).
      * destruct (convert_all_appends _ _ _ _ _ _ Hrun) as [more Hmore].
        by destruct errors.
    + rewrite dict_set_fresh in Hrun by done.
      destruct (IH _ _ Hrun Hnd (Hfresh' v)) as (-> & todo' & -> & Hkeys & Hall).
      split; [done|]. exists ((k, v) :: todo'). split; [by rewrite <- app_assoc|].
      split; [cbn; by rewrite Hkeys|].
      apply Forall_cons. split; [|done].
      unfold settled. cbn [fst snd]. by rewrite Hpd.
Qed.

Lemma missing_required_keys required (params params' : Py.dict PyVal) :
  params'.*1 = params.*1 ->
  missing_required required params' = missing_required required params.
Proof.
  intros Hkeys. unfold missing_required. f_equal.
  induction required as [|r required IH]; [done|].
  cbn [List.filter]. rewrite IH.
  assert (Py.dict_mem r params' = Py.dict_mem r params) as ->; [|done].
  apply eq_true_iff_eq. rewrite !dict_mem_keys. by rewrite Hkeys.
Qed.

(** X15.  Validation is idempotent.  A value that came out of a conversion
    to a declared type is converted to itself; and when validation accepts a
    set of parameters, validating the converted parameters accepts them
    again and returns them unchanged, in the same order. *)
Theorem validation_is_idempotent (tool : string) (params : Py.dict PyVal)
    (server_name : option string) (client : UniversalMCPClient)
    (r : ValidationResult) :
  validate_parameters tool params server_name client = Some r ->
  valid r = true -> NoDup params.*1 ->
  (converted_params r).*1 = params.*1
  /\ validate_parameters tool (converted_params r) server_name client = Some r
  /\ forall v t v',
       _convert_parameter_type v t = Converted v' ->
       _convert_parameter_type v' t = Converted v'.
Proof.
  intros Hval Hvalid Hnd. unfold validate_parameters in *.
  destruct (_find_tool_schema tool server_name client) as [sch|];
    [|injection Hval as <-; done].
  destruct (convert_all (parameters sch) params
              (missing_required (required sch) params) [])
    as [[errs cp]|] eqn:Hrun; [|done].
  injection Hval as <-. cbn [valid converted_params] in *.
  assert (errs = []) as -> by (destruct errs; [done|discriminate Hvalid]).
  destruct (convert_all_settles _ _ _ _ _ Hrun Hnd) as (Hmiss & cp' & -> & Hkeys & Hall).
  { intros k _ Hin. by apply elem_of_nil in Hin. }
  cbn [app] in *. split; [done|]. split; [|apply conversion_settles].
  rewrite (missing_required_keys _ params cp' Hkeys), Hmiss.
  rewrite convert_all_settled; [done | done | by rewrite Hkeys |].
  intros k _ Hin. by apply elem_of_nil in Hin.
Qed.

End Conversions.

Section ConversionScenarios.
Import MCPClient ClientData.
#[local] Existing Instance plain_builtins.

(** The text "42" is accepted for an integer parameter and becomes 42;
    validating the result again changes nothing. *)
Lemma validation_is_idempotent_witness :
  validate_parameters "trigger_build"
    [("build_number", VStr "42"); ("branch", VStr "main")] (Some "jenkins")
    one_server
  = Some {| valid := true; errors := [];
            converted_params :=
              [("build_number", VInt 42); ("branch", VStr "main")] |}
  /\ validate_parameters "trigger_build"
       [("build_number", VInt 42); ("branch", VStr "main")] (Some "jenkins")
       one_server
     = Some {| valid := true; errors := [];
               converted_params :=
                 [("build_number", VInt 42); ("branch", VStr "main")] |}.
Proof.
  split; [reflexivity|].
  refine (proj1 (proj2 (validation_is_idempotent "trigger_build"
                          [("build_number", VStr "42"); ("branch", VStr "main")]
                          (Some "jenkins") one_server
                          {| valid := true; errors := [];
                             converted_params :=
                               [("build_number", VInt 42);
                                ("branch", VStr "main")] |}
                          eq_refl eq_refl _))).
  apply NoDup_cons. split; [|apply NoDup_singleton].
  intros Hin%list_elem_of_singleton. discriminate Hin.
Defined.

End ConversionScenarios.

(** ** The client: what discovery keeps, and the health check *)

Section StaleTools.
Import MCPClient.
Context `{Env W}.

Lemma collect_tools_keeps server listed tools0 cache0 key :
  Py.dict_mem key cache0 = true ->
  match collect_tools server listed tools0 cache0 with
  | inl (_, cache1) => Py.dict_mem key cache1 = true
  | inr cache1 => Py.dict_mem key cache1 = true
  end.
Proof.
  revert tools0 cache0. induction listed as [|tool listed IH];
    intros tools0 cache0 Hkey; [done|].
  cbn [collect_tools]. destruct tool as [n d i| |]; [|done..].
  apply IH. rewrite dict_mem_set, Hkey. apply orb_true_r.
Qed.

Lemma discover_keeps server client (w : W) key :
  Py.dict_mem key (_tools_cache client) = true ->
  let client' := (discover_server_capabilities server client w).1.2 in
  Py.dict_mem key (_tools_cache client') = true
  /\ servers client' = servers client.
Proof.
  intros Hkey. unfold discover_server_capabilities.
  destruct (is_http (transport server)); [|done].
  destruct (list_tools server w) as [[info listed|e] w']; [|done].
  pose proof (collect_tools_keeps (name server) listed [] _ key Hkey) as Hkeep.
  destruct (collect_tools _ _ _ _) as [[tools cache1]|cache1]; done.
Qed.

Lemma discover_each_keeps todo client (w : W) key :
  Py.dict_mem key (_tools_cache client) = true ->
  let client' := (discover_each todo client w).1 in
  Py.dict_mem key (_tools_cache client') = true
  /\ servers client' = servers client.
Proof.
  revert client w. induction todo as [|server todo IH]; intros client w Hkey;
    [done|].
  cbn [discover_each].
  destruct (discover_keeps server client w key Hkey) as [Hkey' Hservers].
  destruct (discover_server_capabilities server client w) as [[caps client1] w1].
  cbn [fst snd] in *.
  destruct (IH client1 w1 Hkey') as [Hk Hs]. split; [done|congruence].
Qed.

(** X16.  Discovery never forgets a tool.  A schema cached under
    [server:tool] is still cached after [discover_all_servers], whatever the
    servers answer; so when an enabled server is discovered again and no
    longer lists the tool, [get_available_tools] for that server gives its
    new list, but the server can still be selected for the tool. *)
Theorem discovery_never_forgets_a_tool (client : UniversalMCPClient) (w : W)
    (key : string) :
  Py.dict_mem key (_tools_cache client) = true ->
  let client' := (discover_all_servers client w).1.2 in
  Py.dict_mem key (_tools_cache client') = true
  /\ servers client' = servers client
  /\ forall s info listed tool,
       NoDup (name <$> List.filter enabled (servers client)) ->
       s ∈ servers client -> enabled s = true -> name s ≠ "" ->
       reachable s info listed -> key = tool_key (name s) tool ->
       get_available_tools (Some (name s)) client'
       = normalize_tool_schema <$> listed
       /\ server_usable tool client' s = true
       /\ exists target, _select_server_for_tool tool None client' = Some target.
Proof.
  intros Hkey. unfold discover_all_servers.
  pose proof (discover_each_keeps (List.filter enabled (servers client)) client
                w key Hkey) as [Hkey' Hservers].
  pose proof (discover_each_reachable (List.filter enabled (servers client))
                client w) as Hreach.
  destruct (discover_each _ client w) as [client' w'] eqn:Hrun.
  cbn [fst snd] in *. split; [done|]. split; [done|].
  intros s info listed tool Hnd Hin Hen Hname Hs ->.
  destruct (Hreach s info listed Hnd) as [Hcaps Hhealth];
    [by apply elem_of_List_filter | done |].
  assert (server_usable tool client' s = true) as Hus
    by (apply server_usable_true; done).
  split.
  { unfold get_available_tools.
    destruct (String.eqb (name s) "") eqn:Heq;
      [by apply String.eqb_eq in Heq|].
    by rewrite Hcaps. }
  split; [done|].
  pose proof (by_priority_spec tool client') as Hbest.
  unfold _select_server_for_tool.
  destruct (head _) as [target|]; [by exists target|].
  rewrite Hservers in Hbest. specialize (Hbest s Hin). congruence.
Qed.

End StaleTools.

Section StaleToolScenarios.
Import MCPClient ClientData.
#[local] Existing Instance only_a_answers.

(** [A] once offered [delete_job] and now lists two other tools: the
    cached schema survives the discovery and [A] is still chosen for it. *)
Lemma discovery_never_forgets_a_tool_witness :
  Py.dict_mem "A:delete_job"
    (_tools_cache (discover_all_servers knew_delete_job tt).1.2) = true
  /\ get_available_tools (Some "A") (discover_all_servers knew_delete_job tt).1.2
     = normalize_tool_schema <$> tools_of_a
  /\ exists target,
       _select_server_for_tool "delete_job" None
         (discover_all_servers knew_delete_job tt).1.2 = Some target.
Proof.
  pose proof (@discovery_never_forgets_a_tool unit only_a_answers
                knew_delete_job tt "A:delete_job" eq_refl) as (Hkey & _ & Hsel).
  split; [exact Hkey|].
  destruct (Hsel server_a None tools_of_a "delete_job") as (Htools & _ & Htarget).
  - cbn. apply NoDup_singleton.
  - apply list_elem_of_singleton. reflexivity.
  - reflexivity.
  - discriminate.
  - split; [reflexivity|]. split; [reflexivity|]. intros []. reflexivity.
  - reflexivity.
  - split; [exact Htools | exact Htarget].
Defined.

End StaleToolScenarios.

Section HealthCheck.
Import MCPClient.
Context `{Probe W}.

(** What the check decides for one server, given the answer to the
    request. *)
Lemma check_each_spec todo acc (w : W) :
  let results := (check_each todo acc w).1 in
  (forall n, n ∉ name <$> todo -> results !! n = acc !! n)
  /\ (forall n, n ∈ name <$> todo -> is_Some (results !! n))
  /\ (forall s, s ∈ todo -> NoDup (name <$> todo) ->
        (is_http (transport s) = false -> results !! name s = Some (enabled s))
        /\ (forall status,
              is_http (transport s) = true ->
              (forall w0, (http_get s w0).1 = status) ->
              results !! name s
              = Some match status with
                     | Some c => (c =? 200) || (c =? 404)
                     | None => false
                     end)).
Proof.
  revert acc w. induction todo as [|server todo IH]; intros acc w.
  - cbn. split; [done|]. split.
    + intros n Hn. by apply elem_of_nil in Hn.
    + intros s Hs. by apply elem_of_nil in Hs.
  - set (verdict (status : option Z) :=
           match status with
           | Some c => (c =? 200) || (c =? 404)
           | None => false
           end).
    assert (forall b w',
              (is_http (transport server) = false -> b = enabled server) ->
              (forall status, is_http (transport server) = true ->
                 (forall w0, (http_get server w0).1 = status) ->
                 b = verdict status) ->
              let results :=
                (check_each todo (<[name server := b]> acc) w').1 in
              (forall n, n ∉ name <$> server :: todo -> results !! n = acc !! n)
              /\ (forall n, n ∈ name <$> server :: todo ->
                            is_Some (results !! n))
              /\ (forall s, s ∈ server :: todo ->
                    NoDup (name <$> server :: todo) ->
                    (is_http (transport s) = false ->
                     results !! name s = Some (enabled s))
                    /\ (forall status,
                          is_http (transport s) = true ->
                          (forall w0, (http_get s w0).1 = status) ->
                          results !! name s = Some (verdict status))))
      as Hstep.
    { intros b w' Hoff Hon.
      destruct (IH (<[name server := b]> acc) w') as (Hout & Hin & Hval).
      cbn zeta. rewrite fmap_cons. split; [|split].
      - intros n Hn. apply not_elem_of_cons in Hn as [Hne Hn].
        rewrite (Hout n Hn). by rewrite lookup_insert_ne.
      - intros n Hn. destruct (decide (n ∈ name <$> todo)) as [Hi|Hi].
        + by apply Hin.
        + rewrite (Hout n Hi). apply elem_of_cons in Hn as [->|Hn]; [|done].
          rewrite lookup_insert_eq. by eexists.
      - intros s Hs Hnd. apply NoDup_cons in Hnd as [Hnot Hnd].
        apply elem_of_cons in Hs as [->|Hs].
        + rewrite (Hout _ Hnot), lookup_insert_eq. split.
          * intros Hh. by rewrite (Hoff Hh).
          * intros status Hh Hst. by rewrite (Hon status Hh Hst).
        + by apply Hval. }
    cbn [check_each].
    destruct (is_http (transport server)) eqn:Hhttp.
    + destruct (http_get server w) as [status w'] eqn:Hget.
      apply Hstep; [done|].
      intros status' _ Hstable. specialize (Hstable w).
      rewrite Hget in Hstable. cbn in Hstable. by subst.
    + apply Hstep; [done|]. intros status Hh. discriminate Hh.
Qed.

(** X17.  After a health check, health is what the probe said and nothing
    else.  [health_check] replaces the health flags: every configured server
    gets one, enabled or not; a server reached over HTTP is healthy exactly
    when the request to its base url was answered with status 200 or 404,
    any other transport is healthy exactly when the server is enabled.  So a
    server whose base url answers anything else, or does not answer, cannot
    be selected for any tool afterwards, whatever discovery had found; the
    schema cache and the capabilities are left as they were. *)
Theorem health_check_decides_health (client : UniversalMCPClient) (w : W) :
  let '(results, client', _) := health_check client w in
  _server_health client' = results
  /\ servers client' = servers client
  /\ _tools_cache client' = _tools_cache client
  /\ capabilities client' = capabilities client
  /\ (forall n, is_Some (results !! n) <-> n ∈ name <$> servers client)
  /\ (forall s, s ∈ servers client -> NoDup (name <$> servers client) ->
        (transport s ≠ HTTP -> results !! name s = Some (enabled s))
        /\ (forall status,
              transport s = HTTP ->
              (forall w0, (http_get s w0).1 = status) ->
              results !! name s
              = Some match status with
                     | Some c => (c =? 200) || (c =? 404)
                     | None => false
                     end
              /\ (status ≠ Some 200 -> status ≠ Some 404 ->
                  forall tool, server_usable tool client' s = false))).
Proof.
  unfold health_check.
  pose proof (check_each_spec (servers client) ∅ w) as (Hout & Hin & Hval).
  destruct (check_each (servers client) ∅ w) as [results w'].
  cbn [fst snd _server_health servers _tools_cache capabilities] in *.
  split; [done|]. split; [done|]. split; [done|]. split; [done|]. split.
  - intros n. split; [|apply Hin].
    intros Hsome. destruct (decide (n ∈ name <$> servers client)); [done|].
    rewrite Hout in Hsome by done. rewrite lookup_empty in Hsome.
    by destruct Hsome.
  - intros s Hs Hnd. destruct (Hval s Hs Hnd) as [Hoff Hon]. split.
    + intros Hne. apply Hoff. by destruct (transport s).
    + intros status Ht Hst.
      assert (is_http (transport s) = true) as Hh by (by rewrite Ht).
      rewrite (Hon status Hh Hst). split; [done|].
      intros H200 H404 tool. unfold server_usable.
      cbn [_server_health]. rewrite (Hon status Hh Hst).
      destruct status as [c|]; [|by rewrite andb_false_r].
      destruct (c =? 200) eqn:E1; [apply Z.eqb_eq in E1; by subst|].
      destruct (c =? 404) eqn:E2; [apply Z.eqb_eq in E2; by subst|].
      by rewrite andb_false_r.
Qed.

End HealthCheck.


(** ** The registry: scores, the order of the mapped tools, what a run
    leaves *)

Section Scores.
Import Registry.

Lemma success_rate_bounds p :
  0 <= success_count p -> 0 <= failure_count p ->
  (0 <= success_rate p <= 1)%Q.
Proof.
  intros Hs Hf. unfold success_rate.
  destruct (Z.ltb_spec 0 (success_count p + failure_count p)) as [Hpos|_];
    [|split; by apply Qle_bool_iff].
  assert (0 < inject_Z (success_count p + failure_count p))%Q as Hq
    by (change 0%Q with (inject_Z 0); by rewrite <- Zlt_Qlt).
  split.
  - apply Qle_shift_div_l; [done|]. rewrite Qmult_0_l.
    change 0%Q with (inject_Z 0). rewrite <- Zle_Qle. done.
  - apply Qle_shift_div_r; [done|]. rewrite Qmult_1_l.
    rewrite <- Zle_Qle. lia.
Qed.

(** An entry whose average response time is at most a millisecond, as that
    of an entry without a success, scores at least 300. *)
Lemma score_without_latency p :
  0 <= success_count p -> 0 <= failure_count p ->
  (avg_response_time_ms p <= 1)%Q -> (300 <= score_of p)%Q.
Proof.
  intros Hs Hf Havg. unfold score_of, Qmax.
  apply Qle_bool_iff in Havg. rewrite Havg.
  destruct (success_rate_bounds p Hs Hf) as [Hlo _].
  assert (1000 / 1 == 1000)%Q as -> by reflexivity. lra.
Qed.

(** An entry whose average response time is two milliseconds or more
    scores at most 150.7. *)
Lemma score_with_latency p :
  0 <= success_count p -> 0 <= failure_count p ->
  (2 <= avg_response_time_ms p)%Q -> (score_of p <= 1507 # 10)%Q.
Proof.
  intros Hs Hf Havg. unfold score_of, Qmax.
  destruct (Qle_bool (avg_response_time_ms p) 1) eqn:Hle;
    [apply Qle_bool_iff in Hle; lra|].
  destruct (success_rate_bounds p Hs Hf) as [_ Hhi].
  assert (1000 / avg_response_time_ms p <= 500)%Q as Hdiv
    by (apply Qle_shift_div_r; lra).
  lra.
Qed.

(** X19.  A server that has never answered outranks every server that
    answers in two milliseconds or more.  For one tool, an entry whose
    average response time is at most a millisecond (the average of a new
    entry and of one whose calls all failed is 0) scores at least 300, and
    an entry with an average of two milliseconds or more scores at most
    150.7 whatever its success rate; so while a server with such an entry
    offers the tool, [_find_best_server_for_tool] returns a server, and never
    one whose average is two milliseconds or more. *)
Theorem unmeasured_server_outranks_measured (tool : string)
    (reg : ToolRegistry) (a b : string) (tools_a : gset string)
    (pa pb : ToolPerformance) :
  (a, tools_a) ∈ server_tools reg -> tool ∈ tools_a ->
  performance_metrics reg !! MCPClient.tool_key a tool = Some pa ->
  performance_metrics reg !! MCPClient.tool_key b tool = Some pb ->
  0 <= success_count pa -> 0 <= failure_count pa ->
  0 <= success_count pb -> 0 <= failure_count pb ->
  (avg_response_time_ms pa <= 1)%Q -> (2 <= avg_response_time_ms pb)%Q ->
  (300 <= score_of pa)%Q /\ (score_of pb <= 1507 # 10)%Q
  /\ exists s, _find_best_server_for_tool tool reg = Some (tool, s) /\ s ≠ b.
Proof.
  intros Ha Htool Hpa Hpb Hsa Hfa Hsb Hfb Hfast Hslow.
  pose proof (score_without_latency pa Hsa Hfa Hfast) as Hhigh.
  pose proof (score_with_latency pb Hsb Hfb Hslow) as Hlow.
  split; [done|]. split; [done|].
  set (ca := {| cand_server_name := a; cand_tool_name := tool;
                score := score_of pa;
                cand_last_success := last_success pa |}).
  assert (ca ∈ candidate_servers tool reg) as Hca.
  { apply elem_of_candidate_servers. by exists a, tools_a, pa. }
  unfold _find_best_server_for_tool.
  pose proof (sort_desc_head key_lt key_lt_asym key_lt_negtrans
                (candidate_servers tool reg)) as Hhead.
  destruct (Sorting.sort_desc key_lt (candidate_servers tool reg))
    as [|best rest]; simpl in Hhead.
  { rewrite Hhead in Hca. by apply elem_of_nil in Hca. }
  destruct Hhead as (before & after & Hsplit & _ & Hmax).
  assert (best ∈ candidate_servers tool reg) as Hbest.
  { rewrite Hsplit. apply elem_of_app. right. by left. }
  apply elem_of_candidate_servers in Hbest
    as (s & tools_s & ps & _ & _ & Hps & ->).
  exists s. split; [done|]. intros ->.
  rewrite Hpb in Hps. injection Hps as <-.
  specialize (Hmax ca Hca). apply key_lt_false in Hmax.
  unfold not_below in Hmax. subst ca. cbn [score] in Hmax.
  destruct Hmax as [?|[? _]]; lra.
Qed.

End Scores.

Section MappedTools.
Import Registry.

Lemma no_best_server tool reg :
  _find_best_server_for_tool tool reg = None
  <-> candidate_servers tool reg = [].
Proof.
  unfold _find_best_server_for_tool.
  pose proof (sort_desc_head key_lt key_lt_asym key_lt_negtrans
                (candidate_servers tool reg)) as Hhead.
  destruct (Sorting.sort_desc key_lt (candidate_servers tool reg))
    as [|best rest]; simpl in Hhead; [done|].
  destruct Hhead as (before & after & -> & _). split; [done|].
  intros Hnil. by apply app_nil in Hnil as [_ ?].
Qed.

Lemma best_server_names_its_tool tool reg t s :
  _find_best_server_for_tool tool reg = Some (t, s) ->
  t = tool
  /\ exists tools performance,
       (s, tools) ∈ server_tools reg /\ tool ∈ tools
       /\ performance_metrics reg !! MCPClient.tool_key s tool
          = Some performance.
Proof.
  unfold _find_best_server_for_tool.
  pose proof (sort_desc_head key_lt key_lt_asym key_lt_negtrans
                (candidate_servers tool reg)) as Hhead.
  destruct (Sorting.sort_desc key_lt (candidate_servers tool reg))
    as [|best rest]; simpl in Hhead; [done|].
  destruct Hhead as (before & after & Hsplit & _).
  assert (best ∈ candidate_servers tool reg) as Hbest.
  { rewrite Hsplit. apply elem_of_app. right. by left. }
  apply elem_of_candidate_servers in Hbest
    as (s' & tools & p & Hin & Htool & Hp & ->).
  intros [= <- <-]. split; [done|]. by exists tools, p.
Qed.

Lemma first_available_spec tools reg :
  match first_available tools reg with
  | Some (t, s) =>
      _find_best_server_for_tool t reg = Some (t, s)
      /\ exists before after,
           tools = (before ++ t :: after)%list
           /\ forall x, x ∈ before -> candidate_servers x reg = []
  | None => forall x, x ∈ tools -> candidate_servers x reg = []
  end.
Proof.
  induction tools as [|tool tools IH]; cbn [first_available].
  - intros x Hx. by apply elem_of_nil in Hx.
  - destruct (_find_best_server_for_tool tool reg) as [[t s]|] eqn:Hbest.
    + destruct (best_server_names_its_tool tool reg t s Hbest) as [-> _].
      split; [done|]. exists [], tools. split; [done|].
      intros x Hx. by apply elem_of_nil in Hx.
    + apply no_best_server in Hbest.
      destruct (first_available tools reg) as [[t s]|].
      * destruct IH as (Hfound & before & after & -> & Hnone).
        split; [done|]. exists (tool :: before), after. split; [done|].
        intros x [->|Hx]%elem_of_cons; [done | by apply Hnone].
      * intros x [->|Hx]%elem_of_cons; [done | by apply IH].
Qed.

(** X20.  The tool selected for an intent is the first mapped tool that
    any server offers, primary tools before fallback tools, whatever the
    scores.  [select_optimal_tool] returns the best server of the first tool,
    in the order of the primary tools followed by the fallback tools of the
    intent's mapping, that has a candidate server: one listed with the tool
    in the tool index and holding a performance entry for it.  It returns
    nothing exactly when the intent has no mapping or none of its tools has
    a candidate. *)
Theorem optimal_tool_is_first_available (intent : string)
    (reg : ToolRegistry) :
  match select_optimal_tool intent reg with
  | Some (t, s) =>
      exists mapping before after,
        tool_mappings reg !! intent = Some mapping
        /\ (primary_tools mapping ++ fallback_tools mapping)%list
           = (before ++ t :: after)%list
        /\ (forall x, x ∈ before -> candidate_servers x reg = [])
        /\ _find_best_server_for_tool t reg = Some (t, s)
        /\ (t ∈ fallback_tools mapping -> t ∉ primary_tools mapping ->
            forall x, x ∈ primary_tools mapping ->
                      candidate_servers x reg = [])
        /\ exists tools performance,
             (s, tools) ∈ server_tools reg /\ t ∈ tools
             /\ performance_metrics reg !! MCPClient.tool_key s t
                = Some performance
  | None =>
      forall mapping,
        tool_mappings reg !! intent = Some mapping ->
        forall x, x ∈ (primary_tools mapping ++ fallback_tools mapping)%list ->
                  candidate_servers x reg = []
  end.
Proof.
  unfold select_optimal_tool.
  destruct (tool_mappings reg !! intent) as [mapping|]; [|done].
  pose proof (first_available_spec (primary_tools mapping) reg) as Hprimary.
  pose proof (first_available_spec (fallback_tools mapping) reg) as Hfallback.
  destruct (first_available (primary_tools mapping) reg) as [[t s]|].
  - destruct Hprimary as (Hbest & before & after & Hsplit & Hnone).
    exists mapping, before, (after ++ fallback_tools mapping)%list.
    split; [done|]. split; [by rewrite Hsplit, <- app_assoc|].
    split; [done|]. split; [done|]. split.
    + intros _ Hnot. exfalso. apply Hnot. rewrite Hsplit.
      apply elem_of_app. right. by left.
    + by destruct (best_server_names_its_tool t reg t s Hbest) as [_ ?].
  - destruct (first_available (fallback_tools mapping) reg) as [[t s]|].
    + destruct Hfallback as (Hbest & before & after & Hsplit & Hnone).
      exists mapping, (primary_tools mapping ++ before)%list, after.
      split; [done|]. split; [by rewrite Hsplit, <- app_assoc|]. split.
      { intros x [Hx|Hx]%elem_of_app; [by apply Hprimary | by apply Hnone]. }
      split; [done|]. split; [intros _ _; exact Hprimary|].
      by destruct (best_server_names_its_tool t reg t s Hbest) as [_ ?].
    + intros ? [= <-] x [Hx|Hx]%elem_of_app;
        [by apply Hprimary | by apply Hfallback].
Qed.

End MappedTools.

Section RunFrame.
Import Registry.
Context `{Builtins} `{MCPClient.Env W}.

Lemma only_tracks_refl reg : only_tracks reg reg.
Proof.
  repeat (split; [done|]). intros k p Hk. exists p.
  split; [done|]. split; [done|]. split; [done|]. split; lia.
Qed.

Lemma only_tracks_trans reg1 reg2 reg3 :
  only_tracks reg1 reg2 -> only_tracks reg2 reg3 -> only_tracks reg1 reg3.
Proof.
  intros (Hc1 & Hm1 & Hs1 & Hf1 & Hp1) (Hc2 & Hm2 & Hs2 & Hf2 & Hp2).
  split; [congruence|]. split; [congruence|]. split; [congruence|].
  split; [congruence|]. intros k p Hk.
  destruct (Hp1 k p Hk) as (p' & Hk' & Ht' & Hn' & Hsc' & Hfc').
  destruct (Hp2 k p' Hk') as (p'' & Hk'' & Ht'' & Hn'' & Hsc'' & Hfc'').
  exists p''. split; [done|]. split; [congruence|]. split; [congruence|].
  split; lia.
Qed.

Lemma only_tracks_with_performance tool server reg p' :
  tool_name p' = tool_name (performance_of tool server reg) ->
  server_name p' = server_name (performance_of tool server reg) ->
  success_count (performance_of tool server reg) <= success_count p' ->
  failure_count (performance_of tool server reg) <= failure_count p' ->
  only_tracks reg (with_performance (MCPClient.tool_key server tool) p' reg).
Proof.
  intros Ht Hn Hs Hf. repeat (split; [done|]).
  intros k p Hk. cbn [with_performance performance_metrics].
  destruct (decide (k = MCPClient.tool_key server tool)) as [->|Hne].
  - rewrite lookup_insert_eq. exists p'. unfold performance_of in *.
    rewrite Hk in *. done.
  - rewrite lookup_insert_ne by done. exists p.
    split; [done|]. split; [done|]. split; [done|]. split; lia.
Qed.

Lemma tracking_only_tracks tool params server reg (w : W) :
  only_tracks reg (_execute_tool_with_tracking tool params server reg w).1.2.
Proof.
  unfold _execute_tool_with_tracking.
  change (match performance_metrics reg !! MCPClient.tool_key server tool with
          | Some p => p
          | None => new_performance tool server
          end) with (performance_of tool server reg).
  destruct (MCPClient.execute_tool_with_retry tool params (Some server)
              (mcp_client reg) w) as [[response|] w']; cbn [fst snd].
  - destruct (MCPClient.success response);
      apply only_tracks_with_performance; cbn; lia || done.
  - apply only_tracks_with_performance; cbn; lia || done.
Qed.

Lemma try_fallbacks_only_tracks todo params reg (w : W) :
  only_tracks reg (try_fallbacks todo params reg w).1.2.
Proof.
  revert reg w. induction todo as [|tool todo IH]; intros reg w;
    cbn [try_fallbacks]; [apply only_tracks_refl|].
  destruct (_find_best_server_for_tool tool reg) as [[t s]|]; [|apply IH].
  pose proof (tracking_only_tracks t params s reg w) as Hstep.
  destruct (_execute_tool_with_tracking t params s reg w) as [[r reg'] w'].
  cbn [fst snd] in Hstep.
  destruct (MCPClient.success r); [done|].
  eapply only_tracks_trans; [exact Hstep | apply IH].
Qed.

(** X21.  A run only writes performance entries.  Whatever the servers
    answer, [execute_with_fallback] leaves the client, the mappings, the tool
    index and the fallback chains of the registry as they were; no
    performance entry is removed, an entry keeps its tool and its server,
    and its success and failure counts do not go down.  So the candidate
    servers of every tool are the same servers after the run as before it,
    and when no tool is selected for the intent the registry and the world
    are untouched. *)
Theorem run_only_writes_performance (intent : string)
    (params : Py.dict PyVal) (reg : ToolRegistry) (w : W) :
  let '(response, reg', w') := execute_with_fallback intent params reg w in
  mcp_client reg' = mcp_client reg
  /\ tool_mappings reg' = tool_mappings reg
  /\ server_tools reg' = server_tools reg
  /\ fallback_chains reg' = fallback_chains reg
  /\ (forall k p,
        performance_metrics reg !! k = Some p ->
        exists p',
          performance_metrics reg' !! k = Some p'
          /\ tool_name p' = tool_name p /\ server_name p' = server_name p
          /\ success_count p <= success_count p'
          /\ failure_count p <= failure_count p')
  /\ (forall tool s,
        s ∈ cand_server_name <$> candidate_servers tool reg ->
        s ∈ cand_server_name <$> candidate_servers tool reg')
  /\ (select_optimal_tool intent reg = None ->
      reg' = reg /\ w' = w /\ MCPClient.success response = false).
Proof.
  assert (only_tracks reg (execute_with_fallback intent params reg w).1.2
          /\ (select_optimal_tool intent reg = None ->
              execute_with_fallback intent params reg w
              = ((execute_with_fallback intent params reg w).1.1, reg, w)
              /\ MCPClient.success
                   (execute_with_fallback intent params reg w).1.1 = false))
    as [Htracks Hnone].
  { unfold execute_with_fallback.
    destruct (select_optimal_tool intent reg) as [[tool server]|];
      [|split; [apply only_tracks_refl | done]].
    split; [|done].
    pose proof (tracking_only_tracks tool params server reg w) as Hstep.
    destruct (_execute_tool_with_tracking tool params server reg w)
      as [[response reg1] w1]. cbn [fst snd] in Hstep.
    destruct (fallback_chains reg1 !! tool) as [chain|]; [|done].
    destruct (negb (MCPClient.success response)); [|done].
    pose proof (try_fallbacks_only_tracks (fallbacks chain) params reg1 w1)
      as Hrest.
    destruct (try_fallbacks (fallbacks chain) params reg1 w1)
      as [[[r|] reg2] w2]; cbn [fst snd] in *;
      by apply (only_tracks_trans reg reg1 reg2). }
  destruct (execute_with_fallback intent params reg w) as [[response reg'] w'].
  cbn [fst snd] in *.
  destruct Htracks as (Hc & Hm & Hs & Hf & Hp).
  split; [done|]. split; [done|]. split; [done|]. split; [done|].
  split; [done|]. split.
  - intros tool s (c & -> & Hcand)%list_elem_of_fmap.
    apply elem_of_candidate_servers in Hcand
      as (server & tools & p & Hin & Htool & Hperf & ->).
    destruct (Hp _ _ Hperf) as (p' & Hperf' & _).
    apply list_elem_of_fmap.
    exists {| cand_server_name := server; cand_tool_name := tool;
              score := score_of p'; cand_last_success := last_success p' |}.
    split; [done|]. apply elem_of_candidate_servers.
    exists server, tools, p'. by rewrite Hs.
  - intros Hsel. destruct (Hnone Hsel) as [[= <- <-] ?]. done.
Qed.

End RunFrame.

Section RegistryCallScenarios.
Import Registry RegistryData.

(** Every call to [A] failed and every call to [B] was answered within
    five milliseconds: [A] is selected. *)
Lemma unmeasured_server_outranks_measured_witness :
  (300 <= score_of only_failed)%Q
  /\ (score_of always_answered <= 1507 # 10)%Q
  /\ exists s,
       _find_best_server_for_tool "list_jobs" failing_and_proven
       = Some ("list_jobs", s)
       /\ s ≠ "B".
Proof.
  refine (unmeasured_server_outranks_measured "list_jobs" failing_and_proven
            "A" "B" {["list_jobs"]} only_failed always_answered
            _ _ eq_refl eq_refl _ _ _ _ _ _).
  - by left.
  - by apply elem_of_singleton.
  - cbn. lia.
  - cbn. lia.
  - cbn. lia.
  - cbn. lia.
  - by apply Qle_bool_iff.
  - by apply Qle_bool_iff.
Defined.

End RegistryCallScenarios.


(** ** The recovery manager: reachable breakers, the recorded history *)

Section BreakerInvariant.
Import RecoveryManager.

Lemma sound_fresh : sound_entry fresh_circuit.
Proof. repeat split; try done; cbn; lia. Qed.

Lemma sound_update now rate cs :
  sound_entry cs -> sound_entry (update_entry now rate cs).
Proof.
  intros (Ht & Hf & Hs & Hopen). unfold update_entry.
  destruct (Qltb rate 0.3).
  - destruct (Z.leb_spec 5 (failure_count cs + 1)) as [Hn|Hn]; cbn [andb].
    + destruct (BreakerState_eqb (state cs) closed) eqn:Hst.
      * split; [done|]. split; [cbn; lia|]. split; [done|].
        intros _. cbn. split; [done | by eexists].
      * split; [done|]. split; [cbn; lia|]. split; [done|].
        cbn. intros Hne. destruct (Hopen Hne) as [? ?]. split; [lia | done].
    + split; [done|]. split; [cbn; lia|]. split; [done|].
      cbn. intros Hne. destruct (Hopen Hne) as [? ?]. split; [lia | done].
  - destruct (Qltb 0.7 rate); [|done].
    destruct (Z.leb_spec 3 (success_count cs + 1)) as [Hn|Hn].
    + split; [done|]. split; [cbn; lia|]. split; [cbn; lia|]. by cbn.
    + split; [done|]. split; [done|]. split; [cbn; lia|]. done.
Qed.

Lemma check_on_sound now k cbs :
  (forall k' cs, cbs !! k' = Some cs -> sound_entry cs) ->
  exists b cbs',
    _is_circuit_breaker_open now k cbs = Returns (b, cbs')
    /\ (forall k' cs, cbs' !! k' = Some cs -> sound_entry cs).
Proof.
  intros Hsound. unfold _is_circuit_breaker_open.
  destruct (cbs !! k) as [cs|] eqn:Hk; [|by eexists _, _].
  destruct (state cs) eqn:Hst; cbn [BreakerState_eqb negb];
    try (by eexists _, _).
  destruct (Hsound k cs Hk) as (Ht & Hf & Hs & Hopen).
  destruct Hopen as [H5 [t0 Ht0]]; [congruence|]. rewrite Ht0.
  destruct (Qltb (timeout cs) (now - t0)); [|by eexists _, _].
  eexists _, _. split; [done|]. intros k' cs'.
  destruct (decide (k' = k)) as [->|Hne].
  - rewrite lookup_insert_eq. intros [= <-].
    split; [done|]. split; [done|]. split; [done|].
    intros _. cbn. split; [done | by eexists].
  - rewrite lookup_insert_ne by done. apply Hsound.
Qed.

Lemma update_keeps_sound now k a cbs :
  (forall k' cs, cbs !! k' = Some cs -> sound_entry cs) ->
  forall k' cs, _update_circuit_breaker now k a cbs !! k' = Some cs ->
                sound_entry cs.
Proof.
  intros Hsound k' cs. unfold _update_circuit_breaker.
  destruct (decide (k' = k)) as [->|Hne].
  - rewrite lookup_insert_eq. intros [= <-]. apply sound_update.
    destruct (cbs !! k) as [cs0|] eqn:Hk; [by apply (Hsound k) | apply sound_fresh].
  - rewrite lookup_insert_ne by done. apply Hsound.
Qed.

Lemma calls_keep_sound calls cbs :
  (forall k cs, cbs !! k = Some cs -> sound_entry cs) ->
  exists cbs',
    after_breaker_calls calls cbs = Returns cbs'
    /\ (forall k cs, cbs' !! k = Some cs -> sound_entry cs).
Proof.
  revert cbs. induction calls as [|[now k|now k a] calls IH]; intros cbs Hsound;
    cbn [after_breaker_calls].
  - by exists cbs.
  - destruct (check_on_sound now k cbs Hsound) as (b & cbs1 & -> & Hsound1).
    by apply IH.
  - apply IH. by apply update_keeps_sound.
Qed.

(** X22.  The breaker check never raises.  [_is_circuit_breaker_open]
    subtracts [opened_at] from the clock, which raises [TypeError] when
    [opened_at] is [None]; but after any calls of the check and of
    [_update_circuit_breaker], in any order and for any keys, every breaker
    that is not closed carries the instant it opened and has counted at least
    five failures, the counts are never negative and the timeout is the 300
    seconds the entry was created with.  So every later check returns an
    answer. *)
Theorem breaker_check_never_raises (calls : list breaker_call) :
  exists cbs,
    after_breaker_calls calls ∅ = Returns cbs
    /\ (forall now k, exists b cbs',
          _is_circuit_breaker_open now k cbs = Returns (b, cbs'))
    /\ (forall k cs,
          cbs !! k = Some cs ->
          timeout cs = 300%Q
          /\ 0 <= failure_count cs /\ 0 <= success_count cs
          /\ (state cs ≠ closed ->
              5 <= failure_count cs /\ exists t0, opened_at cs = Some t0)).
Proof.
  destruct (calls_keep_sound calls ∅) as (cbs & Hrun & Hsound).
  { intros k cs Hk. by rewrite lookup_empty in Hk. }
  exists cbs. split; [done|]. split; [|exact Hsound].
  intros now k.
  destruct (check_on_sound now k cbs Hsound) as (b & cbs' & Hcheck & _).
  by exists b, cbs'.
Qed.

End BreakerInvariant.

Section History.
Import RecoveryManager.

(** What [history[-100:]] keeps after one more record. *)
Lemma last_hundred_snoc {A} (l : list A) (x : A) :
  let kept := (drop (length l - 100) l ++ [x])%list in
  (if (100 <? length kept)%nat then drop (length kept - 100) kept else kept)
  = drop (length (l ++ [x]) - 100) (l ++ [x])%list.
Proof.
  cbn zeta. rewrite !length_app, length_drop. cbn [length].
  destruct (Nat.ltb_spec 100 (length l - (length l - 100) + 1)) as [Hlt|Hge].
  - assert (100 <= length l)%nat as Hlen by lia.
    replace (length l - (length l - 100) + 1 - 100)%nat with 1%nat by lia.
    rewrite drop_app_le by (rewrite length_drop; lia).
    rewrite drop_drop.
    replace (length l + 1 - 100)%nat with (length l - 100 + 1)%nat by lia.
    by rewrite drop_app_le by lia.
  - assert (length l < 100)%nat as Hlen by lia.
    replace (length l - 100)%nat with 0%nat by lia.
    replace (length l + 1 - 100)%nat with 0%nat by lia.
    by rewrite !drop_0.
Qed.

Lemma last_of_drop {A} (n : nat) (l : list A) :
  (n < length l)%nat -> last (drop n l) = last l.
Proof.
  intros Hn. rewrite <- (take_drop n l) at 2. rewrite last_app.
  destruct (last (drop n l)) eqn:Hlast; [done|].
  apply last_None in Hlast. apply (f_equal length) in Hlast.
  rewrite length_drop in Hlast. cbn [length] in Hlast. lia.
Qed.

Lemma record_all_snoc attempts a h :
  record_all (attempts ++ [a]) h
  = _record_recovery_attempt (at_instant a) (of_failure_type a) (of_tool a)
      (of_error a) (of_attempts a) (of_action a) (record_all attempts h).
Proof. unfold record_all. by rewrite foldl_snoc. Qed.

(** X23.  The history of a key is its last hundred records.  After any
    attempts were recorded, the history kept under
    [failure_type:tool_name] holds the records of the attempts with that
    failure type and tool, oldest first, cut to the last hundred; it is
    never empty and never longer than a hundred, and ends with the latest
    attempt for the key; a key without attempts has no history. *)
Theorem history_keeps_last_hundred (attempts : list attempt) (k : string) :
  let mine := record_of <$> filter (λ a, key_of a = k) attempts in
  record_all attempts ∅ !! k
  = (if decide (mine = []) then None
     else Some (drop (length mine - 100) mine))
  /\ (forall history,
        record_all attempts ∅ !! k = Some history ->
        (1 <= length history <= 100)%nat
        /\ last history = last mine).
Proof.
  cbn zeta.
  assert (record_all attempts ∅ !! k
          = let mine := record_of <$> filter (λ a, key_of a = k) attempts in
            if decide (mine = []) then None
            else Some (drop (length mine - 100) mine)) as Hhist.
  { induction attempts as [|a attempts IH] using rev_ind; [done|].
    rewrite record_all_snoc. cbn zeta in *.
    unfold _record_recovery_attempt. fold (key_of a). fold (record_of a).
    rewrite filter_app, fmap_app.
    set (mine := record_of <$> filter (λ a0, key_of a0 = k) attempts) in *.
    destruct (decide (key_of a = k)) as [Hk|Hk].
    - rewrite (filter_cons_True (λ a0, key_of a0 = k)) by done.
      rewrite filter_nil. cbn [fmap list_fmap].
      rewrite Hk, lookup_insert_eq, IH.
      destruct (decide ((mine ++ [record_of a])%list = [])) as [Hnil|_];
        [by apply app_nil in Hnil as [_ ?]|].
      f_equal. destruct (decide (mine = [])) as [->|Hne]; [done|].
      apply last_hundred_snoc.
    - rewrite (filter_cons_False (λ a0, key_of a0 = k)) by done.
      rewrite filter_nil. cbn [fmap list_fmap].
      rewrite app_nil_r, lookup_insert_ne by done. exact IH. }
  split; [exact Hhist|].
  intros history. rewrite Hhist. cbn zeta.
  set (mine := record_of <$> filter (λ a, key_of a = k) attempts).
  destruct (decide (mine = [])) as [|Hne]; [done|]. intros [= <-].
  assert (1 <= length mine)%nat
    by (destruct mine; [done | cbn [length]; lia]).
  rewrite length_drop. split; [lia|]. apply last_of_drop. lia.
Qed.

End History.
